(** * ed2kd file catalog and search engine ([src/db_sqlite.c])

    A shallow embedding of the catalog store (the three SQLite tables and
    their triggers), of the identity codec, and of the search compiler and
    executor of [db_search_files], together with the properties the design
    document states about them. *)

From Stdlib Require Import ZArith Lia Bool List Ascii String.
From Stdlib.Strings Require Import Byte.
From stdpp Require Import base option list gmap strings sorting.

Local Open Scope Z_scope.

(** ** Machine integers

    C integers are values in [Z]; every conversion the source performs is
    written out as a reduction modulo the width of the target type. *)

Definition to_uint16 (x : Z) : Z := x mod 2 ^ 16.
Definition to_uint32 (x : Z) : Z := x mod 2 ^ 32.
Definition to_uint64 (x : Z) : Z := x mod 2 ^ 64.

(** Conversion to a signed type of [w] bits (two's complement, as every
    platform SQLite supports does it). *)
Definition to_signed (w : Z) (x : Z) : Z :=
  let r := x mod 2 ^ w in
  if r <? 2 ^ (w - 1) then r else r - 2 ^ w.

Definition to_int32 (x : Z) : Z := to_signed 32 x.
Definition to_int64 (x : Z) : Z := to_signed 64 x.

Definition byte_val (b : Byte.byte) : Z := Z.of_N (Byte.to_N b).

(** ** Identity codec *)

(** [sdbm]: one round is [c + (hash << 6) + (hash << 16) - hash] in
    [uint64_t] arithmetic; the loop runs [length] times over [str]. *)
Definition sdbm_round (hash : Z) (c : Byte.byte) : Z :=
  to_uint64 (byte_val c + Z.shiftl hash 6 + Z.shiftl hash 16 - hash).

Definition sdbm (str : list Byte.byte) (length : nat) : Z :=
  fold_left sdbm_round (firstn length str) 0.

Definition MAX_SEARCH_QUERY_LEN : Z := 1024.
Definition MAX_NAME_TERM_LEN : Z := 1024.

Definition MAKE_FID (x : list Byte.byte) : Z := sdbm x 16.

(** [struct client], as far as the catalog reads it: a 32-bit client id
    and a 16-bit port. *)
Record client := { id : Z; port : Z }.

(** Modelled from the spec: [struct client] is declared in [client.h],
    which is not part of the sources at hand; the spec gives the address
    as [u32] and the port as [u16]. *)
Definition client_ok (c : client) : Prop :=
  0 <= id c < 2 ^ 32 /\ 0 <= port c < 2 ^ 16.

Definition MAKE_SID (x : client) : Z :=
  Z.lor (to_uint64 (Z.shiftl (to_uint64 (id x)) 32)) (to_uint64 (port x)).

Definition GET_SID_ID (sid : Z) : Z := to_uint32 (Z.shiftr sid 32).
Definition GET_SID_PORT (sid : Z) : Z := to_uint16 sid.

(** ** Catalog store: tables *)

(** A row of table [files]; [fid INTEGER PRIMARY KEY] is the key under
    which the row is stored, the other columns are the fields. *)
Module file_row.
Record t := mk {
  hash : list Byte.byte;
  name : string;
  ext : option string;
  size : Z;
  type : Z;
  srcavail : Z;
  srccomplete : Z;
  rating : Z;
  rated_count : Z;
  mlength : Z;
  mbitrate : Z;
  mcodec : option string
}.
End file_row.

(** A row of table [sources]. *)
Module source_row.
Record t := mk {
  fid : Z;
  sid : Z;
  complete : Z;
  rating : Z
}.
End source_row.

(** The database: [files] is a rowid table keyed by [fid]; [fnames] is
    the FTS4 index, keyed by [docid], holding the indexed name;
    [sources] has no key of its own and is a sequence of rows in
    insertion order.  Integer columns hold SQLite's 64-bit integers,
    whose arithmetic is exact as long as it stays within 64 bits; the
    counters below are sums over at most as many 32-bit values as there
    are rows in [sources]. *)
Record DB := mkDB {
  files : gmap Z file_row.t;
  fnames : gmap Z string;
  sources : list source_row.t
}.

(** The state [db_create] leaves: the schema, and the three tables
    emptied by its closing [DELETE] statements. *)
Definition db_create_state : DB := mkDB ∅ ∅ [].

Inductive query_statements :=
  | SHARE_UPD | SHARE_INS | SHARE_SRC | REMOVE_SRC | GET_SRC.

(** Modelled from the spec: [struct pub_file] is declared in a header
    that is not part of the sources at hand.  The fields are the ones
    [db_share_files] reads; the spec's FileAnnouncement gives a 16-byte
    hash, a boolean [complete] and a 32-bit [rating]. *)
Module pub_file.
Record t := mk {
  hash : list Byte.byte;
  name_len : Z;
  name : string;
  size : Z;
  type : Z;
  media_length : Z;
  media_bitrate : Z;
  media_codec_len : Z;
  media_codec : string;
  complete : bool;
  rating : Z
}.
End pub_file.

(** ** Strings of C *)

Definition NUL : ascii := Ascii.zero.

(** The characters of [s] before its first NUL: what C sees as the string
    stored at the address of [s]. *)
Fixpoint c_str (s : string) : string :=
  match s with
  | EmptyString => EmptyString
  | String c s' => if Ascii.eqb c NUL then EmptyString else String c (c_str s')
  end.

(** What [strncat (dst, src, n)] appends to [dst]: at most [n] characters
    of [src], stopping before a NUL. *)
Fixpoint strncat_src (src : string) (n : nat) : string :=
  match n, src with
  | S n', String c s' =>
      if Ascii.eqb c NUL then EmptyString else String c (strncat_src s' n')
  | _, _ => EmptyString
  end.

(** [sqlite3_bind_text (stmt, i, p, n, SQLITE_STATIC)]: NULL for a null
    pointer, the [n] bytes at [p] for [n >= 0], the C string at [p] for
    a negative [n]. *)
Definition sqlite3_bind_text (p : option string) (n : Z) : option string :=
  match p with
  | None => None
  | Some s =>
      if n <? 0 then Some (c_str s)
      else Some (String.substring 0 (Z.to_nat n) s)
  end.

(** The bytes from offset [off] of [s] on: the string a pointer into [s]
    points to. *)
Fixpoint str_drop (off : nat) (s : string) : string :=
  match off, s with
  | S n, String _ s' => str_drop n s'
  | _, _ => s
  end.

(** ** Environment

    What the catalog code takes from outside: the two helper functions
    and the two length caps declared in headers, the full-text matcher
    of FTS4, and the points at which the SQLite engine may report an
    error (out of memory, I/O), on which every [DB_CHECK] branches:
    before a statement has written anything, part-way through its
    writes, or at any [sqlite3_step] of a query. *)
Class Env := {
  (** [file_extension (name, len)]: the offset of the extension inside
      [name], or [None] for a null pointer *)
  file_extension : string -> Z -> option nat;
  get_ed2k_file_type : string -> Z -> Z;
  MAX_FILENAME_LEN : Z;
  MAX_FILEEXT_LEN : Z;
  (** does the FTS4 query [q] match a document holding [name] *)
  fts_match : string -> string -> bool;
  (** is [q] a well-formed FTS4 query; a malformed one makes
      [sqlite3_step] return an error *)
  fts_query_ok : string -> bool;
  (** do [sqlite3_reset], the binds and, for a statement that writes,
      [sqlite3_step] of a prepared statement report success in a given
      state *)
  sqlite_ok : query_statements -> DB -> bool;
  (** do [sqlite3_prepare_v2] of the given text and the binds that follow
      report success in a given state *)
  sqlite_prepare_ok : string -> DB -> bool;
  (** when a statement that writes fails: the number of row writes it
      has made by then, 0 when [sqlite3_reset] or a bind failed; with
      [PRAGMA journal_mode = OFF] they are not undone *)
  sqlite_partial : query_statements -> DB -> nat;
  (** for the query of the given text: the number of rows
      [sqlite3_step] delivers before it reports an error; [None] when it
      reports none *)
  sqlite_step_fault : string -> DB -> option nat
}.

(** ** Catalog store: triggers and statements *)

Definition set_files (m : gmap Z file_row.t) (db : DB) : DB :=
  mkDB m (fnames db) (sources db).
Definition set_fnames (m : gmap Z string) (db : DB) : DB :=
  mkDB (files db) m (sources db).
Definition set_sources (l : list source_row.t) (db : DB) : DB :=
  mkDB (files db) (fnames db) l.

(** Trigger [files_fts3], [BEFORE DELETE ON files]. *)
Definition files_fts3 (old_rowid : Z) (db : DB) : DB :=
  set_fnames (delete old_rowid (fnames db)) db.

(** [DELETE FROM files WHERE fid=k]. *)
Definition delete_files (k : Z) (db : DB) : DB :=
  match files db !! k with
  | None => db
  | Some _ =>
      let db1 := files_fts3 k db in
      set_files (delete k (files db1)) db1
  end.

(** Trigger [files_au], [AFTER UPDATE ON files WHEN new.srcavail=0]. *)
Definition files_au (new_fid : Z) (new : file_row.t) (db : DB) : DB :=
  if file_row.srcavail new =? 0 then delete_files new_fid db else db.

(** [new.name<>old.name], the condition of the two triggers that keep
    the index in step with a renamed file. *)
Definition renamed (old new : file_row.t) : bool :=
  negb (String.eqb (file_row.name new) (file_row.name old)).

(** Trigger [files_fts1], [BEFORE UPDATE ON files]. *)
Definition files_fts1 (old_rowid : Z) (old new : file_row.t) (db : DB) : DB :=
  if renamed old new then set_fnames (delete old_rowid (fnames db)) db else db.

(** Trigger [files_fts2], [AFTER UPDATE ON files]. *)
Definition files_fts2 (new_rowid : Z) (old new : file_row.t) (db : DB) : DB :=
  if renamed old new
  then set_fnames (<[new_rowid := file_row.name new]> (fnames db)) db
  else db.

(** Trigger [files_fts4], [AFTER INSERT ON files]. *)
Definition files_fts4 (new_rowid : Z) (new : file_row.t) (db : DB) : DB :=
  set_fnames (<[new_rowid := file_row.name new]> (fnames db)) db.

(** [UPDATE files SET ... WHERE fid=k], [set] giving the new row from the
    old one; returns the number of rows changed by the statement itself.
    Of the two triggers that run after the row is written SQLite takes
    the one created last first; they fire together only for a renamed
    row without sources. *)
Definition update_files (k : Z) (set : file_row.t -> file_row.t) (db : DB)
  : Z * DB :=
  match files db !! k with
  | None => (0, db)
  | Some old =>
      let new := set old in
      let db1 := files_fts1 k old new db in
      let db2 := set_files (<[k := new]> (files db1)) db1 in
      let db3 := files_fts2 k old new db2 in
      let db4 := files_au k new db3 in
      (1, db4)
  end.

(** Trigger [sources_ai], [AFTER INSERT ON sources]. *)
Definition sources_ai (new : source_row.t) (db : DB) : DB :=
  snd (update_files (source_row.fid new)
         (fun f =>
            file_row.mk (file_row.hash f) (file_row.name f) (file_row.ext f)
              (file_row.size f) (file_row.type f)
              (file_row.srcavail f + 1)
              (file_row.srccomplete f + source_row.complete new)
              (file_row.rating f + source_row.rating new)
              (if negb (source_row.rating new =? 0)
               then file_row.rated_count f + 1 else 0)
              (file_row.mlength f) (file_row.mbitrate f) (file_row.mcodec f))
         db).

(** Trigger [sources_bd], [BEFORE DELETE ON sources]. *)
Definition sources_bd (old : source_row.t) (db : DB) : DB :=
  snd (update_files (source_row.fid old)
         (fun f =>
            file_row.mk (file_row.hash f) (file_row.name f) (file_row.ext f)
              (file_row.size f) (file_row.type f)
              (file_row.srcavail f - 1)
              (file_row.srccomplete f - source_row.complete old)
              (file_row.rating f - source_row.rating old)
              (if negb (source_row.rating old =? 0)
               then file_row.rated_count f - 1 else file_row.rated_count f)
              (file_row.mlength f) (file_row.mbitrate f) (file_row.mcodec f))
         db).

(** Statement [SHARE_UPD]. *)
Definition share_upd (name ext : option string) (size type mlength mbitrate : Z)
    (mcodec : option string) (fid : Z) (db : DB) : Z * DB :=
  update_files fid
    (fun f =>
       file_row.mk (file_row.hash f) (default EmptyString name) ext size type
         (file_row.srcavail f) (file_row.srccomplete f) (file_row.rating f)
         (file_row.rated_count f) mlength mbitrate mcodec)
    db.

(** Statement [SHARE_INS]: [INSERT OR REPLACE] drops a row already stored
    under [fid] without running delete triggers (recursive triggers are
    off), the four counters take their default 0, and trigger
    [files_fts4] indexes the name. *)
Definition share_ins (fid : Z) (hash : list Byte.byte) (name ext : option string)
    (size type mlength mbitrate : Z) (mcodec : option string) (db : DB) : DB :=
  let new :=
    file_row.mk hash (default EmptyString name) ext size type 0 0 0 0
      mlength mbitrate mcodec in
  let db1 := set_files (<[fid := new]> (files db)) db in
  files_fts4 fid new db1.

(** Statement [SHARE_SRC], with trigger [sources_ai]. *)
Definition share_src (fid sid complete rating : Z) (db : DB) : DB :=
  let new := source_row.mk fid sid complete rating in
  sources_ai new (set_sources (sources db ++ [new]) db).

(** Statement [REMOVE_SRC]: the rows of [sources] are scanned in storage
    order; for each row with the given [sid] trigger [sources_bd] runs
    and the row is dropped.  Returns the database the triggers leave and
    the rows that stay. *)
Fixpoint remove_src (sid : Z) (rows : list source_row.t) (db : DB)
  : DB * list source_row.t :=
  match rows with
  | [] => (db, [])
  | r :: rest =>
      if source_row.sid r =? sid then remove_src sid rest (sources_bd r db)
      else
        let '(db', kept) := remove_src sid rest db in
        (db', r :: kept)
  end.

(** ** Catalog store: operations

    A computation on the database that may take the [failed:] exit of a
    function; the database is then as the failing statement left it. *)
Definition sql (A : Type) : Type := DB -> option A * DB.

Definition sql_ret {A} (a : A) : sql A := fun db => (Some a, db).

Definition sql_bind {A B} (m : sql A) (k : A -> sql B) : sql B :=
  fun db =>
    match m db with
    | (Some a, db') => k a db'
    | (None, db') => (None, db')
    end.

Notation "x <- m ;; k" := (sql_bind m (fun x => k))
  (at level 100, m at next level, right associativity).
Notation "m ;;; k" := (sql_bind m (fun _ => k))
  (at level 100, right associativity).

(** The C result of a function that returns 1, or 0 from [failed:]. *)
Definition ret_code {A} (r : option A) : Z :=
  match r with Some _ => 1 | None => 0 end.

(** ** Catalog store: statements that fail part-way

    [db_create] sets [PRAGMA journal_mode = OFF]: what a statement has
    written when it fails stays.  A statement is run here write by
    write, the rows of the three tables being the unit, with a budget
    of writes it may still make: the budget left, or [None] once a
    write was due with none left. *)
Definition writes : Type := nat -> DB -> option nat * DB.

Definition write (f : DB -> DB) : writes :=
  fun b db =>
    match b with
    | O => (None, db)
    | S b' => (Some b', f db)
    end.

Definition w_skip : writes := fun b db => (Some b, db).

Definition w_seq (m1 m2 : writes) : writes :=
  fun b db =>
    match m1 b db with
    | (Some b', db') => m2 b' db'
    | (None, db') => (None, db')
    end.

(** A step that depends on the rows as they are when it is reached. *)
Definition w_read (k : DB -> writes) : writes := fun b db => k db b db.

Definition w_when (cond : bool) (f : DB -> DB) : writes :=
  if cond then write f else w_skip.

(** [DELETE FROM files WHERE fid=k], as [delete_files]. *)
Definition delete_files_w (k : Z) : writes :=
  w_read (fun db =>
    match files db !! k with
    | None => w_skip
    | Some _ =>
        w_seq (write (files_fts3 k))
              (write (fun db1 => set_files (delete k (files db1)) db1))
    end).

(** [UPDATE files SET ... WHERE fid=k], as [update_files]: trigger
    [files_fts1], the row, trigger [files_fts2], trigger [files_au]. *)
Definition update_files_w (k : Z) (set : file_row.t -> file_row.t) : writes :=
  w_read (fun db =>
    match files db !! k with
    | None => w_skip
    | Some old =>
        let new := set old in
        w_seq (w_when (renamed old new) (files_fts1 k old new))
          (w_seq (write (fun db1 => set_files (<[k := new]> (files db1)) db1))
             (w_seq (w_when (renamed old new) (files_fts2 k old new))
                (if file_row.srcavail new =? 0 then delete_files_w k else w_skip)))
    end).

(** Statement [SHARE_UPD], as [share_upd]. *)
Definition share_upd_w (name ext : option string) (size type mlength mbitrate : Z)
    (mcodec : option string) (fid : Z) : writes :=
  update_files_w fid
    (fun f =>
       file_row.mk (file_row.hash f) (default EmptyString name) ext size type
         (file_row.srcavail f) (file_row.srccomplete f) (file_row.rating f)
         (file_row.rated_count f) mlength mbitrate mcodec).

(** Statement [SHARE_INS], as [share_ins]: the row, then trigger
    [files_fts4]. *)
Definition share_ins_w (fid : Z) (hash : list Byte.byte) (name ext : option string)
    (size type mlength mbitrate : Z) (mcodec : option string) : writes :=
  let new :=
    file_row.mk hash (default EmptyString name) ext size type 0 0 0 0
      mlength mbitrate mcodec in
  w_seq (write (fun db => set_files (<[fid := new]> (files db)) db))
        (write (files_fts4 fid new)).

(** Trigger [sources_ai], as [sources_ai]. *)
Definition sources_ai_w (new : source_row.t) : writes :=
  update_files_w (source_row.fid new)
    (fun f =>
       file_row.mk (file_row.hash f) (file_row.name f) (file_row.ext f)
         (file_row.size f) (file_row.type f)
         (file_row.srcavail f + 1)
         (file_row.srccomplete f + source_row.complete new)
         (file_row.rating f + source_row.rating new)
         (if negb (source_row.rating new =? 0)
          then file_row.rated_count f + 1 else 0)
         (file_row.mlength f) (file_row.mbitrate f) (file_row.mcodec f)).

(** Trigger [sources_bd], as [sources_bd]. *)
Definition sources_bd_w (old : source_row.t) : writes :=
  update_files_w (source_row.fid old)
    (fun f =>
       file_row.mk (file_row.hash f) (file_row.name f) (file_row.ext f)
         (file_row.size f) (file_row.type f)
         (file_row.srcavail f - 1)
         (file_row.srccomplete f - source_row.complete old)
         (file_row.rating f - source_row.rating old)
         (if negb (source_row.rating old =? 0)
          then file_row.rated_count f - 1 else file_row.rated_count f)
         (file_row.mlength f) (file_row.mbitrate f) (file_row.mcodec f)).

(** Statement [SHARE_SRC], as [share_src]: the row, then trigger
    [sources_ai]. *)
Definition share_src_w (fid sid complete rating : Z) : writes :=
  let new := source_row.mk fid sid complete rating in
  w_seq (write (fun db => set_sources (sources db ++ [new]) db))
        (sources_ai_w new).

(** Statement [REMOVE_SRC], as [remove_src]: [kept] are the rows passed
    that stay, [rest] the rows still to scan; for a row with the given
    [sid] trigger [sources_bd] runs, then the row goes. *)
Fixpoint remove_src_w (sid : Z) (kept rest : list source_row.t) : writes :=
  match rest with
  | [] => w_skip
  | r :: rest' =>
      if source_row.sid r =? sid then
        w_seq (sources_bd_w r)
          (w_seq (write (set_sources (kept ++ rest')))
             (remove_src_w sid kept rest'))
      else remove_src_w sid (kept ++ [r]) rest'
  end.

(** What a statement leaves that fails after [k] writes. *)
Definition partial (w : writes) (k : nat) (db : DB) : DB := snd (w k db).

Section Catalog.
Context `{E : Env}.

(** Reset, bind and step of prepared statement [s], each under
    [DB_CHECK]; [run] is what the statement does to the database when it
    succeeds, [w] the statement write by write, of which a failing one
    leaves the first [sqlite_partial s db]. *)
Definition exec {A} (s : query_statements) (run : DB -> A * DB) (w : writes)
  : sql A :=
  fun db =>
    if sqlite_ok s db then let '(a, db') := run db in (Some a, db')
    else (None, partial w (sqlite_partial s db) db).

(** One iteration of the loop of [db_share_files] for an entry with a
    non-empty name. *)
Definition share_file (f : pub_file.t) (owner : client) : sql unit :=
  let fid := to_int64 (MAKE_FID (pub_file.hash f)) in
  let ext := file_extension (pub_file.name f) (pub_file.name_len f) in
  let ext_len :=
    match ext with
    | Some off => to_int32 (pub_file.name_len f - Z.of_nat off)
    | None => 0
    end in
  let ext_ptr := (fun off => str_drop off (pub_file.name f)) <$> ext in
  let b_name := sqlite3_bind_text (Some (pub_file.name f)) (pub_file.name_len f) in
  let b_ext := sqlite3_bind_text ext_ptr ext_len in
  let b_size := to_int64 (pub_file.size f) in
  let b_type := to_int32 (pub_file.type f) in
  let b_mlength := to_int32 (pub_file.media_length f) in
  let b_mbitrate := to_int32 (pub_file.media_bitrate f) in
  let b_mcodec :=
    sqlite3_bind_text (Some (pub_file.media_codec f)) (pub_file.media_codec_len f) in
  changes <- exec SHARE_UPD
               (share_upd b_name b_ext b_size b_type b_mlength b_mbitrate b_mcodec fid)
               (share_upd_w b_name b_ext b_size b_type b_mlength b_mbitrate b_mcodec
                  fid) ;;
  (if changes =? 0 then
     exec SHARE_INS
       (fun db =>
          (tt, share_ins fid (firstn 16 (pub_file.hash f)) b_name b_ext b_size b_type
                 b_mlength b_mbitrate b_mcodec db))
       (share_ins_w fid (firstn 16 (pub_file.hash f)) b_name b_ext b_size b_type
          b_mlength b_mbitrate b_mcodec)
   else sql_ret tt) ;;;
  exec SHARE_SRC
    (fun db =>
       (tt, share_src fid (to_int64 (MAKE_SID owner))
              (if pub_file.complete f then 1 else 0)
              (to_int32 (pub_file.rating f)) db))
    (share_src_w fid (to_int64 (MAKE_SID owner))
       (if pub_file.complete f then 1 else 0) (to_int32 (pub_file.rating f))).

(** The loop of [db_share_files] over the [count] entries at [files]. *)
Fixpoint share_files_loop (files : list pub_file.t) (owner : client) : sql unit :=
  match files with
  | [] => sql_ret tt
  | f :: rest =>
      if pub_file.name_len f =? 0 then share_files_loop rest owner
      else share_file f owner ;;; share_files_loop rest owner
  end.

Definition db_share_files (files : list pub_file.t) (owner : client) (db : DB)
  : Z * DB :=
  let '(r, db') := share_files_loop files owner db in (ret_code r, db').

Definition db_remove_source (clnt : client) (db : DB) : Z * DB :=
  let '(r, db') :=
    exec REMOVE_SRC
      (fun db =>
         let '(db1, kept) := remove_src (to_int64 (MAKE_SID clnt)) (sources db) db in
         (tt, set_sources kept db1))
      (w_read (fun db => remove_src_w (to_int64 (MAKE_SID clnt)) [] (sources db)))
      db in
  (ret_code r, db').

End Catalog.

(** ** Search trees

    Modelled from the spec: [struct search_node] and its type enumeration
    are declared in a header that is not part of the sources at hand.
    The enumerators are the ones [db_search_files] names, [ST_AND],
    [ST_OR] and [ST_NOT] being the range its first test selects;
    [ST_OTHER] stands for any other value, which the [default] branches
    of the function reject. *)
Inductive search_node_type :=
  | ST_AND | ST_OR | ST_NOT
  | ST_STRING | ST_EXTENSION | ST_CODEC
  | ST_MINSIZE | ST_MAXSIZE | ST_SRCAVAIL | ST_SRCCOMLETE
  | ST_MINBITRATE | ST_MINLENGTH | ST_TYPE
  | ST_OTHER.

(** [(ST_AND <= type) && (ST_NOT >= type)] *)
Definition is_oper (ty : search_node_type) : bool :=
  match ty with
  | ST_AND | ST_OR | ST_NOT => true
  | _ => false
  end.

(** Nodes live in a store addressed by pointers; [None] is the null
    pointer.  The walk writes the two visit flags of the nodes it
    passes, so a tree that is walked again is found as the first walk
    left it. *)
Definition addr : Type := nat.

Module search_node.
Record t := mk {
  type : search_node_type;
  parent : option addr;
  left_visited : bool;
  right_visited : bool;
  string_term : bool;
  str_len : Z;
  str_val : string;
  int_val : Z;
  left : option addr;
  right : option addr
}.

Definition set_left_visited (n : t) : t :=
  mk (type n) (parent n) true (right_visited n) (string_term n)
     (str_len n) (str_val n) (int_val n) (left n) (right n).

Definition set_right_visited (n : t) : t :=
  mk (type n) (parent n) (left_visited n) true (string_term n)
     (str_len n) (str_val n) (int_val n) (left n) (right n).
End search_node.

Abbreviation heap := (gmap addr search_node.t).

(** The local [params] of [db_search_files]; [name_term] is the C string
    held in the buffer of [MAX_NAME_TERM_LEN + 1] bytes. *)
Module params.
Record t := mk {
  name_term : string;
  name_len : Z;
  minsize : Z;
  maxsize : Z;
  srcavail : Z;
  srccomplete : Z;
  minbitrate : Z;
  minlength : Z;
  ext_node : option addr;
  codec_node : option addr;
  type_node : option addr
}.

(** [memset (&params, 0, sizeof params)] *)
Definition zero : t := mk EmptyString 0 0 0 0 0 0 0 None None None.

(** [name_len += n; strcat (name_term, s)] *)
Definition append (n : Z) (s : string) (p : t) : t :=
  mk (name_term p ++ s) (name_len p + n) (minsize p) (maxsize p) (srcavail p)
     (srccomplete p) (minbitrate p) (minlength p)
     (ext_node p) (codec_node p) (type_node p).
End params.

(** [sizeof params.name_term] *)
Definition sizeof_name_term : Z := MAX_NAME_TERM_LEN + 1.

(** [name_len += n; DB_CHECK (name_len < sizeof name_term); strcat ...] *)
Definition render (n : Z) (s : string) (p : params.t) : option params.t :=
  if params.name_len p + n <? sizeof_name_term then Some (params.append n s p)
  else None.

(** The keyword of an operator node and the length counted for it. *)
Definition oper_text (ty : search_node_type) : option (Z * string) :=
  match ty with
  | ST_AND => Some (5, " AND "%string)
  | ST_OR => Some (4, " OR "%string)
  | ST_NOT => Some (5, " NOT "%string)
  | _ => None
  end.

(** The [switch] over the type of a node that is not an operator; [a] is
    the address of the node. *)
Definition visit_leaf (a : addr) (n : search_node.t) (p : params.t)
  : option params.t :=
  let i := to_uint64 (search_node.int_val n) in
  match search_node.type n with
  | ST_STRING =>
      render (search_node.str_len n)
        (strncat_src (search_node.str_val n) (Z.to_nat (search_node.str_len n))) p
  | ST_EXTENSION =>
      Some (params.mk (params.name_term p) (params.name_len p) (params.minsize p)
              (params.maxsize p) (params.srcavail p) (params.srccomplete p)
              (params.minbitrate p) (params.minlength p)
              (Some a) (params.codec_node p) (params.type_node p))
  | ST_CODEC =>
      Some (params.mk (params.name_term p) (params.name_len p) (params.minsize p)
              (params.maxsize p) (params.srcavail p) (params.srccomplete p)
              (params.minbitrate p) (params.minlength p)
              (params.ext_node p) (Some a) (params.type_node p))
  | ST_MINSIZE =>
      Some (params.mk (params.name_term p) (params.name_len p) i
              (params.maxsize p) (params.srcavail p) (params.srccomplete p)
              (params.minbitrate p) (params.minlength p)
              (params.ext_node p) (params.codec_node p) (params.type_node p))
  | ST_MAXSIZE =>
      Some (params.mk (params.name_term p) (params.name_len p) (params.minsize p)
              i (params.srcavail p) (params.srccomplete p)
              (params.minbitrate p) (params.minlength p)
              (params.ext_node p) (params.codec_node p) (params.type_node p))
  | ST_SRCAVAIL =>
      Some (params.mk (params.name_term p) (params.name_len p) (params.minsize p)
              (params.maxsize p) i (params.srccomplete p)
              (params.minbitrate p) (params.minlength p)
              (params.ext_node p) (params.codec_node p) (params.type_node p))
  | ST_SRCCOMLETE =>
      Some (params.mk (params.name_term p) (params.name_len p) (params.minsize p)
              (params.maxsize p) (params.srcavail p) i
              (params.minbitrate p) (params.minlength p)
              (params.ext_node p) (params.codec_node p) (params.type_node p))
  | ST_MINBITRATE =>
      Some (params.mk (params.name_term p) (params.name_len p) (params.minsize p)
              (params.maxsize p) (params.srcavail p) (params.srccomplete p)
              i (params.minlength p)
              (params.ext_node p) (params.codec_node p) (params.type_node p))
  | ST_MINLENGTH =>
      Some (params.mk (params.name_term p) (params.name_len p) (params.minsize p)
              (params.maxsize p) (params.srcavail p) (params.srccomplete p)
              (params.minbitrate p) i
              (params.ext_node p) (params.codec_node p) (params.type_node p))
  | ST_TYPE =>
      Some (params.mk (params.name_term p) (params.name_len p) (params.minsize p)
              (params.maxsize p) (params.srcavail p) (params.srccomplete p)
              (params.minbitrate p) (params.minlength p)
              (params.ext_node p) (params.codec_node p) (Some a))
  | _ => None
  end.

(** How the [while (snode)] loop of [db_search_files] ends. *)
Inductive walk_result :=
  | WDone (h : heap) (p : params.t)   (* [snode] became null *)
  | WFailed (h : heap)                (* a [DB_CHECK] took the [failed:] exit *)
  | WStuck                            (* a pointer to no node was followed *)
  | WFuel.                            (* more iterations than [fuel] *)

(** The loop: one iteration per unit of [fuel], from [snode] in store
    [h] with parameters [p]. *)
Fixpoint walk (fuel : nat) (h : heap) (snode : option addr) (p : params.t)
  : walk_result :=
  match snode with
  | None => WDone h p
  | Some a =>
      match fuel with
      | O => WFuel
      | S fuel' =>
          match h !! a with
          | None => WStuck
          | Some n =>
              if is_oper (search_node.type n) then
                if negb (search_node.left_visited n) then
                  match
                    (if search_node.string_term n then render 1 "(" p else Some p)
                  with
                  | None => WFailed h
                  | Some p' =>
                      walk fuel' (<[a := search_node.set_left_visited n]> h)
                        (search_node.left n) p'
                  end
                else if negb (search_node.right_visited n) then
                  match
                    (if search_node.string_term n then
                       match oper_text (search_node.type n) with
                       | Some (len, oper) => render len oper p
                       | None => None
                       end
                     else Some p)
                  with
                  | None => WFailed h
                  | Some p' =>
                      walk fuel' (<[a := search_node.set_right_visited n]> h)
                        (search_node.right n) p'
                  end
                else
                  match
                    (if search_node.string_term n then render 1 ")" p else Some p)
                  with
                  | None => WFailed h
                  | Some p' => walk fuel' h (search_node.parent n) p'
                  end
              else
                match visit_leaf a n p with
                | None => WFailed h
                | Some p' => walk fuel' h (search_node.parent n) p'
                end
          end
      end
  end.

(** ** Search executor: the compiled statement *)

(** A value bound to a [?] of a statement, or read from a column. *)
Inductive sqlval :=
  | VNull
  | VInt (z : Z)
  | VText (s : string).

Definition text_val (t : option string) : sqlval :=
  match t with Some s => VText s | None => VNull end.

(** The predicates [db_search_files] may append to the [WHERE] clause. *)
Inductive clause :=
  | F_ext | F_mcodec | F_minsize | F_maxsize | F_srcavail | F_srccomplete
  | F_mbitrate | F_mlength | F_type.

Definition clause_sql (c : clause) : string :=
  match c with
  | F_ext => " AND f.ext=?"
  | F_mcodec => " AND f.mcodec=?"
  | F_minsize => " AND f.size>?"
  | F_maxsize => " AND f.size<?"
  | F_srcavail => " AND f.srcavail>?"
  | F_srccomplete => " AND f.srccomplete>?"
  | F_mbitrate => " AND f.mbitrate>?"
  | F_mlength => " AND f.mlength>?"
  | F_type => " AND f.type=?"
  end.

(** The initial contents of the local [query]. *)
Definition query_select : string :=
  " SELECT f.hash,f.name,f.size,f.type,f.ext,f.srcavail,f.srccomplete,f.rating,f.rated_count," ++
  "  (SELECT sid FROM sources WHERE fid=f.fid LIMIT 1) AS sid," ++
  "  f.mlength,f.mbitrate,f.mcodec " ++
  " FROM fnames n" ++
  " JOIN files f ON f.fid = n.docid" ++
  " WHERE fnames MATCH ?".

(** [cond] stands for the test of one of the nine [if]s, which guards both
    the [strcat] onto [query] and, further down, the bind. *)
Definition when (cond : bool) (c : clause) (v : sqlval) : list (clause * sqlval) :=
  if cond then [(c, v)] else [].

Definition nonzero (x : Z) : bool := negb (x =? 0).

(** The bytes [buf[0 .. n)] of a zeroed buffer into which the C string
    [s] was written. *)
Definition buffer_bytes (s : string) (n : nat) : string :=
  String.substring 0 n (s ++ string_of_list_ascii (repeat NUL n)).

(** The search text as it is bound: [name_len + 1] bytes of the
    buffer. *)
Definition bound_term (p : params.t) : string :=
  buffer_bytes (params.name_term p) (Z.to_nat (params.name_len p + 1)).

(** The documents of the full-text index as a query of it delivers
    them: by ascending [docid]. *)
Definition docid_le (x y : Z * string) : Prop := fst x <= fst y.

Global Instance docid_le_dec (x y : Z * string) : Decision (docid_le x y).
Proof. unfold docid_le. apply _. Defined.

Definition docs (db : DB) : list (Z * string) :=
  merge_sort docid_le (map_to_list (fnames db)).

Section Search.
Context `{E : Env}.

(** The text bound for a node that holds a string: [str_len] bytes at
    [str_val]. *)
Definition node_text (n : search_node.t) : option string :=
  sqlite3_bind_text (Some (search_node.str_val n)) (search_node.str_len n).

(** The filters present, in the order of the nine [if]s, each with the
    value bound for it.  [None] when one of the three node pointers
    leads to no node. *)
Definition filters (h : heap) (p : params.t) : option (list (clause * sqlval)) :=
  let node (o : option addr) : option (option search_node.t) :=
    match o with
    | None => Some None
    | Some a => match h !! a with Some n => Some (Some n) | None => None end
    end in
  match node (params.ext_node p), node (params.codec_node p),
        node (params.type_node p) with
  | Some en, Some cn, Some tn =>
      Some
        (match en with Some n => [(F_ext, text_val (node_text n))] | None => [] end ++
         match cn with Some n => [(F_mcodec, text_val (node_text n))] | None => [] end ++
         when (nonzero (params.minsize p)) F_minsize (VInt (to_int64 (params.minsize p))) ++
         when (nonzero (params.maxsize p)) F_maxsize (VInt (to_int64 (params.maxsize p))) ++
         when (nonzero (params.srcavail p)) F_srcavail (VInt (to_int64 (params.srcavail p))) ++
         when (nonzero (params.srccomplete p)) F_srccomplete
           (VInt (to_int64 (params.srccomplete p))) ++
         when (nonzero (params.minbitrate p)) F_mbitrate
           (VInt (to_int64 (params.minbitrate p))) ++
         when (nonzero (params.minlength p)) F_mlength
           (VInt (to_int64 (params.minlength p))) ++
         match tn with
         | Some n =>
             [(F_type,
               VInt (to_int32 (get_ed2k_file_type (search_node.str_val n)
                                 (search_node.str_len n) mod 2 ^ 8)))]
         | None => []
         end)
  | _, _, _ => None
  end.

(** The text handed to [sqlite3_prepare_v2]. *)
Definition query_text (fs : list (clause * sqlval)) : string :=
  query_select ++ String.concat "" (map (fun cv => clause_sql (fst cv)) fs) ++ " LIMIT ?".

(** The values bound, in order: the search text, one value per filter,
    the limit. *)
Definition query_binds (p : params.t) (fs : list (clause * sqlval)) (count : Z)
  : list sqlval :=
  VText (bound_term p) :: map snd fs ++ [VInt (to_int32 count)].

(** Does row [f] satisfy the predicate of filter [c] bound to [v];
    a comparison with NULL, or of a number with a text, is not true. *)
Definition clause_holds (f : file_row.t) (cv : clause * sqlval) : bool :=
  let '(c, v) := cv in
  let text_eq (col : option string) :=
    match col, v with
    | Some s, VText s' => String.eqb s s'
    | _, _ => false
    end in
  let int_cmp (cmp : Z -> Z -> bool) (col : Z) :=
    match v with VInt z => cmp col z | _ => false end in
  match c with
  | F_ext => text_eq (file_row.ext f)
  | F_mcodec => text_eq (file_row.mcodec f)
  | F_minsize => int_cmp Z.gtb (file_row.size f)
  | F_maxsize => int_cmp Z.ltb (file_row.size f)
  | F_srcavail => int_cmp Z.gtb (file_row.srcavail f)
  | F_srccomplete => int_cmp Z.gtb (file_row.srccomplete f)
  | F_mbitrate => int_cmp Z.gtb (file_row.mbitrate f)
  | F_mlength => int_cmp Z.gtb (file_row.mlength f)
  | F_type => int_cmp Z.eqb (file_row.type f)
  end.

(** The rows of the join that satisfy the [WHERE] clause, in the order
    the engine delivers them: the documents of the index that match the
    search text, by ascending [docid], each joined to the row of [files]
    stored under its [docid]. *)
Definition matching (db : DB) (term : string) (fs : list (clause * sqlval))
  : list (Z * file_row.t) :=
  flat_map
    (fun '(docid, nm) =>
       if fts_match term nm then
         match files db !! docid with
         | Some f => if forallb (clause_holds f) fs then [(docid, f)] else []
         | None => []
         end
       else [])
    (docs db).

(** At which [sqlite3_step] of the search the engine reports an error:
    at the first for a search text that is no well-formed FTS4 query,
    else where it fails by itself. *)
Definition search_fault (term : string) (fs : list (clause * sqlval)) (db : DB)
  : option nat :=
  if fts_query_ok term then sqlite_step_fault (query_text fs) db else Some 0%nat.

End Search.

(** [LIMIT n]; a negative [n] is no limit. *)
Definition sql_limit {A} (n : Z) (rows : list A) : list A :=
  if n <? 0 then rows else firstn (Z.to_nat n) rows.

(** ** Search executor: result rows *)

(** Modelled from the spec: [struct search_file] is declared in a header
    that is not part of the sources at hand; the fields are the ones
    [db_search_files] assigns. *)
Module search_file.
Record t := mk {
  hash : list Byte.byte;
  name_len : Z;
  name : option string;
  size : Z;
  type : Z;
  ext_len : Z;
  ext : option string;
  srcavail : Z;
  srccomplete : Z;
  rating : Z;
  rated_count : Z;
  client_id : Z;
  client_port : Z;
  media_length : Z;
  media_bitrate : Z;
  media_codec_len : Z;
  media_codec : option string
}.
End search_file.

(** [struct file_source], as [db_get_sources] fills it. *)
Module file_source.
Record t := mk { ip : Z; port : Z }.
End file_source.

(** [sqlite3_column_bytes] of a text column; 0 for NULL. *)
Definition sqlite3_column_bytes (t : option string) : Z :=
  match t with Some s => Z.of_nat (String.length s) | None => 0 end.

(** [sqlite3_column_int]: the low 32 bits of the stored integer. *)
Definition sqlite3_column_int (v : Z) : Z := to_int32 v.

(** [x > cap ? cap : x] *)
Definition cap_len (cap x : Z) : Z := if x >? cap then cap else x.

(** What [sqlite3_step] returned last. *)
Inductive step_code := SQLITE_ROW | SQLITE_DONE | SQLITE_ERROR.

Definition is_done (c : step_code) : bool :=
  match c with SQLITE_DONE => true | _ => false end.

(** The loop [while (step == SQLITE_ROW && i < count) { body; ++i; }]
    over the rows the statement still has to deliver; [emit] is the body,
    appending to the output.  [fault] is the number of rows
    [sqlite3_step] still delivers before it reports an error, if it
    does; the result of the step is looked at before [i < count]. *)
Fixpoint fetch {R O} (emit : R -> O) (rows : list R) (fault : option nat)
    (i count : Z) (out : list O) : Z * list O * step_code :=
  match fault with
  | Some O => (i, out, SQLITE_ERROR)
  | _ =>
      match rows with
      | [] => (i, out, SQLITE_DONE)
      | r :: rest =>
          if i <? count
          then fetch emit rest (Nat.pred <$> fault) (i + 1) count (out ++ [emit r])
          else (i, out, SQLITE_ROW)
      end
  end.

(** What a call of [db_search_files] leaves: the value returned, the
    store of the tree, the output buffer and [*count]. *)
Record search_outcome := mkOutcome {
  ret : Z;
  tree : heap;
  buf : list search_file.t;
  count : Z
}.

Section Executor.
Context `{E : Env}.

(** The value of the sub-select [(SELECT sid FROM sources WHERE
    fid=f.fid LIMIT 1)] as [sqlite3_column_int64] reads it: 0 for
    NULL. *)
Definition first_sid (db : DB) (fid : Z) : Z :=
  match filter (fun s => source_row.fid s = fid) (sources db) with
  | s :: _ => source_row.sid s
  | [] => 0
  end.

(** The body of the fetch loop: one result row into a
    [struct search_file]. *)
Definition to_search_file (db : DB) (row : Z * file_row.t) : search_file.t :=
  let '(fid, f) := row in
  let sid := to_uint64 (first_sid db fid) in
  search_file.mk
    (file_row.hash f)
    (cap_len MAX_FILENAME_LEN (sqlite3_column_bytes (Some (file_row.name f))))
    (Some (file_row.name f))
    (file_row.size f)
    (sqlite3_column_int (file_row.type f))
    (cap_len MAX_FILEEXT_LEN (sqlite3_column_bytes (file_row.ext f)))
    (file_row.ext f)
    (sqlite3_column_int (file_row.srcavail f))
    (sqlite3_column_int (file_row.srccomplete f))
    (sqlite3_column_int (file_row.rating f))
    (sqlite3_column_int (file_row.rated_count f))
    (GET_SID_ID sid)
    (GET_SID_PORT sid)
    (sqlite3_column_int (file_row.mlength f))
    (sqlite3_column_int (file_row.mbitrate f))
    (cap_len MAX_FILEEXT_LEN (sqlite3_column_bytes (file_row.mcodec f)))
    (file_row.mcodec f).

(** [db_search_files (snode, buf, count)] on the tree stored in [h],
    with [fuel] iterations allowed to the walk; [None] when the walk
    needs more, or follows a pointer to no node. *)
Definition db_search_files (fuel : nat) (h : heap) (snode : option addr)
    (buf : list search_file.t) (count : Z) (db : DB) : option search_outcome :=
  match walk fuel h snode params.zero with
  | WFuel | WStuck => None
  | WFailed h' => Some (mkOutcome 0 h' buf count)
  | WDone h' p =>
      match filters h' p with
      | None => None
      | Some fs =>
          if negb (sqlite_prepare_ok (query_text fs) db) then
            Some (mkOutcome 0 h' buf count)
          else
            let '(i, buf', err) :=
              fetch (to_search_file db)
                (sql_limit (to_int32 count) (matching db (bound_term p) fs))
                (search_fault (bound_term p) fs db) 0 count buf in
            if (i =? count) || is_done err then Some (mkOutcome 1 h' buf' i)
            else Some (mkOutcome 0 h' buf' count)
      end
  end.

(** The text of statement [GET_SRC]. *)
Definition query_get_src : string := "SELECT sid FROM sources WHERE fid=? LIMIT ?".

(** [db_get_sources (hash, sources, count)]: the value returned, the
    entries written to [sources] and [*count]; [count] is a
    [uint8_t].  [sqlite_ok GET_SRC] stands for the reset and the two
    binds before the loop. *)
Definition db_get_sources (hash : list Byte.byte) (count : Z) (db : DB)
  : Z * list file_source.t * Z :=
  if negb (sqlite_ok GET_SRC db) then (0, [], count)
  else
    let fid := to_int64 (MAKE_FID hash) in
    let rows :=
      sql_limit (to_int32 count)
        (map source_row.sid
           (filter (fun s => source_row.fid s = fid) (sources db))) in
    let '(i, out, err) :=
      fetch (fun sid =>
               file_source.mk (GET_SID_ID (to_uint64 sid))
                 (GET_SID_PORT (to_uint64 sid)))
        rows (sqlite_step_fault query_get_src db) 0 count [] in
    if (i =? count) || is_done err then (1, out, i)
    else (0, out, count).

End Executor.

(** * Specification

    ** Aggregates of the source rows of a file *)

Definition sources_of (fid : Z) (rows : list source_row.t) : list source_row.t :=
  filter (fun s => source_row.fid s = fid) rows.

Definition count_sources (fid : Z) (rows : list source_row.t) : Z :=
  Z.of_nat (length (sources_of fid rows)).

Definition count_complete (fid : Z) (rows : list source_row.t) : Z :=
  Z.of_nat (length (filter (fun s => source_row.complete s ≠ 0) (sources_of fid rows))).

Definition sum_rating (fid : Z) (rows : list source_row.t) : Z :=
  foldr Z.add 0 (map source_row.rating (sources_of fid rows)).

Definition count_rated (fid : Z) (rows : list source_row.t) : Z :=
  Z.of_nat (length (filter (fun s => source_row.rating s ≠ 0) (sources_of fid rows))).

(** A call of one of the two operations that change the catalog. *)
Inductive call :=
  | Share (files : list pub_file.t) (owner : client)
  | Remove (clnt : client).

Section Runs.
Context `{E : Env}.

Definition do_call (c : call) (db : DB) : Z * DB :=
  match c with
  | Share files owner => db_share_files files owner db
  | Remove clnt => db_remove_source clnt db
  end.

(** The database after a sequence of calls each of which returned 1;
    [None] once a call returns 0. *)
Fixpoint run_calls (cs : list call) (db : DB) : option DB :=
  match cs with
  | [] => Some db
  | c :: rest =>
      let '(r, db') := do_call c db in
      if r =? 1 then run_calls rest db' else None
  end.

End Runs.

(** The catalog invariant, over the file rows and index of [db] and the
    source rows [rows]: the counters of every file row are the
    aggregates of its source rows, a stored file has a source, every
    source row has its file row, and only stored files are indexed.
    [rows] is a parameter because the triggers of a [DELETE] run while
    the rows not yet reached are still stored; [pending] names a file
    row that has just been inserted and whose first source row is about
    to follow. *)
Record catalog_inv (pending : option Z) (db : DB) (rows : list source_row.t)
  : Prop := {
  cons_avail : forall fid f, files db !! fid = Some f ->
    file_row.srcavail f = count_sources fid rows;
  cons_complete : forall fid f, files db !! fid = Some f ->
    file_row.srccomplete f = count_complete fid rows;
  cons_rating : forall fid f, files db !! fid = Some f ->
    file_row.rating f = sum_rating fid rows;
  cons_live : forall fid f, files db !! fid = Some f ->
    pending <> Some fid -> file_row.srcavail f <> 0;
  cons_owned : forall s, s ∈ rows ->
    is_Some (files db !! source_row.fid s) /\
    (source_row.complete s = 0 \/ source_row.complete s = 1);
  cons_indexed : forall fid, files db !! fid = None -> fnames db !! fid = None
}.

Definition consistent (db : DB) : Prop := catalog_inv None db (sources db).

(** ** Search trees as terms

    A tree of search nodes laid out in a store: every node with its
    address and its record. *)
Inductive stree :=
  | Leaf (a : addr) (n : search_node.t)
  | Oper (a : addr) (n : search_node.t) (l r : stree).

Definition root (t : stree) : addr :=
  match t with Leaf a _ => a | Oper a _ _ _ => a end.

Fixpoint addrs (t : stree) : list addr :=
  match t with
  | Leaf a _ => [a]
  | Oper a _ l r => a :: addrs l ++ addrs r
  end.

(** The record [n] with its two visit flags set to [lv] and [rv]. *)
Definition with_flags (lv rv : bool) (n : search_node.t) : search_node.t :=
  search_node.mk (search_node.type n) (search_node.parent n) lv rv
    (search_node.string_term n) (search_node.str_len n) (search_node.str_val n)
    (search_node.int_val n) (search_node.left n) (search_node.right n).

(** Store [h] holds tree [t] below parent pointer [par], the flags of
    all its operator nodes being [fl]: [false] for a tree as the parser
    builds it, [true] for one that has been walked. *)
Fixpoint repr (fl : bool) (h : heap) (par : option addr) (t : stree) : Prop :=
  match t with
  | Leaf a n =>
      h !! a = Some n /\ is_oper (search_node.type n) = false /\
      search_node.parent n = par /\ 0 <= search_node.str_len n
  | Oper a n l r =>
      h !! a = Some (with_flags fl fl n) /\ is_oper (search_node.type n) = true /\
      search_node.parent n = par /\
      search_node.left n = Some (root l) /\ search_node.right n = Some (root r) /\
      repr fl h (Some a) l /\ repr fl h (Some a) r
  end.

(** The number of loop iterations the walk of [t] takes. *)
Fixpoint iterations (t : stree) : nat :=
  match t with
  | Leaf _ _ => 1
  | Oper _ _ l r => 3 + iterations l + iterations r
  end.

(** The store after a walk of [t]. *)
Fixpoint mark (t : stree) (h : heap) : heap :=
  match t with
  | Leaf _ _ => h
  | Oper a n l r =>
      mark r (<[a := with_flags true true n]>
                (mark l (<[a := with_flags true false n]> h)))
  end.

(** The walk as a recursion over the term: the three visits of an
    operator node around the walks of its subtrees. *)
Fixpoint compile (t : stree) (p : params.t) : option params.t :=
  match t with
  | Leaf a n => visit_leaf a n p
  | Oper a n l r =>
      let st := search_node.string_term n in
      p1 ← (if st then render 1 "(" p else Some p);
      p2 ← compile l p1;
      p3 ← (if st then
              match oper_text (search_node.type n) with
              | Some (len, oper) => render len oper p2
              | None => None
              end
            else Some p2);
      p4 ← compile r p3;
      if st then render 1 ")" p4 else Some p4
  end.

(** The fully parenthesized infix rendering of a tree: "(", the left
    subtree, the keyword, the right subtree, ")"; a string leaf renders
    as its term, any other leaf as nothing. *)
Definition keyword (ty : search_node_type) : string :=
  match ty with
  | ST_AND => " AND "
  | ST_OR => " OR "
  | ST_NOT => " NOT "
  | _ => ""
  end.

Fixpoint infix (t : stree) : string :=
  match t with
  | Leaf _ n =>
      match search_node.type n with
      | ST_STRING =>
          strncat_src (search_node.str_val n) (Z.to_nat (search_node.str_len n))
      | _ => ""
      end
  | Oper _ n l r => "(" ++ infix l ++ keyword (search_node.type n) ++ infix r ++ ")"
  end.

(** The length the walk counts for the rendering of [t]. *)
Fixpoint text_len (t : stree) : Z :=
  match t with
  | Leaf _ n =>
      match search_node.type n with
      | ST_STRING => search_node.str_len n
      | _ => 0
      end
  | Oper _ n l r =>
      (if search_node.string_term n then
         2 + Z.of_nat (String.length (keyword (search_node.type n)))
       else 0) + text_len l + text_len r
  end.

Fixpoint all_string_term (t : stree) : bool :=
  match t with
  | Leaf _ _ => true
  | Oper _ n l r => search_node.string_term n && all_string_term l && all_string_term r
  end.

(** No leaf has a type the [switch] rejects. *)
Fixpoint known_leaves (t : stree) : bool :=
  match t with
  | Leaf _ n =>
      match search_node.type n with ST_OTHER => false | _ => true end
  | Oper _ _ l r => known_leaves l && known_leaves r
  end.

(** The operator nodes of [t], each with its address. *)
Fixpoint opers (t : stree) : list addr :=
  match t with
  | Leaf _ _ => []
  | Oper a _ l r => a :: opers l ++ opers r
  end.

(** ** Numeric filters *)

Definition is_numeric (ty : search_node_type) : bool :=
  match ty with
  | ST_MINSIZE | ST_MAXSIZE | ST_SRCAVAIL | ST_SRCCOMLETE
  | ST_MINBITRATE | ST_MINLENGTH => true
  | _ => false
  end.

(** The slot of [params] a numeric leaf type is recorded in, and the
    clause a non-zero slot adds to the query. *)
Definition slot (ty : search_node_type) (p : params.t) : Z :=
  match ty with
  | ST_MINSIZE => params.minsize p
  | ST_MAXSIZE => params.maxsize p
  | ST_SRCAVAIL => params.srcavail p
  | ST_SRCCOMLETE => params.srccomplete p
  | ST_MINBITRATE => params.minbitrate p
  | ST_MINLENGTH => params.minlength p
  | _ => 0
  end.

Definition clause_of (ty : search_node_type) : option clause :=
  match ty with
  | ST_MINSIZE => Some F_minsize
  | ST_MAXSIZE => Some F_maxsize
  | ST_SRCAVAIL => Some F_srcavail
  | ST_SRCCOMLETE => Some F_srccomplete
  | ST_MINBITRATE => Some F_mbitrate
  | ST_MINLENGTH => Some F_mlength
  | _ => None
  end.

Global Instance search_node_type_eq_dec : EqDecision search_node_type.
Proof. solve_decision. Defined.

Global Instance clause_eq_dec : EqDecision clause.
Proof. solve_decision. Defined.


(** ** A query with a filter omitted *)

(** A leaf of type [ty] whose value is 0. *)
Definition zero_filter (ty : search_node_type) (n : search_node.t) : bool :=
  bool_decide (search_node.type n = ty) &&
  (to_uint64 (search_node.int_val n) =? 0).

(** The tree without the leaves [drop] selects: an operator that loses
    an operand gives way to the other operand, one that loses both goes
    as well. *)
Fixpoint prune (drop : search_node.t -> bool) (t : stree) : option stree :=
  match t with
  | Leaf a n => if drop n then None else Some t
  | Oper a n l r =>
      match prune drop l, prune drop r with
      | Some l', Some r' => Some (Oper a n l' r')
      | Some l', None => Some l'
      | None, Some r' => Some r'
      | None, None => None
      end
  end.

(** The record [n] with its pointers to parent and operands set. *)
Definition set_links (par l r : option addr) (n : search_node.t) : search_node.t :=
  search_node.mk (search_node.type n) par (search_node.left_visited n)
    (search_node.right_visited n) (search_node.string_term n)
    (search_node.str_len n) (search_node.str_val n) (search_node.int_val n) l r.

(** The tree with the pointers of its nodes set for its shape, below
    parent pointer [par]. *)
Fixpoint relink (par : option addr) (t : stree) : stree :=
  match t with
  | Leaf a n => Leaf a (set_links par (search_node.left n) (search_node.right n) n)
  | Oper a n l r =>
      Oper a (set_links par (Some (root l)) (Some (root r)) n)
        (relink (Some a) l) (relink (Some a) r)
  end.

(** The query with the zero-valued filters of type [ty] omitted, as a
    tree of its own; [None] when nothing is left of the query. *)
Definition without (ty : search_node_type) (t : stree) : option stree :=
  relink None <$> prune (zero_filter ty) t.


(** The parameters but for the search text. *)
Definition untext (p : params.t) : params.t :=
  params.mk "" 0 (params.minsize p) (params.maxsize p) (params.srcavail p)
    (params.srccomplete p) (params.minbitrate p) (params.minlength p)
    (params.ext_node p) (params.codec_node p) (params.type_node p).

(** What passing a leaf does to the parameters other than the search
    text. *)
Definition settle (q : params.t) (x : addr * search_node.t) : params.t :=
  untext
    match search_node.type (snd x) with
    | ST_STRING => q
    | _ => default q (visit_leaf (fst x) (snd x) q)
    end.



(** What one source row contributes to the three sums of file [fid]. *)
Definition avail_of (fid : Z) (r : source_row.t) : Z :=
  if decide (source_row.fid r = fid) then 1 else 0.

Definition complete_of (fid : Z) (r : source_row.t) : Z :=
  if decide (source_row.fid r = fid) then
    if decide (source_row.complete r ≠ 0) then 1 else 0
  else 0.

Definition rating_of (fid : Z) (r : source_row.t) : Z :=
  if decide (source_row.fid r = fid) then source_row.rating r else 0.

(** ** Example data

    An environment in which the engine reports no error, every name
    matches every query, and no name has an extension; two peers and one
    file announced with varying rating and completeness. *)
Definition example_env : Env :=
  Build_Env (fun _ _ => None) (fun _ _ => 0) 255 64
    (fun _ _ => true) (fun _ => true) (fun _ _ => true) (fun _ _ => true)
    (fun _ _ => 0%nat) (fun _ _ => None).

(** An engine whose [sqlite3_step] fails after the first row of a
    query, and whose failing statements have made one write. *)
Definition faulty_env : Env :=
  Build_Env (fun _ _ => None) (fun _ _ => 0) 255 64
    (fun _ _ => true) (fun _ => true) (fun _ _ => true) (fun _ _ => true)
    (fun _ _ => 1%nat) (fun _ _ => Some 1%nat).

(** An engine on which statement [SHARE_INS] fails when it has written
    the row and trigger [files_fts4] has not run. *)
Definition broken_insert_env : Env :=
  Build_Env (fun _ _ => None) (fun _ _ => 0) 255 64
    (fun _ _ => true) (fun _ => true)
    (fun s _ => match s with SHARE_INS => false | _ => true end) (fun _ _ => true)
    (fun _ _ => 1%nat) (fun _ _ => None).

Definition peer_a : client := Build_client 167772161 4662.
Definition peer_b : client := Build_client 167772162 4662.

Definition example_hash : list Byte.byte := repeat Byte.x01 16.

Definition example_fid : Z := Eval vm_compute in to_int64 (MAKE_FID example_hash).

Definition song (rating : Z) (complete : bool) : pub_file.t :=
  pub_file.mk example_hash 8 "song.mp3" 5000000 1 0 0 0 "" complete rating.

Definition nameless : pub_file.t :=
  pub_file.mk example_hash 0 "" 5000000 1 0 0 0 "" true 3.

(** Both peers announce the file, the first with rating 5, the second
    without an opinion. *)
Definition example_calls : list call :=
  [Share [song 5 true] peer_a; Share [song 0 false] peer_b].

Definition example_db : DB :=
  Eval vm_compute in
    default db_create_state (run_calls (E := example_env) example_calls db_create_state).

Definition example_row : file_row.t :=
  Eval vm_compute in
    default (file_row.mk [] "" None 0 0 0 0 0 0 0 0 None) (files example_db !! example_fid).

(** The first peer alone announces the file. *)
Definition single_call : list call := [Share [song 5 true] peer_a].

Definition single_db : DB :=
  Eval vm_compute in
    default db_create_state (run_calls (E := example_env) single_call db_create_state).

Definition single_row : file_row.t :=
  Eval vm_compute in
    default (file_row.mk [] "" None 0 0 0 0 0 0 0 0 None) (files single_db !! example_fid).

(** The tree of [(A AND B) OR C] as the parser lays it out: the root at
    address 0, every operator node with [string_term] set. *)
Definition oper_node (ty : search_node_type) (par : option addr) (l r : addr)
  : search_node.t :=
  search_node.mk ty par false false true 0 "" 0 (Some l) (Some r).

Definition string_node (par : option addr) (s : string) : search_node.t :=
  search_node.mk ST_STRING par false false false
    (Z.of_nat (String.length s)) s 0 None None.

Definition number_node (ty : search_node_type) (par : option addr) (v : Z)
  : search_node.t :=
  search_node.mk ty par false false false 0 "" v None None.

Definition example_tree : stree :=
  Oper 0%nat (oper_node ST_OR None 1%nat 4%nat)
    (Oper 1%nat (oper_node ST_AND (Some 0%nat) 2%nat 3%nat)
       (Leaf 2%nat (string_node (Some 1%nat) "A"))
       (Leaf 3%nat (string_node (Some 1%nat) "B")))
    (Leaf 4%nat (string_node (Some 0%nat) "C")).

Definition example_heap : heap :=
  <[0%nat := oper_node ST_OR None 1%nat 4%nat]>
    (<[1%nat := oper_node ST_AND (Some 0%nat) 2%nat 3%nat]>
       (<[2%nat := string_node (Some 1%nat) "A"]>
          (<[3%nat := string_node (Some 1%nat) "B"]>
             (<[4%nat := string_node (Some 0%nat) "C"]> ∅)))).

(** A query of one string term, and one whose term has exactly
    [MAX_NAME_TERM_LEN] characters. *)
Definition leaf_tree (s : string) : stree := Leaf 0%nat (string_node None s).
Definition leaf_heap (s : string) : heap := <[0%nat := string_node None s]> ∅.

Definition long_term : string := string_of_list_ascii (repeat "a"%char 1024).

(** [song AND min-size 0]: a query with a numeric filter of value 0. *)
Definition filtered_tree : stree :=
  Oper 0%nat (oper_node ST_AND None 1%nat 2%nat)
    (Leaf 1%nat (string_node (Some 0%nat) "song"))
    (Leaf 2%nat (number_node ST_MINSIZE (Some 0%nat) 0)).

Definition filtered_heap : heap :=
  <[0%nat := oper_node ST_AND None 1%nat 2%nat]>
    (<[1%nat := string_node (Some 0%nat) "song"]>
       (<[2%nat := number_node ST_MINSIZE (Some 0%nat) 0]> ∅)).




(** [filtered_tree] with its filter omitted: the query [song]. *)
Definition song_heap : heap := <[1%nat := string_node None "song"]> ∅.



(** What a search for [song] with at most 5 results leaves on
    [example_db]. *)
Definition example_outcome : search_outcome :=
  Eval vm_compute in
    default (mkOutcome 0 ∅ [] 0)
      (db_search_files (E := example_env) 1 (leaf_heap "song") (Some 0%nat) [] 5
         example_db).

(** Three files announced in one batch, and what a search for [song]
    with at most 2 results leaves on that catalog. *)
Definition track (b : Byte.byte) (name : string) : pub_file.t :=
  pub_file.mk (repeat b 16) (Z.of_nat (String.length name)) name 1000 1 0 0 0 ""
    true 1.

Definition library_calls : list call :=
  [Share [track Byte.x03 "song three"; track Byte.x01 "song one";
          track Byte.x02 "song two"] peer_a].

Definition library_db : DB :=
  Eval vm_compute in
    default db_create_state
      (run_calls (E := example_env) library_calls db_create_state).

Definition limited_outcome : search_outcome :=
  Eval vm_compute in
    default (mkOutcome 0 ∅ [] 0)
      (db_search_files (E := example_env) 1 (leaf_heap "song") (Some 0%nat) [] 2
         library_db).

(** [min-size 5 AND max-size 10]: a query without string terms, whose
    operator node therefore has [string_term] clear. *)
Definition size_range_tree : stree :=
  Oper 0%nat
    (search_node.mk ST_AND None false false false 0 "" 0 (Some 1%nat) (Some 2%nat))
    (Leaf 1%nat (number_node ST_MINSIZE (Some 0%nat) 5))
    (Leaf 2%nat (number_node ST_MAXSIZE (Some 0%nat) 10)).

Definition size_range_heap : heap :=
  <[0%nat := search_node.mk ST_AND None false false false 0 "" 0
               (Some 1%nat) (Some 2%nat)]>
    (<[1%nat := number_node ST_MINSIZE (Some 0%nat) 5]>
       (<[2%nat := number_node ST_MAXSIZE (Some 0%nat) 10]> ∅)).

(** ** Further specification

    The polynomial the [sdbm] loop evaluates, by Horner's rule and
    without reduction: [c0 * 65599^(n-1) + ... + c(n-1)]. *)
Definition sdbm_poly (str : list Byte.byte) : Z :=
  fold_left (fun acc c => byte_val c + 65599 * acc) str 0.

(** A source id as [db_get_sources] and [db_search_files] take it apart
    after reading it back from column [sid]. *)
Definition unpack_sid (sid : Z) : file_source.t :=
  file_source.mk (GET_SID_ID (to_uint64 sid)) (GET_SID_PORT (to_uint64 sid)).

(** The source ids stored for a file, in storage order. *)
Definition sids_of (fid : Z) (rows : list source_row.t) : list Z :=
  map source_row.sid (sources_of fid rows).

(** The full-text index holds, under the key of every stored file, its
    name, and nothing else. *)
Definition index_synced (db : DB) : Prop :=
  forall fid, fnames db !! fid = file_row.name <$> files db !! fid.

(** [example_db] after the first peer has left. *)
Definition after_remove_db : DB :=
  Eval vm_compute in snd (db_remove_source (E := example_env) peer_a example_db).

(** The source row a peer's announcement of a file adds. *)
Definition announced_source (f : pub_file.t) (owner : client) : source_row.t :=
  source_row.mk (to_int64 (MAKE_FID (pub_file.hash f))) (to_int64 (MAKE_SID owner))
    (if pub_file.complete f then 1 else 0) (to_int32 (pub_file.rating f)).

(** The name of an announcement as it is bound to the statements. *)
Definition announced_name (f : pub_file.t) : string :=
  default EmptyString
    (sqlite3_bind_text (Some (pub_file.name f)) (pub_file.name_len f)).

(** No announcement of the call that is not passed over comes without
    an opinion. *)
Definition all_rated (c : call) : Prop :=
  match c with
  | Share files _ =>
      Forall (fun f => pub_file.name_len f <> 0 -> to_int32 (pub_file.rating f) <> 0)
        files
  | Remove _ => True
  end.

(** [rated_count] counts the source rows, all of which have a rating. *)
Record rated_inv (db : DB) (rows : list source_row.t) : Prop := {
  rated_files : forall fid f, files db !! fid = Some f ->
    file_row.rated_count f = count_sources fid rows;
  rated_rows : forall s, s ∈ rows -> source_row.rating s <> 0
}.

(** [single_db] after the second peer has announced the file too, with
    a rating of its own. *)
Definition rated_calls : list call :=
  [Share [song 5 true] peer_a; Share [song 3 false] peer_b].

Definition rated_db : DB :=
  Eval vm_compute in
    default db_create_state (run_calls (E := example_env) rated_calls db_create_state).

Definition rated_row : file_row.t :=
  Eval vm_compute in
    default (file_row.mk [] "" None 0 0 0 0 0 0 0 0 None) (files rated_db !! example_fid).

(** [n'] is the record [n] but for its visit flags, none of which has
    been cleared. *)
Definition flags_set (n n' : search_node.t) : Prop :=
  n' = with_flags (search_node.left_visited n') (search_node.right_visited n') n /\
  (search_node.left_visited n = true -> search_node.left_visited n' = true) /\
  (search_node.right_visited n = true -> search_node.right_visited n' = true).

(** Store [h'] has the nodes of [h] at the same addresses, changed, if
    at all, by flags that have been set. *)
Definition store_marked (h h' : heap) : Prop :=
  forall a,
    match h !! a with
    | Some n => exists n', h' !! a = Some n' /\ flags_set n n'
    | None => h' !! a = None
    end.

(** The search text is within the buffer, its terminator included, and
    not longer than the length counted for it. *)
Definition text_fits (p : params.t) : Prop :=
  Z.of_nat (String.length (params.name_term p)) <= params.name_len p /\
  params.name_len p <= MAX_NAME_TERM_LEN.

(** The value of the leaf of type [ty] the walk passes last. *)
Fixpoint last_value (ty : search_node_type) (t : stree) : option Z :=
  match t with
  | Leaf _ n =>
      if decide (search_node.type n = ty)
      then Some (to_uint64 (search_node.int_val n)) else None
  | Oper _ _ l r =>
      match last_value ty r with
      | Some v => Some v
      | None => last_value ty l
      end
  end.

(** [min-size 100 AND min-size 7]: the same filter twice. *)
Definition twice_tree : stree :=
  Oper 0%nat
    (search_node.mk ST_AND None false false false 0 "" 0 (Some 1%nat) (Some 2%nat))
    (Leaf 1%nat (number_node ST_MINSIZE (Some 0%nat) 100))
    (Leaf 2%nat (number_node ST_MINSIZE (Some 0%nat) 7)).

Definition twice_heap : heap :=
  <[0%nat := search_node.mk ST_AND None false false false 0 "" 0
               (Some 1%nat) (Some 2%nat)]>
    (<[1%nat := number_node ST_MINSIZE (Some 0%nat) 100]>
       (<[2%nat := number_node ST_MINSIZE (Some 0%nat) 7]> ∅)).

(** [song AND ?]: a query with a node of a type the walk does not
    know. *)
Definition unknown_tree : stree :=
  Oper 0%nat (oper_node ST_AND None 1%nat 2%nat)
    (Leaf 1%nat (string_node (Some 0%nat) "song"))
    (Leaf 2%nat (number_node ST_OTHER (Some 0%nat) 0)).

Definition unknown_heap : heap :=
  <[0%nat := oper_node ST_AND None 1%nat 2%nat]>
    (<[1%nat := string_node (Some 0%nat) "song"]>
       (<[2%nat := number_node ST_OTHER (Some 0%nat) 0]> ∅)).

(** Every node of the store has a string length that is not negative,
    as its unsigned type has it. *)
Definition lengths_ok (h : heap) : Prop :=
  map_Forall (fun _ n => 0 <= search_node.str_len n) h.

(** The three node pointers of [params] lead to nodes of the store. *)
Definition ptrs_in (h : heap) (p : params.t) : Prop :=
  forall o a,
    o ∈ [params.ext_node p; params.codec_node p; params.type_node p] ->
    o = Some a -> is_Some (h !! a).

(** The peer a call is made for has an id of 32 and a port of 16 bits,
    as the fields of [struct client] hold them. *)
Definition by_known_peer (c : call) : Prop :=
  match c with
  | Share _ owner => client_ok owner
  | Remove _ => True
  end.

(** Every source row carries the stored source id of a peer. *)
Definition peer_rows (rows : list source_row.t) : Prop :=
  forall s, s ∈ rows ->
    exists c, client_ok c /\ source_row.sid s = to_int64 (MAKE_SID c).

(** [single_db] after the first peer has announced the file again. *)
Definition again_db : DB :=
  Eval vm_compute in snd (db_share_files (E := example_env) [song 5 true] peer_a single_db).

(** The number of [?] in the text of a statement. *)
Fixpoint placeholders (s : string) : nat :=
  match s with
  | EmptyString => 0
  | String c s' => ((if Ascii.eqb c "?" then 1 else 0) + placeholders s')%nat
  end.

(** * Properties

    ** Identity codec *)

Lemma to_uint64_small x : 0 <= x < 2 ^ 64 -> to_uint64 x = x.
Proof. intros Hx. unfold to_uint64. apply Z.mod_small. exact Hx. Qed.

Lemma MAKE_SID_eq (c : client) :
  client_ok c -> MAKE_SID c = Z.lor (Z.shiftl (id c) 32) (port c).
Proof.
  intros [Hid Hport]. unfold MAKE_SID.
  rewrite (to_uint64_small (id c)) by lia.
  rewrite (to_uint64_small (port c)) by lia.
  rewrite to_uint64_small; [reflexivity|].
  rewrite Z.shiftl_mul_pow2 by lia. lia.
Qed.

Lemma MAKE_SID_high (c : client) :
  client_ok c -> Z.shiftr (MAKE_SID c) 32 = id c.
Proof.
  intros Hc. rewrite MAKE_SID_eq by exact Hc. destruct Hc as [Hid Hport].
  rewrite Z.shiftr_lor, Z.shiftr_shiftl_l by lia.
  rewrite Z.sub_diag, Z.shiftl_0_r.
  rewrite (Z.shiftr_div_pow2 (port c)) by lia.
  rewrite Z.div_small by lia. apply Z.lor_0_r.
Qed.

Lemma MAKE_SID_testbit (c : client) (i : Z) :
  client_ok c -> 0 <= i < 32 -> Z.testbit (MAKE_SID c) i = Z.testbit (port c) i.
Proof.
  intros Hc Hi. rewrite MAKE_SID_eq by exact Hc.
  rewrite Z.lor_spec, Z.shiftl_spec_low by lia. reflexivity.
Qed.

Lemma testbit_above (x n i : Z) :
  0 <= x < 2 ^ n -> 0 <= n <= i -> Z.testbit x i = false.
Proof.
  intros Hx Hi. destruct (Z.eq_dec x 0) as [->|Hne].
  - apply Z.bits_0.
  - apply Z.bits_above_log2; [lia|].
    assert (Z.log2 x < n) by (apply Z.log2_lt_pow2; lia). lia.
Qed.

(** C7: unpacking a packed source id gives back the address and the
    port; in the packed value the upper 32 bits are the address, the
    lower 16 bits the port, and bits 16 to 31 are zero. *)
Theorem sid_pack_unpack (c : client) :
  client_ok c ->
  GET_SID_ID (MAKE_SID c) = id c /\
  GET_SID_PORT (MAKE_SID c) = port c /\
  Z.shiftr (MAKE_SID c) 32 = id c /\
  Z.land (MAKE_SID c) (Z.ones 16) = port c /\
  (forall i, 16 <= i < 32 -> Z.testbit (MAKE_SID c) i = false) /\
  0 <= MAKE_SID c < 2 ^ 64.
Proof.
  intros Hc. pose proof Hc as [Hid Hport].
  assert (Hlow : Z.land (MAKE_SID c) (Z.ones 16) = port c).
  { apply Z.bits_inj'. intros i Hi. rewrite Z.land_spec.
    destruct (Z.lt_ge_cases i 16) as [Hlt|Hge].
    - rewrite Z.ones_spec_low by lia. rewrite andb_true_r.
      apply MAKE_SID_testbit; [exact Hc | lia].
    - rewrite Z.ones_spec_high by lia. rewrite andb_false_r.
      symmetry. apply (testbit_above _ 16); lia. }
  repeat split.
  - unfold GET_SID_ID, to_uint32. rewrite MAKE_SID_high by exact Hc.
    apply Z.mod_small. lia.
  - unfold GET_SID_PORT, to_uint16. rewrite <- Z.land_ones by lia. exact Hlow.
  - apply MAKE_SID_high. exact Hc.
  - exact Hlow.
  - intros i Hi. rewrite MAKE_SID_testbit by (try exact Hc; lia).
    apply (testbit_above _ 16); lia.
  - unfold MAKE_SID. apply Z.lor_nonneg. split; apply Z.mod_pos_bound; lia.
  - rewrite MAKE_SID_eq by exact Hc.
    destruct (Z.eq_dec (Z.lor (Z.shiftl (id c) 32) (port c)) 0) as [->|Hne]; [lia|].
    assert (Hnn : 0 <= Z.lor (Z.shiftl (id c) 32) (port c)).
    { apply Z.lor_nonneg. split; [apply Z.shiftl_nonneg|]; lia. }
    apply Z.log2_lt_cancel. rewrite Z.log2_pow2 by lia.
    rewrite Z.log2_lor; [|apply Z.shiftl_nonneg; lia|lia].
    apply Z.max_lub_lt.
    + destruct (Z.eq_dec (id c) 0) as [Hz|Hz].
      * rewrite Hz, Z.shiftl_0_l. simpl. lia.
      * rewrite Z.log2_shiftl by lia.
        assert (Z.log2 (id c) < 32) by (apply Z.log2_lt_pow2; lia). lia.
    + destruct (Z.eq_dec (port c) 0) as [Hz|Hz].
      * rewrite Hz. simpl. lia.
      * assert (Z.log2 (port c) < 16) by (apply Z.log2_lt_pow2; lia). lia.
Qed.

Lemma sid_pack_unpack_witness :
  client_ok (Build_client 167772161 4662) /\
  GET_SID_ID (MAKE_SID (Build_client 167772161 4662)) = 167772161 /\
  GET_SID_PORT (MAKE_SID (Build_client 167772161 4662)) = 4662.
Proof.
  assert (H : client_ok (Build_client 167772161 4662)).
  { unfold client_ok. simpl. lia. }
  split; [exact H|].
  pose proof (sid_pack_unpack _ H) as (H1 & H2 & _).
  split; [exact H1 | exact H2].
Defined.

(** ** Catalog store: aggregates *)

Lemma sources_of_app fid (l1 l2 : list source_row.t) :
  sources_of fid (l1 ++ l2) = sources_of fid l1 ++ sources_of fid l2.
Proof. unfold sources_of. apply filter_app. Qed.

Lemma sources_of_cons fid (r : source_row.t) l :
  sources_of fid (r :: l) =
  if decide (source_row.fid r = fid) then r :: sources_of fid l else sources_of fid l.
Proof. unfold sources_of. rewrite filter_cons. reflexivity. Qed.

Lemma count_sources_middle fid pre r rest :
  count_sources fid (pre ++ r :: rest) =
  count_sources fid (pre ++ rest) + avail_of fid r.
Proof.
  unfold count_sources, avail_of.
  rewrite !sources_of_app, sources_of_cons, !length_app.
  destruct (decide (source_row.fid r = fid)); simpl; lia.
Qed.

Lemma count_complete_middle fid pre r rest :
  count_complete fid (pre ++ r :: rest) =
  count_complete fid (pre ++ rest) + complete_of fid r.
Proof.
  unfold count_complete, complete_of.
  rewrite !sources_of_app, sources_of_cons, !filter_app, !length_app.
  destruct (decide (source_row.fid r = fid)); [|lia].
  rewrite filter_cons.
  destruct (decide (source_row.complete r ≠ 0)); simpl; lia.
Qed.

Lemma sum_rating_middle fid pre r rest :
  sum_rating fid (pre ++ r :: rest) =
  sum_rating fid (pre ++ rest) + rating_of fid r.
Proof.
  unfold sum_rating, rating_of.
  rewrite !sources_of_app, sources_of_cons, !map_app, !foldr_app.
  assert (Hacc : forall (l : list Z) a, foldr Z.add a l = foldr Z.add 0 l + a).
  { induction l as [|x l IH]; intros a; simpl; [lia|]. rewrite IH. lia. }
  destruct (decide (source_row.fid r = fid)); simpl.
  - rewrite (Hacc _ (foldr _ _ _)), (Hacc _ (_ + _)). lia.
  - lia.
Qed.

Lemma count_sources_nonneg fid rows : 0 <= count_sources fid rows.
Proof. unfold count_sources. lia. Qed.

Lemma count_sources_zero fid rows s :
  count_sources fid rows = 0 -> s ∈ rows -> source_row.fid s ≠ fid.
Proof.
  unfold count_sources, sources_of. intros Hz Hin Heq.
  assert (Hs : s ∈ filter (fun s => source_row.fid s = fid) rows).
  { apply list_elem_of_filter. split; [exact Heq | exact Hin]. }
  destruct (filter _ rows); [inversion Hs | simpl in Hz; lia].
Qed.

(** ** Catalog store: triggers *)

Lemma update_files_sources k set db :
  sources (snd (update_files k set db)) = sources db.
Proof.
  unfold update_files, files_au, files_fts1, files_fts2, delete_files, files_fts3.
  destruct (files db !! k) as [old|]; [|reflexivity]. simpl.
  repeat (match goal with |- context [if ?b then _ else _] => destruct b end;
          simpl);
  repeat (match goal with |- context [match ?x with _ => _ end] => destruct x end;
          simpl); reflexivity.
Qed.

Lemma update_files_none k set db :
  files db !! k = None -> update_files k set db = (0, db).
Proof. intros H. unfold update_files. rewrite H. reflexivity. Qed.

(** An update that keeps the name: the row is rewritten, or deleted with
    its index entry when its [srcavail] has become 0. *)
Lemma update_files_same_name k set db old :
  files db !! k = Some old ->
  file_row.name (set old) = file_row.name old ->
  update_files k set db =
  (1, if file_row.srcavail (set old) =? 0
      then mkDB (delete k (files db)) (delete k (fnames db)) (sources db)
      else mkDB (<[k := set old]> (files db)) (fnames db) (sources db)).
Proof.
  intros Hk Hname. unfold update_files, files_au, files_fts1, files_fts2, renamed.
  rewrite Hk, Hname, String.eqb_refl. simpl.
  destruct (file_row.srcavail (set old) =? 0); [|reflexivity].
  unfold delete_files, files_fts3, set_files, set_fnames. simpl.
  rewrite lookup_insert_eq. simpl. rewrite delete_insert_eq. reflexivity.
Qed.

Lemma sources_bd_inv db pre r rest :
  catalog_inv None db (pre ++ r :: rest) ->
  catalog_inv None (sources_bd r db) (pre ++ rest).
Proof.
  intros [Ha Hc Hr Hl Ho Hi].
  assert (Hin : forall s, s ∈ pre ++ rest -> s ∈ pre ++ r :: rest).
  { intros s Hs. rewrite elem_of_app, elem_of_cons.
    apply elem_of_app in Hs. tauto. }
  destruct (Ho r) as [[f Hf] Hcr].
  { rewrite elem_of_app, elem_of_cons. auto. }
  unfold sources_bd. erewrite update_files_same_name by (try exact Hf; reflexivity).
  simpl.
  pose proof (Ha _ _ Hf) as Haf. rewrite count_sources_middle in Haf.
  pose proof (Hc _ _ Hf) as Hcf. rewrite count_complete_middle in Hcf.
  pose proof (Hr _ _ Hf) as Hrf. rewrite sum_rating_middle in Hrf.
  unfold avail_of, complete_of, rating_of in Haf, Hcf, Hrf.
  rewrite decide_True in Haf, Hcf, Hrf by reflexivity.
  assert (Hother : forall fid, fid ≠ source_row.fid r ->
            count_sources fid (pre ++ r :: rest) = count_sources fid (pre ++ rest) /\
            count_complete fid (pre ++ r :: rest) = count_complete fid (pre ++ rest) /\
            sum_rating fid (pre ++ r :: rest) = sum_rating fid (pre ++ rest)).
  { intros fid Hne.
    rewrite count_sources_middle, count_complete_middle, sum_rating_middle.
    unfold avail_of, complete_of, rating_of.
    rewrite !decide_False by congruence. lia. }
  destruct (Z.eqb_spec (file_row.srcavail f - 1) 0) as [Hz|Hnz].
  - split; simpl.
    + intros fid f0 H0. apply lookup_delete_Some in H0 as [Hne H0].
      rewrite (Ha _ _ H0). apply Hother. congruence.
    + intros fid f0 H0. apply lookup_delete_Some in H0 as [Hne H0].
      rewrite (Hc _ _ H0). apply Hother. congruence.
    + intros fid f0 H0. apply lookup_delete_Some in H0 as [Hne H0].
      rewrite (Hr _ _ H0). apply Hother. congruence.
    + intros fid f0 H0 Hp. apply lookup_delete_Some in H0 as [Hne H0]. eauto.
    + intros s Hs. destruct (Ho s (Hin s Hs)) as [Hsome Hcs].
      split; [|exact Hcs]. rewrite lookup_delete_ne; [exact Hsome|].
      intros Heq.
      assert (Hcnt : count_sources (source_row.fid r) (pre ++ rest) = 0) by lia.
      apply (count_sources_zero _ _ s Hcnt Hs). congruence.
    + intros fid H0. destruct (decide (fid = source_row.fid r)) as [->|Hne].
      * apply lookup_delete_eq.
      * rewrite lookup_delete_ne in H0 by congruence.
        rewrite lookup_delete_ne by congruence. auto.
  - split; simpl.
    + intros fid f0 H0. apply lookup_insert_Some in H0 as [[<- <-]|[Hne H0]].
      * simpl. lia.
      * rewrite (Ha _ _ H0). apply Hother. congruence.
    + intros fid f0 H0. apply lookup_insert_Some in H0 as [[<- <-]|[Hne H0]].
      * simpl. destruct (decide (source_row.complete r ≠ 0)); lia.
      * rewrite (Hc _ _ H0). apply Hother. congruence.
    + intros fid f0 H0. apply lookup_insert_Some in H0 as [[<- <-]|[Hne H0]].
      * simpl. lia.
      * rewrite (Hr _ _ H0). apply Hother. congruence.
    + intros fid f0 H0 Hp. apply lookup_insert_Some in H0 as [[<- <-]|[Hne H0]].
      * simpl. exact Hnz.
      * eauto.
    + intros s Hs. destruct (Ho s (Hin s Hs)) as [Hsome Hcs].
      split; [|exact Hcs]. apply lookup_insert_is_Some'. right. exact Hsome.
    + intros fid H0. apply lookup_insert_None in H0 as [H0 Hne]. auto.
Qed.

Lemma sources_ai_inv db rows r :
  catalog_inv (Some (source_row.fid r)) db rows ->
  is_Some (files db !! source_row.fid r) ->
  source_row.complete r = 0 \/ source_row.complete r = 1 ->
  catalog_inv None (sources_ai r db) (rows ++ [r]).
Proof.
  intros [Ha Hc Hr Hl Ho Hi] [f Hf] Hcr.
  unfold sources_ai. erewrite update_files_same_name by (try exact Hf; reflexivity).
  simpl.
  pose proof (Ha _ _ Hf) as Haf. pose proof (Hc _ _ Hf) as Hcf.
  pose proof (Hr _ _ Hf) as Hrf.
  pose proof (count_sources_nonneg (source_row.fid r) rows) as Hnn.
  assert (Hmid : forall fid,
            count_sources fid (rows ++ [r]) = count_sources fid rows + avail_of fid r /\
            count_complete fid (rows ++ [r]) = count_complete fid rows + complete_of fid r /\
            sum_rating fid (rows ++ [r]) = sum_rating fid rows + rating_of fid r).
  { intros fid.
    rewrite count_sources_middle, count_complete_middle, sum_rating_middle.
    rewrite app_nil_r. auto. }
  destruct (Z.eqb_spec (file_row.srcavail f + 1) 0) as [Hz|Hnz]; [lia|].
  split; simpl.
  - intros fid f0 H0. destruct (Hmid fid) as (-> & _ & _). unfold avail_of.
    apply lookup_insert_Some in H0 as [[<- <-]|[Hne H0]].
    + simpl. rewrite decide_True by reflexivity. lia.
    + rewrite decide_False by congruence. rewrite (Ha _ _ H0). lia.
  - intros fid f0 H0. destruct (Hmid fid) as (_ & -> & _). unfold complete_of.
    apply lookup_insert_Some in H0 as [[<- <-]|[Hne H0]].
    + simpl. rewrite decide_True by reflexivity.
      destruct (decide (source_row.complete r ≠ 0)); lia.
    + rewrite decide_False by congruence. rewrite (Hc _ _ H0). lia.
  - intros fid f0 H0. destruct (Hmid fid) as (_ & _ & ->). unfold rating_of.
    apply lookup_insert_Some in H0 as [[<- <-]|[Hne H0]].
    + simpl. rewrite decide_True by reflexivity. lia.
    + rewrite decide_False by congruence. rewrite (Hr _ _ H0). lia.
  - intros fid f0 H0 _. apply lookup_insert_Some in H0 as [[<- <-]|[Hne H0]].
    + simpl. exact Hnz.
    + apply (Hl _ _ H0). congruence.
  - intros s Hs. apply elem_of_app in Hs as [Hs|Hs].
    + destruct (Ho s Hs) as [Hsome Hcs]. split; [|exact Hcs].
      apply lookup_insert_is_Some'. right. exact Hsome.
    + apply list_elem_of_singleton in Hs as ->. split; [|exact Hcr].
      apply lookup_insert_is_Some'. left. reflexivity.
  - intros fid H0. apply lookup_insert_None in H0 as [H0 Hne]. auto.
Qed.

(** ** Catalog store: statements *)

Lemma catalog_inv_ext p db db' rows :
  files db' = files db -> fnames db' = fnames db ->
  catalog_inv p db rows -> catalog_inv p db' rows.
Proof.
  intros Hf Hn [Ha Hc Hr Hl Ho Hi].
  split; rewrite ?Hf, ?Hn; assumption.
Qed.

Lemma catalog_inv_pending k db rows :
  catalog_inv None db rows -> catalog_inv (Some k) db rows.
Proof.
  intros [Ha Hc Hr Hl Ho Hi]. split; auto.
  intros fid f H0 _. apply (Hl _ _ H0). congruence.
Qed.

Lemma no_sources_zero fid (rows : list source_row.t) :
  (forall s, s ∈ rows -> source_row.fid s ≠ fid) ->
  count_sources fid rows = 0 /\ count_complete fid rows = 0 /\ sum_rating fid rows = 0.
Proof.
  intros H. unfold count_sources, count_complete, sum_rating.
  assert (Hnil : sources_of fid rows = []).
  { unfold sources_of. induction rows as [|r rows IH]; [reflexivity|].
    rewrite filter_cons. rewrite decide_False.
    - apply IH. intros s Hs. apply H. apply elem_of_cons. auto.
    - apply H. apply elem_of_cons. auto. }
  rewrite Hnil. auto.
Qed.

Lemma share_upd_inv name ext size type ml mb mc fid db rows :
  catalog_inv None db rows ->
  catalog_inv None (snd (share_upd name ext size type ml mb mc fid db)) rows /\
  sources (snd (share_upd name ext size type ml mb mc fid db)) = sources db /\
  (fst (share_upd name ext size type ml mb mc fid db) = 0 ->
   files (snd (share_upd name ext size type ml mb mc fid db)) !! fid = None) /\
  (fst (share_upd name ext size type ml mb mc fid db) <> 0 ->
   is_Some (files (snd (share_upd name ext size type ml mb mc fid db)) !! fid)).
Proof.
  intros Hinv. pose proof Hinv as [Ha Hc Hr Hl Ho Hi].
  unfold share_upd. split; [|split; [apply update_files_sources|]].
  - unfold update_files, files_au, files_fts1, files_fts2.
    destruct (files db !! fid) as [old|] eqn:Hold; [|exact Hinv].
    simpl. rewrite (proj2 (Z.eqb_neq _ _)) by (apply (Hl _ _ Hold); congruence).
    set (new := file_row.mk _ _ _ _ _ _ _ _ _ _ _ _).
    assert (Hfiles : forall k f0 (m : gmap Z string),
              files (mkDB (<[fid:=new]> (files db)) m (sources db)) !! k = Some f0 ->
              exists f1, files db !! k = Some f1 /\
                file_row.srcavail f0 = file_row.srcavail f1 /\
                file_row.srccomplete f0 = file_row.srccomplete f1 /\
                file_row.rating f0 = file_row.rating f1).
    { intros k f0 m H0. simpl in H0.
      apply lookup_insert_Some in H0 as [[<- <-]|[Hne H0]]; eauto. }
    destruct (renamed _ _); unfold set_files, set_fnames; simpl; split; simpl.
    all: try (intros k f0 H0; destruct (Hfiles k f0 ∅ H0) as (f1 & H1 & E1 & E2 & E3);
              rewrite ?E1, ?E2, ?E3; eauto; fail).
    all: try (intros k f0 H0 Hp; destruct (Hfiles k f0 ∅ H0) as (f1 & H1 & E1 & E2 & E3);
              rewrite ?E1; eauto; fail).
    all: try (intros s Hs; destruct (Ho s Hs) as [Hsome Hcs]; split; [|exact Hcs];
              apply lookup_insert_is_Some'; right; exact Hsome).
    + intros k H0. apply lookup_insert_None in H0 as [H0 Hne].
      rewrite lookup_insert_ne by congruence.
      rewrite lookup_delete_ne by congruence. auto.
    + intros k H0. apply lookup_insert_None in H0 as [H0 Hne]. auto.
  - unfold update_files, files_au, files_fts1, files_fts2.
    destruct (files db !! fid) as [old|] eqn:Hold; simpl.
    + split; [lia|]. intros _.
      rewrite (proj2 (Z.eqb_neq _ _)) by (apply (Hl _ _ Hold); congruence).
      destruct (renamed _ _); simpl; rewrite lookup_insert_eq; eauto.
    + split; [auto | lia].
Qed.

Lemma share_ins_inv fid hash name ext size type ml mb mc db rows :
  catalog_inv None db rows ->
  files db !! fid = None ->
  catalog_inv (Some fid) (share_ins fid hash name ext size type ml mb mc db) rows /\
  is_Some (files (share_ins fid hash name ext size type ml mb mc db) !! fid) /\
  sources (share_ins fid hash name ext size type ml mb mc db) = sources db.
Proof.
  intros [Ha Hc Hr Hl Ho Hi] Hnone.
  unfold share_ins, files_fts4, set_files, set_fnames. simpl.
  destruct (no_sources_zero fid rows) as (Z1 & Z2 & Z3).
  { intros s Hs Heq. destruct (Ho s Hs) as [[f Hf] _]. congruence. }
  split; [split; simpl|split; [rewrite lookup_insert_eq; eauto | reflexivity]].
  - intros k f0 H0. apply lookup_insert_Some in H0 as [[<- <-]|[Hne H0]]; simpl; auto.
  - intros k f0 H0. apply lookup_insert_Some in H0 as [[<- <-]|[Hne H0]]; simpl; auto.
  - intros k f0 H0. apply lookup_insert_Some in H0 as [[<- <-]|[Hne H0]]; simpl; auto.
  - intros k f0 H0 Hp. apply lookup_insert_Some in H0 as [[<- <-]|[Hne H0]].
    + congruence.
    + apply (Hl _ _ H0). congruence.
  - intros s Hs. destruct (Ho s Hs) as [Hsome Hcs]. split; [|exact Hcs].
    apply lookup_insert_is_Some'. right. exact Hsome.
  - intros k H0. apply lookup_insert_None in H0 as [H0 Hne].
    rewrite lookup_insert_ne by congruence. auto.
Qed.

Lemma sources_ai_sources r db : sources (sources_ai r db) = sources db.
Proof. apply update_files_sources. Qed.

Lemma sources_bd_sources r db : sources (sources_bd r db) = sources db.
Proof. apply update_files_sources. Qed.

Lemma share_src_inv fid sid complete rating db :
  catalog_inv (Some fid) db (sources db) ->
  is_Some (files db !! fid) ->
  complete = 0 \/ complete = 1 ->
  consistent (share_src fid sid complete rating db).
Proof.
  intros Hinv Hsome Hc. unfold consistent, share_src.
  rewrite sources_ai_sources. simpl.
  apply sources_ai_inv; simpl; [|exact Hsome|exact Hc].
  eapply catalog_inv_ext; [| |exact Hinv]; reflexivity.
Qed.

Lemma remove_src_inv sid rows : forall pre db db' kept,
  catalog_inv None db (pre ++ rows) ->
  remove_src sid rows db = (db', kept) ->
  catalog_inv None db' (pre ++ kept) /\ sources db' = sources db /\
  kept = filter (fun s => source_row.sid s ≠ sid) rows.
Proof.
  induction rows as [|r rows IH]; intros pre db db' kept Hinv Hrun; simpl in Hrun.
  - injection Hrun as <- <-. auto.
  - rewrite filter_cons. destruct (Z.eqb_spec (source_row.sid r) sid) as [Heq|Hne].
    + rewrite decide_False by tauto.
      destruct (IH pre _ _ _ (sources_bd_inv _ _ _ _ Hinv) Hrun) as (H1 & H2 & H3).
      rewrite sources_bd_sources in H2. auto.
    + rewrite decide_True by exact Hne.
      destruct (remove_src sid rows db) as [db1 kept1] eqn:Hrec.
      injection Hrun as <- <-.
      destruct (IH (pre ++ [r]) db db1 kept1) as (H1 & H2 & H3).
      * rewrite <- app_assoc. exact Hinv.
      * exact Hrec.
      * rewrite <- app_assoc in H1. subst kept1. auto.
Qed.

(** ** Catalog store: operations *)

Section CatalogProperties.
Context `{E : Env}.

Lemma share_file_consistent f owner db db' :
  consistent db ->
  share_file f owner db = (Some tt, db') ->
  consistent db'.
Proof.
  intros Hinv. unfold share_file, sql_bind, exec.
  destruct (sqlite_ok SHARE_UPD db); [|discriminate].
  match goal with |- context [share_upd ?n ?e ?s ?t ?l ?b ?c ?k db] =>
    pose proof (share_upd_inv n e s t l b c k db _ Hinv) as (Hu & Hsrc & Hzero & Hnz);
    destruct (share_upd n e s t l b c k db) as [changes db1]
  end.
  simpl in Hu, Hsrc, Hzero, Hnz. rewrite <- Hsrc in Hu.
  assert (Hc01 : forall b : bool, (if b then 1 else 0) = 0 \/ (if b then 1 else 0) = 1)
    by (intros []; auto).
  destruct (Z.eqb_spec changes 0) as [Hch|Hch].
  - destruct (sqlite_ok SHARE_INS db1); [|discriminate].
    match goal with |- context [share_ins ?k ?h ?n ?e ?s ?t ?l ?b ?c db1] =>
      pose proof (share_ins_inv k h n e s t l b c db1 _ Hu (Hzero Hch))
        as (Hi & Hsome & Hsrc2);
      set (db2 := share_ins k h n e s t l b c db1) in *
    end.
    destruct (sqlite_ok SHARE_SRC db2); [|discriminate].
    intros [= <-]. apply share_src_inv; [|exact Hsome|apply Hc01].
    rewrite Hsrc2. exact Hi.
  - unfold sql_ret. destruct (sqlite_ok SHARE_SRC db1); [|discriminate].
    intros [= <-]. apply share_src_inv; [|exact (Hnz Hch)|apply Hc01].
    apply catalog_inv_pending. exact Hu.
Qed.

Lemma share_files_loop_consistent files owner : forall db db',
  consistent db ->
  share_files_loop files owner db = (Some tt, db') ->
  consistent db'.
Proof.
  induction files as [|f rest IH]; intros db db' Hinv Hrun; simpl in Hrun.
  - injection Hrun as <-. exact Hinv.
  - destruct (pub_file.name_len f =? 0); [eauto|].
    unfold sql_bind in Hrun.
    destruct (share_file f owner db) as [[[]|] db1] eqn:Hone; [|discriminate].
    eauto using share_file_consistent.
Qed.

Lemma db_share_files_consistent files owner db db' :
  consistent db ->
  db_share_files files owner db = (1, db') ->
  consistent db'.
Proof.
  intros Hinv. unfold db_share_files.
  destruct (share_files_loop files owner db) as [[[]|] db1] eqn:Hrun; simpl;
    [|discriminate].
  intros [= <-]. eauto using share_files_loop_consistent.
Qed.

(** What a successful [db_remove_source] leaves in [sources]. *)
Lemma db_remove_source_sources clnt db db' :
  consistent db ->
  db_remove_source clnt db = (1, db') ->
  consistent db' /\
  sources db' =
  filter (fun s => source_row.sid s ≠ to_int64 (MAKE_SID clnt)) (sources db).
Proof.
  intros Hinv. unfold db_remove_source, exec.
  destruct (sqlite_ok REMOVE_SRC db); simpl; [|discriminate].
  destruct (remove_src _ (sources db) db) as [db1 kept] eqn:Hrun. simpl.
  intros [= <-].
  destruct (remove_src_inv _ _ [] _ _ _ Hinv Hrun) as (H1 & H2 & H3).
  split; [|exact H3]. unfold consistent. simpl.
  eapply catalog_inv_ext; [| |exact H1]; reflexivity.
Qed.

Lemma db_create_consistent : consistent db_create_state.
Proof.
  split; simpl; try (intros ? ? H; rewrite lookup_empty in H; discriminate).
  - intros s Hs. inversion Hs.
  - intros fid _. apply lookup_empty.
Qed.

Lemma do_call_consistent c db db' :
  consistent db -> do_call c db = (1, db') -> consistent db'.
Proof.
  destruct c as [files owner|clnt]; simpl; intros Hinv Hcall.
  - eauto using db_share_files_consistent.
  - eapply db_remove_source_sources; eauto.
Qed.

Lemma run_calls_consistent cs : forall db db',
  consistent db -> run_calls cs db = Some db' -> consistent db'.
Proof.
  induction cs as [|c cs IH]; intros db db' Hinv Hrun; simpl in Hrun.
  - injection Hrun as <-. exact Hinv.
  - destruct (do_call c db) as [r db1] eqn:Hcall.
    destruct (Z.eqb_spec r 1) as [->|]; [|discriminate].
    eauto using do_call_consistent.
Qed.

(** C1: after any sequence of calls of [db_share_files] and
    [db_remove_source] that all succeed, every file row's [srcavail] is
    the number of source rows of its [fid], [srccomplete] the number of
    those that are complete, and [rating] the sum of their ratings. *)
Theorem aggregates_follow_sources (cs : list call) (db : DB) :
  run_calls cs db_create_state = Some db ->
  forall fid f, files db !! fid = Some f ->
    file_row.srcavail f = count_sources fid (sources db) /\
    file_row.srccomplete f = count_complete fid (sources db) /\
    file_row.rating f = sum_rating fid (sources db).
Proof.
  intros Hrun fid f Hf.
  destruct (run_calls_consistent _ _ _ db_create_consistent Hrun)
    as [Ha Hc Hr _ _ _].
  split; [|split]; [apply Ha | apply Hc | apply Hr]; exact Hf.
Qed.

End CatalogProperties.

Lemma aggregates_follow_sources_witness :
  file_row.srcavail example_row = count_sources example_fid (sources example_db) /\
  file_row.srccomplete example_row = count_complete example_fid (sources example_db) /\
  file_row.rating example_row = sum_rating example_fid (sources example_db).
Proof.
  apply (aggregates_follow_sources (E := example_env) example_calls example_db).
  - vm_compute. reflexivity.
  - vm_compute. reflexivity.
Defined.

(** C2, at the input on which the code departs from it: a file announced
    with rating 5 by one peer and then with rating 0 by another has one
    source row with a non-zero rating, but trigger [sources_ai] has set
    its [rated_count] to 0 (the [ELSE 0] of its [CASE]); removing the
    first peer, whose rating was non-zero, then takes it to -1. *)
Theorem rated_count_reset_by_zero_rating :
  run_calls (E := example_env) example_calls db_create_state = Some example_db /\
  files example_db !! example_fid = Some example_row /\
  count_rated example_fid (sources example_db) = 1 /\
  file_row.rated_count example_row = 0 /\
  (file_row.rated_count <$>
     (files (snd (db_remove_source (E := example_env) peer_a example_db))
        !! example_fid)) = Some (-1).
Proof. vm_compute. repeat split; reflexivity. Qed.

Section SkipProperties.
Context `{E : Env}.

Lemma share_files_loop_skip front f rest owner db :
  pub_file.name_len f = 0 ->
  share_files_loop (front ++ f :: rest) owner db =
  share_files_loop (front ++ rest) owner db.
Proof.
  intros Hf. revert db. induction front as [|g front IH]; intros db; simpl.
  - rewrite Hf. reflexivity.
  - destruct (pub_file.name_len g =? 0); [apply IH|].
    unfold sql_bind. destruct (share_file g owner db) as [[[]|] db1]; [apply IH|].
    reflexivity.
Qed.

Lemma share_files_loop_all_empty files owner db :
  Forall (fun f => pub_file.name_len f = 0) files ->
  share_files_loop files owner db = (Some tt, db).
Proof.
  induction 1 as [|f files Hf _ IH]; simpl; [reflexivity|].
  rewrite Hf. exact IH.
Qed.

(** C8: an announcement with an empty name is passed over: the batch
    does to the database, and returns, what the batch without that entry
    does and returns, so the entry adds no file row and no source row,
    changes no counter, and the entries after it are still processed; a
    batch of nothing but such entries returns 1 and leaves the database
    as it was. *)
Theorem empty_name_skipped (front rest : list pub_file.t) (f : pub_file.t)
    (owner : client) (db : DB) :
  pub_file.name_len f = 0 ->
  db_share_files (front ++ f :: rest) owner db =
  db_share_files (front ++ rest) owner db /\
  (Forall (fun g => pub_file.name_len g = 0) (front ++ rest) ->
   db_share_files (front ++ f :: rest) owner db = (1, db)).
Proof.
  intros Hf. unfold db_share_files.
  rewrite share_files_loop_skip by exact Hf. split; [reflexivity|].
  intros Hall. rewrite share_files_loop_all_empty by exact Hall. reflexivity.
Qed.

End SkipProperties.

Lemma empty_name_skipped_witness :
  db_share_files (E := example_env) ([song 5 true] ++ nameless :: [song 0 false])
    peer_a db_create_state =
  db_share_files (E := example_env) ([song 5 true] ++ [song 0 false])
    peer_a db_create_state /\
  db_share_files (E := example_env) ([] ++ nameless :: [nameless])
    peer_a example_db = (1, example_db).
Proof.
  split.
  - apply (empty_name_skipped (E := example_env)). reflexivity.
  - apply (empty_name_skipped (E := example_env) [] [nameless] nameless).
    + reflexivity.
    + repeat constructor.
Defined.

(** ** Fetch loops *)

(** The loop when no step fails. *)
Lemma fetch_spec {R O} (emit : R -> O) (rows : list R) : forall i count out,
  fetch emit rows None i count out =
  (i + Z.of_nat (Nat.min (length rows) (Z.to_nat (count - i))),
   out ++ map emit (firstn (Nat.min (length rows) (Z.to_nat (count - i))) rows),
   if (length rows <=? Z.to_nat (count - i))%nat then SQLITE_DONE else SQLITE_ROW).
Proof.
  induction rows as [|r rows IH]; intros i count out; simpl.
  - rewrite Z.add_0_r, app_nil_r. reflexivity.
  - destruct (Z.ltb_spec i count) as [Hlt|Hge].
    + rewrite IH. set (n' := Z.to_nat (count - (i + 1))).
      replace (Z.to_nat (count - i)) with (S n') by lia.
      rewrite Nat2Z.inj_succ, <- app_assoc. simpl.
      f_equal. f_equal. lia.
    + replace (Z.to_nat (count - i)) with 0%nat by lia. simpl.
      rewrite Z.add_0_r, app_nil_r. reflexivity.
Qed.

(** The loop when the step after [k] rows fails: the failure is met if
    the loop gets that far, and then [k] rows have been written. *)
Lemma fetch_fault {R O} (emit : R -> O) (rows : list R) : forall k i count out,
  fetch emit rows (Some k) i count out =
  if (k <=? Nat.min (length rows) (Z.to_nat (count - i)))%nat
  then (i + Z.of_nat k, out ++ map emit (firstn k rows), SQLITE_ERROR)
  else fetch emit rows None i count out.
Proof.
  induction rows as [|r rows IH]; intros k i count out.
  - destruct k as [|k]; simpl; [|reflexivity].
    rewrite Z.add_0_r, app_nil_r. reflexivity.
  - destruct k as [|k].
    + simpl. rewrite Z.add_0_r, app_nil_r. reflexivity.
    + cbn [fetch fmap option_fmap option_map Nat.pred].
      destruct (Z.ltb_spec i count) as [Hlt|Hge].
      * rewrite IH. set (n' := Z.to_nat (count - (i + 1))).
        replace (Z.to_nat (count - i)) with (S n') by lia.
        cbn [length]. rewrite <- Nat.succ_min_distr.
        change (S k <=? S (Nat.min (length rows) n'))%nat
          with (k <=? Nat.min (length rows) n')%nat.
        destruct (k <=? Nat.min (length rows) n')%nat; [|reflexivity].
        rewrite Nat2Z.inj_succ, <- app_assoc. simpl. f_equal. f_equal. lia.
      * replace (Z.to_nat (count - i)) with 0%nat by lia.
        rewrite Nat.min_0_r. reflexivity.
Qed.

(** Whichever step fails, if any: what the loop has written is a prefix
    of the rows, no longer than [count - i]. *)
Lemma fetch_prefix {R O} (emit : R -> O) (rows : list R) (fault : option nat)
    (i count : Z) (out : list O) :
  exists (j : nat) (err : step_code),
    fetch emit rows fault i count out =
      (i + Z.of_nat j, out ++ map emit (firstn j rows), err) /\
    (j <= Nat.min (length rows) (Z.to_nat (count - i)))%nat.
Proof.
  destruct fault as [k|].
  - rewrite fetch_fault.
    destruct (Nat.leb_spec k (Nat.min (length rows) (Z.to_nat (count - i)))).
    + eexists _, _. split; [reflexivity | assumption].
    + rewrite fetch_spec. eexists _, _. split; [reflexivity | lia].
  - rewrite fetch_spec. eexists _, _. split; [reflexivity | lia].
Qed.

Lemma elem_of_firstn {A} (n : nat) (l : list A) x : x ∈ firstn n l -> x ∈ l.
Proof.
  revert l. induction n as [|n IH]; intros [|y l] Hx; simpl in Hx;
    try (inversion Hx; fail).
  apply elem_of_cons in Hx as [->|Hx]; apply elem_of_cons; auto.
Qed.

Lemma elem_of_sql_limit {A} (n : Z) (l : list A) x : x ∈ sql_limit n l -> x ∈ l.
Proof.
  unfold sql_limit. destruct (n <? 0); [auto|]. apply elem_of_firstn.
Qed.

(** The documents delivered are the entries of the index. *)
Lemma elem_of_docs db k nm : (k, nm) ∈ docs db <-> fnames db !! k = Some nm.
Proof.
  unfold docs. rewrite merge_sort_Permutation. apply elem_of_map_to_list.
Qed.

Section SearchRows.
Context `{E : Env}.

(** A row of the join is a stored file row under an indexed [docid]. *)
Lemma matching_stored db term fs k f :
  (k, f) ∈ matching db term fs ->
  files db !! k = Some f /\ is_Some (fnames db !! k).
Proof.
  unfold matching. intros Hin. apply list_elem_of_In, in_flat_map in Hin.
  destruct Hin as ([docid nm] & Hdoc & Hrow).
  apply list_elem_of_In, elem_of_docs in Hdoc.
  destruct (fts_match term nm); [|inversion Hrow].
  destruct (files db !! docid) as [g|] eqn:Hg; [|inversion Hrow].
  destruct (forallb _ fs); [|inversion Hrow].
  destruct Hrow as [[= <- <-]|[]]. eauto.
Qed.

(** Whatever [db_search_files] returns, what it has appended to the
    output are rows of the join. *)
Lemma db_search_files_buf fuel h snode out n db o :
  db_search_files fuel h snode out n db = Some o ->
  exists rows, buf o = out ++ map (to_search_file db) rows /\
    forall row, row ∈ rows -> files db !! fst row = Some (snd row).
Proof.
  unfold db_search_files.
  assert (Hnil : exists rows, out = out ++ map (to_search_file db) rows /\
            forall row, row ∈ rows -> files db !! fst row = Some (snd row)).
  { exists []. split; [simpl; rewrite app_nil_r; reflexivity|].
    intros row Hrow. inversion Hrow. }
  destruct (walk fuel h snode params.zero) as [h' p|h'| |]; try discriminate.
  2: { intros [= <-]. exact Hnil. }
  destruct (filters h' p) as [fs|]; [|discriminate].
  destruct (sqlite_prepare_ok _ db); simpl; [|intros [= <-]; exact Hnil].
  set (rows := sql_limit _ _).
  destruct (fetch_prefix (to_search_file db) rows
              (search_fault (bound_term p) fs db) 0 n out) as (k & err & -> & _).
  assert (Hrows : forall row, row ∈ firstn k rows ->
            files db !! fst row = Some (snd row)).
  { intros [fid f] Hrow. apply elem_of_firstn, elem_of_sql_limit in Hrow.
    apply matching_stored in Hrow. apply Hrow. }
  destruct (_ || _); intros [= <-]; simpl; eauto.
Qed.

End SearchRows.

(** ** Orphan cleanup *)

Lemma count_sources_split fid (P : source_row.t -> Prop) `{!forall s, Decision (P s)}
    (rows : list source_row.t) :
  count_sources fid rows =
  count_sources fid (filter P rows) + count_sources fid (filter (fun s => ¬ P s) rows).
Proof.
  unfold count_sources, sources_of.
  induction rows as [|r rows IH]; [reflexivity|].
  rewrite !(filter_cons _ r rows).
  destruct (decide (P r)) as [Hp|Hp].
  - rewrite (decide_False (P := ¬ P r)) by tauto.
    rewrite !(filter_cons _ r). destruct (decide (source_row.fid r = fid)); simpl in *; lia.
  - rewrite (decide_True (P := ¬ P r)) by tauto.
    rewrite !(filter_cons _ r). destruct (decide (source_row.fid r = fid)); simpl in *; lia.
Qed.

Section OrphanCleanup.
Context `{E : Env}.

(** C3: when a successful [db_remove_source] takes the [srcavail] of a
    file row to zero, the row is gone afterwards and so is its entry in
    the full-text index; what [db_search_files] then appends to its
    output are rows of other files, and [db_get_sources] delivers no
    entry for the file.  Neither before nor after the call, that is
    after no sequence of successful calls, is a row with [srcavail] 0
    stored. *)
Theorem orphan_cleanup (cs : list call) (db db' : DB) (clnt : client)
    (fid : Z) (f : file_row.t) :
  run_calls cs db_create_state = Some db ->
  files db !! fid = Some f ->
  db_remove_source clnt db = (1, db') ->
  file_row.srcavail f -
    count_sources fid
      (filter (fun s => source_row.sid s = to_int64 (MAKE_SID clnt)) (sources db)) = 0 ->
  (forall k g, files db !! k = Some g \/ files db' !! k = Some g ->
     file_row.srcavail g <> 0) /\
  files db' !! fid = None /\
  fnames db' !! fid = None /\
  (forall fuel h snode out n o,
     db_search_files fuel h snode out n db' = Some o ->
     exists rows, buf o = out ++ map (to_search_file db') rows /\
       forall row, row ∈ rows ->
         fst row <> fid /\ files db' !! fst row = Some (snd row)) /\
  (forall hash n,
     to_int64 (MAKE_FID hash) = fid -> snd (fst (db_get_sources hash n db')) = []).
Proof.
  intros Hrun Hf Hrem Hzero.
  pose proof (run_calls_consistent _ _ _ db_create_consistent Hrun) as Hinv.
  destruct (db_remove_source_sources _ _ _ Hinv Hrem) as [Hinv' Hsrc].
  pose proof Hinv as [Ha _ _ Hl _ _]. pose proof Hinv' as [Ha' _ _ Hl' _ Hi'].
  assert (Hcnt : count_sources fid (sources db') = 0).
  { rewrite Hsrc. pose proof (Ha _ _ Hf) as Hav.
    rewrite (count_sources_split fid
               (fun s => source_row.sid s = to_int64 (MAKE_SID clnt))) in Hav.
    lia. }
  assert (Hgone : files db' !! fid = None).
  { destruct (files db' !! fid) as [g|] eqn:Hg; [|reflexivity].
    exfalso. apply (Hl' _ _ Hg); [congruence|]. rewrite (Ha' _ _ Hg). exact Hcnt. }
  split; [|split; [|split; [|split]]].
  - intros k g [Hg|Hg]; [apply (Hl _ _ Hg) | apply (Hl' _ _ Hg)]; congruence.
  - exact Hgone.
  - apply Hi'. exact Hgone.
  - intros fuel h snode out n o Hs.
    destruct (db_search_files_buf _ _ _ _ _ _ _ Hs) as (rows & Hbuf & Hrows).
    exists rows. split; [exact Hbuf|]. intros row Hrow.
    split; [|auto]. intros Heq. specialize (Hrows row Hrow). congruence.
  - intros hash n Hfid. unfold db_get_sources.
    destruct (sqlite_ok GET_SRC db'); [|reflexivity]. simpl. rewrite Hfid.
    assert (Hnil : filter (fun s => source_row.fid s = fid) (sources db') = []).
    { unfold count_sources, sources_of in Hcnt.
      destruct (filter _ (sources db')); [reflexivity | simpl in Hcnt; lia]. }
    rewrite Hnil. simpl.
    assert (Hl0 : sql_limit (to_int32 n) (@nil Z) = []).
    { unfold sql_limit. destruct (_ <? 0); [reflexivity | apply firstn_nil]. }
    rewrite Hl0.
    match goal with
    | |- context [fetch ?e ?r ?f ?i ?c ?o] =>
        destruct (fetch_prefix e r f i c o) as (j & err & -> & Hj)
    end.
    rewrite firstn_nil. destruct (_ || _); reflexivity.
Qed.

End OrphanCleanup.

Lemma orphan_cleanup_witness :
  files (snd (db_remove_source (E := example_env) peer_a single_db)) !! example_fid = None /\
  fnames (snd (db_remove_source (E := example_env) peer_a single_db)) !! example_fid = None.
Proof.
  pose proof (orphan_cleanup (E := example_env) single_call single_db
                (snd (db_remove_source (E := example_env) peer_a single_db))
                peer_a example_fid single_row) as H.
  destruct H as (_ & H1 & H2 & _).
  - vm_compute. reflexivity.
  - vm_compute. reflexivity.
  - vm_compute. reflexivity.
  - vm_compute. reflexivity.
  - split; [exact H1 | exact H2].
Defined.

(** ** Search compiler: one iteration of the walk *)

Lemma walk_null fuel h p : walk fuel h None p = WDone h p.
Proof. destruct fuel; reflexivity. Qed.

Lemma walk_leaf fuel h a n p :
  h !! a = Some n -> is_oper (search_node.type n) = false ->
  walk (S fuel) h (Some a) p =
  match visit_leaf a n p with
  | None => WFailed h
  | Some p' => walk fuel h (search_node.parent n) p'
  end.
Proof. intros Hn Hop. simpl. rewrite Hn, Hop. reflexivity. Qed.

Lemma walk_first fuel h a n p :
  h !! a = Some n -> is_oper (search_node.type n) = true ->
  search_node.left_visited n = false ->
  walk (S fuel) h (Some a) p =
  match (if search_node.string_term n then render 1 "(" p else Some p) with
  | None => WFailed h
  | Some p' =>
      walk fuel (<[a := search_node.set_left_visited n]> h) (search_node.left n) p'
  end.
Proof. intros Hn Hop Hl. simpl. rewrite Hn, Hop, Hl. reflexivity. Qed.

Lemma walk_second fuel h a n p :
  h !! a = Some n -> is_oper (search_node.type n) = true ->
  search_node.left_visited n = true -> search_node.right_visited n = false ->
  walk (S fuel) h (Some a) p =
  match
    (if search_node.string_term n then
       match oper_text (search_node.type n) with
       | Some (len, oper) => render len oper p
       | None => None
       end
     else Some p)
  with
  | None => WFailed h
  | Some p' =>
      walk fuel (<[a := search_node.set_right_visited n]> h) (search_node.right n) p'
  end.
Proof. intros Hn Hop Hl Hr. simpl. rewrite Hn, Hop, Hl, Hr. reflexivity. Qed.

Lemma walk_third fuel h a n p :
  h !! a = Some n -> is_oper (search_node.type n) = true ->
  search_node.left_visited n = true -> search_node.right_visited n = true ->
  walk (S fuel) h (Some a) p =
  match (if search_node.string_term n then render 1 ")" p else Some p) with
  | None => WFailed h
  | Some p' => walk fuel h (search_node.parent n) p'
  end.
Proof. intros Hn Hop Hl Hr. simpl. rewrite Hn, Hop, Hl, Hr. reflexivity. Qed.

(** ** Search compiler: trees in the store *)

Lemma repr_frame fl t : forall h h' par,
  (forall x, x ∈ addrs t -> h' !! x = h !! x) ->
  repr fl h par t -> repr fl h' par t.
Proof.
  induction t as [a n|a n l IHl r IHr]; intros h h' par Hsame; simpl.
  - intros (Hn & Hrest). split; [|exact Hrest].
    rewrite Hsame; [exact Hn|]. simpl. apply elem_of_cons. auto.
  - intros (Hn & Hop & Hp & Hl & Hr & Hreprl & Hreprr).
    simpl in Hsame.
    repeat split; try assumption.
    + rewrite Hsame; [exact Hn|]. apply elem_of_cons. auto.
    + apply (IHl h); [|exact Hreprl]. intros x Hx. apply Hsame.
      apply elem_of_cons. right. apply elem_of_app. auto.
    + apply (IHr h); [|exact Hreprr]. intros x Hx. apply Hsame.
      apply elem_of_cons. right. apply elem_of_app. auto.
Qed.

Lemma mark_outside t : forall h x, x ∉ addrs t -> mark t h !! x = h !! x.
Proof.
  induction t as [a n|a n l IHl r IHr]; intros h x Hx; simpl; [reflexivity|].
  simpl in Hx. rewrite not_elem_of_cons, not_elem_of_app in Hx.
  destruct Hx as (Hne & Hxl & Hxr).
  rewrite IHr by exact Hxr. rewrite lookup_insert_ne by congruence.
  rewrite IHl by exact Hxl. rewrite lookup_insert_ne by congruence. reflexivity.
Qed.

Lemma addrs_NoDup_oper a l r :
  NoDup (a :: addrs l ++ addrs r) ->
  (a ∉ addrs l) /\ (a ∉ addrs r) /\ NoDup (addrs l) /\ NoDup (addrs r) /\
  (forall x, x ∈ addrs l -> x ∉ addrs r).
Proof.
  rewrite NoDup_cons, NoDup_app, not_elem_of_app. tauto.
Qed.

(** The walk of a subtree: from its root, [iterations t] iterations lead
    to its parent, with the parameters [compile] computes and the flags
    of its operator nodes set, or else to the [failed:] exit. *)
Lemma walk_subtree t : forall h par p k,
  repr false h par t -> NoDup (addrs t) ->
  match compile t p with
  | Some p' => walk (iterations t + k) h (Some (root t)) p = walk k (mark t h) par p'
  | None => exists h', walk (iterations t + k) h (Some (root t)) p = WFailed h'
  end.
Proof.
  induction t as [a n|a n l IHl r IHr]; intros h par p k Hrepr Hnd.
  - destruct Hrepr as (Hn & Hop & Hpar & _).
    simpl iterations. simpl root. simpl mark. simpl compile.
    change (1 + k)%nat with (S k).
    rewrite (walk_leaf _ _ _ _ _ Hn Hop), Hpar.
    destruct (visit_leaf a n p); eauto.
  - destruct Hrepr as (Hn & Hop & Hpar & Hleft & Hright & Hl & Hr).
    apply addrs_NoDup_oper in Hnd as (Hal & Har & Hndl & Hndr & Hdisj).
    assert (Hfuel : (iterations (Oper a n l r) + k =
                     S (iterations l + S (iterations r + S k)))%nat)
      by (simpl; lia).
    rewrite Hfuel. clear Hfuel. simpl root. simpl mark.
    set (n0 := with_flags false false n) in *.
    rewrite (walk_first _ _ _ n0 _ Hn Hop eq_refl).
    change (search_node.string_term n0) with (search_node.string_term n).
    change (search_node.left n0) with (search_node.left n).
    change (search_node.set_left_visited n0) with (with_flags true false n).
    simpl compile.
    destruct (if search_node.string_term n then render 1 "(" p else Some p)
      as [p1|]; simpl; [|eauto].
    set (h1 := <[a := with_flags true false n]> h).
    assert (Hl1 : repr false h1 (Some a) l).
    { apply (repr_frame _ _ h); [|exact Hl]. intros x Hx. unfold h1.
      apply lookup_insert_ne. congruence. }
    specialize (IHl h1 (Some a) p1 (S (iterations r + S k)) Hl1 Hndl).
    rewrite Hleft. destruct (compile l p1) as [p2|]; simpl; [|exact IHl].
    rewrite IHl.
    assert (Ha1 : mark l h1 !! a = Some (with_flags true false n)).
    { rewrite mark_outside by exact Hal. apply lookup_insert_eq. }
    rewrite (walk_second _ _ _ _ _ Ha1 Hop eq_refl eq_refl).
    change (search_node.string_term (with_flags true false n))
      with (search_node.string_term n).
    change (search_node.type (with_flags true false n)) with (search_node.type n).
    change (search_node.right (with_flags true false n)) with (search_node.right n).
    change (search_node.set_right_visited (with_flags true false n))
      with (with_flags true true n).
    destruct (if search_node.string_term n then
                match oper_text (search_node.type n) with
                | Some (len, oper) => render len oper p2
                | None => None
                end
              else Some p2) as [p3|]; simpl; [|eauto].
    set (h2 := <[a := with_flags true true n]> (mark l h1)).
    assert (Hr2 : repr false h2 (Some a) r).
    { apply (repr_frame _ _ h); [|exact Hr]. intros x Hx. unfold h2, h1.
      rewrite lookup_insert_ne by congruence.
      rewrite mark_outside by (intros Hxl; exact (Hdisj _ Hxl Hx)).
      apply lookup_insert_ne. congruence. }
    specialize (IHr h2 (Some a) p3 (S k) Hr2 Hndr).
    rewrite Hright. destruct (compile r p3) as [p4|]; simpl; [|exact IHr].
    rewrite IHr.
    assert (Ha2 : mark r h2 !! a = Some (with_flags true true n)).
    { rewrite mark_outside by exact Har. apply lookup_insert_eq. }
    rewrite (walk_third _ _ _ _ _ Ha2 Hop eq_refl eq_refl).
    change (search_node.string_term (with_flags true true n))
      with (search_node.string_term n).
    change (search_node.parent (with_flags true true n)) with (search_node.parent n).
    rewrite Hpar.
    destruct (if search_node.string_term n then render 1 ")" p4 else Some p4);
      eauto.
Qed.

(** After the walk the tree is in the store with every flag set. *)
Lemma repr_mark t : forall h par,
  repr false h par t -> NoDup (addrs t) -> repr true (mark t h) par t.
Proof.
  induction t as [a n|a n l IHl r IHr]; intros h par Hrepr Hnd; [exact Hrepr|].
  destruct Hrepr as (Hn & Hop & Hpar & Hleft & Hright & Hl & Hr).
  apply addrs_NoDup_oper in Hnd as (Hal & Har & Hndl & Hndr & Hdisj).
  simpl. set (h1 := <[a := with_flags true false n]> h).
  set (h2 := <[a := with_flags true true n]> (mark l h1)).
  repeat split; try assumption.
  - rewrite mark_outside by exact Har. apply lookup_insert_eq.
  - apply (repr_frame _ _ (mark l h1)).
    + intros x Hx. rewrite mark_outside by (intros Hxr; exact (Hdisj _ Hx Hxr)).
      unfold h2. apply lookup_insert_ne. congruence.
    + apply IHl; [|exact Hndl]. apply (repr_frame _ _ h); [|exact Hl].
      intros x Hx. unfold h1. apply lookup_insert_ne. congruence.
  - apply IHr; [|exact Hndr]. apply (repr_frame _ _ h); [|exact Hr].
    intros x Hx. unfold h2, h1. rewrite lookup_insert_ne by congruence.
    rewrite mark_outside by (intros Hxl; exact (Hdisj _ Hxl Hx)).
    apply lookup_insert_ne. congruence.
Qed.

(** ** Search compiler: the text rendered *)

Lemma str_app_nil_r (s : string) : (s ++ "")%string = s.
Proof.
  induction s as [|c s IH]; [reflexivity|].
  change (String c (s ++ "")%string = String c s). rewrite IH. reflexivity.
Qed.

Lemma str_app_assoc (s1 s2 s3 : string) :
  ((s1 ++ s2) ++ s3)%string = (s1 ++ s2 ++ s3)%string.
Proof.
  induction s1 as [|c s1 IH]; [reflexivity|].
  change (String c ((s1 ++ s2) ++ s3)%string = String c (s1 ++ s2 ++ s3)%string).
  rewrite IH. reflexivity.
Qed.

Lemma render_Some n s p p' :
  render n s p = Some p' ->
  params.name_len p + n <= MAX_NAME_TERM_LEN /\ p' = params.append n s p.
Proof.
  unfold render, sizeof_name_term, MAX_NAME_TERM_LEN.
  destruct (Z.ltb_spec (params.name_len p + n) (1024 + 1)); [|discriminate].
  intros [= <-]. split; [lia | reflexivity].
Qed.

Lemma render_fits n s p :
  params.name_len p + n <= MAX_NAME_TERM_LEN ->
  render n s p = Some (params.append n s p).
Proof.
  unfold render, sizeof_name_term, MAX_NAME_TERM_LEN. intros H.
  destruct (Z.ltb_spec (params.name_len p + n) (1024 + 1)); [reflexivity | lia].
Qed.

(** What a leaf adds to the text and to the length counted. *)
Lemma visit_leaf_text a n p p' :
  visit_leaf a n p = Some p' ->
  params.name_term p' = (params.name_term p ++ infix (Leaf a n))%string /\
  params.name_len p' = params.name_len p + text_len (Leaf a n) /\
  (params.name_len p <= MAX_NAME_TERM_LEN -> params.name_len p' <= MAX_NAME_TERM_LEN).
Proof.
  unfold visit_leaf. simpl.
  destruct (search_node.type n); try discriminate;
    try (intros [= <-]; simpl; rewrite str_app_nil_r; repeat split; lia).
  intros Hr. apply render_Some in Hr as [Hle ->]. simpl. repeat split; lia.
Qed.

Lemma oper_text_keyword ty len oper :
  oper_text ty = Some (len, oper) ->
  oper = keyword ty /\ len = Z.of_nat (String.length (keyword ty)).
Proof. destruct ty; try discriminate; intros [= <- <-]; split; reflexivity. Qed.

(** The length counted for a tree is the one [text_len] gives, and it
    has passed the check. *)
Lemma compile_len t : forall p p',
  compile t p = Some p' ->
  params.name_len p' = params.name_len p + text_len t /\
  (params.name_len p <= MAX_NAME_TERM_LEN -> params.name_len p' <= MAX_NAME_TERM_LEN).
Proof.
  induction t as [a n|a n l IHl r IHr]; intros p p' Hc.
  - apply visit_leaf_text in Hc. tauto.
  - simpl in Hc. simpl text_len.
    destruct (search_node.string_term n).
    + destruct (render 1 "(" p) as [p1|] eqn:H1; [|discriminate]. simpl in Hc.
      apply render_Some in H1 as [L1 ->].
      destruct (compile l _) as [p2|] eqn:H2; [|discriminate]. simpl in Hc.
      apply IHl in H2 as [E2 B2]. simpl in E2, B2.
      destruct (oper_text (search_node.type n)) as [[len oper]|] eqn:Hop;
        [|discriminate].
      apply oper_text_keyword in Hop as [-> ->].
      destruct (render _ _ p2) as [p3|] eqn:H3; [|discriminate]. simpl in Hc.
      apply render_Some in H3 as [L3 ->].
      destruct (compile r _) as [p4|] eqn:H4; [|discriminate]. simpl in Hc.
      apply IHr in H4 as [E4 B4]. simpl in E4, B4.
      apply render_Some in Hc as [L5 ->]. simpl. split; lia.
    + simpl in Hc.
      destruct (compile l p) as [p2|] eqn:H2; [|discriminate]. simpl in Hc.
      apply IHl in H2 as [E2 B2].
      destruct (compile r p2) as [p4|] eqn:H4; [|discriminate]. simpl in Hc.
      apply IHr in H4 as [E4 B4]. injection Hc as <-. split; lia.
Qed.

(** A rendering longer than the buffer allows does not compile. *)
Lemma compile_too_long t p :
  params.name_len p <= MAX_NAME_TERM_LEN ->
  params.name_len p + text_len t > MAX_NAME_TERM_LEN ->
  compile t p = None.
Proof.
  intros Hp Hlong. destruct (compile t p) as [p'|] eqn:Hc; [|reflexivity].
  apply compile_len in Hc as [E B]. specialize (B Hp). lia.
Qed.

Lemma text_len_nonneg fl h t : forall par, repr fl h par t -> 0 <= text_len t.
Proof.
  induction t as [a n|a n l IHl r IHr]; intros par Hrepr; simpl.
  - destruct Hrepr as (_ & _ & _ & Hlen). destruct (search_node.type n); lia.
  - destruct Hrepr as (_ & _ & _ & _ & _ & Hl & Hr).
    apply IHl in Hl. apply IHr in Hr.
    destruct (search_node.string_term n); lia.
Qed.

(** A tree of known leaves whose rendering fits the buffer compiles. *)
Lemma compile_fits fl h t : forall par p,
  repr fl h par t -> known_leaves t = true ->
  params.name_len p + text_len t <= MAX_NAME_TERM_LEN ->
  exists p', compile t p = Some p'.
Proof.
  induction t as [a n|a n l IHl r IHr]; intros par p Hrepr Hk Hfit.
  - simpl text_len in Hfit. simpl known_leaves in Hk. simpl compile.
    destruct Hrepr as (_ & Hop & _ & _). unfold visit_leaf.
    destruct (search_node.type n); simpl in Hop; try discriminate; eauto.
    rewrite render_fits by exact Hfit. eauto.
  - destruct Hrepr as (_ & Hop & _ & _ & _ & Hl & Hr).
    simpl in Hk. apply andb_prop in Hk as [Hkl Hkr].
    pose proof (text_len_nonneg _ _ _ _ Hl) as Nl.
    pose proof (text_len_nonneg _ _ _ _ Hr) as Nr.
    simpl in Hfit. simpl compile.
    destruct (search_node.string_term n).
    + rewrite render_fits by lia. simpl.
      destruct (IHl (Some a) (params.append 1 "(" p) Hl Hkl) as [p2 H2];
        [simpl; lia|].
      rewrite H2. simpl. apply compile_len in H2 as [E2 _]. simpl in E2.
      destruct (oper_text (search_node.type n)) as [[len oper]|] eqn:Hot;
        [|destruct (search_node.type n); discriminate].
      apply oper_text_keyword in Hot as [-> ->].
      rewrite render_fits by lia. simpl.
      destruct (IHr (Some a) (params.append (Z.of_nat (String.length (keyword (search_node.type n))))
                                (keyword (search_node.type n)) p2) Hr Hkr) as [p4 H4];
        [simpl; lia|].
      rewrite H4. simpl. apply compile_len in H4 as [E4 _]. simpl in E4.
      rewrite render_fits by lia. eauto.
    + simpl. destruct (IHl (Some a) p Hl Hkl) as [p2 H2]; [lia|].
      rewrite H2. simpl. apply compile_len in H2 as [E2 _].
      destruct (IHr (Some a) p2 Hr Hkr) as [p4 H4]; [lia|].
      rewrite H4. simpl. eauto.
Qed.

(** When every operator node has [string_term] set, the text compiled is
    the infix rendering. *)
Lemma compile_infix t : forall p p',
  all_string_term t = true ->
  compile t p = Some p' ->
  params.name_term p' = (params.name_term p ++ infix t)%string.
Proof.
  induction t as [a n|a n l IHl r IHr]; intros p p' Hst Hc.
  - apply visit_leaf_text in Hc. tauto.
  - simpl in Hst. apply andb_prop in Hst as [Hst Hstr].
    apply andb_prop in Hst as [Hst Hstl].
    simpl in Hc. rewrite Hst in Hc. simpl infix.
    destruct (render 1 "(" p) as [p1|] eqn:H1; [|discriminate]. simpl in Hc.
    apply render_Some in H1 as [_ ->].
    destruct (compile l _) as [p2|] eqn:H2; [|discriminate]. simpl in Hc.
    apply (IHl _ _ Hstl) in H2. simpl in H2.
    destruct (oper_text (search_node.type n)) as [[len oper]|] eqn:Hop;
      [|discriminate].
    apply oper_text_keyword in Hop as [-> ->].
    destruct (render _ _ p2) as [p3|] eqn:H3; [|discriminate]. simpl in Hc.
    apply render_Some in H3 as [_ ->].
    destruct (compile r _) as [p4|] eqn:H4; [|discriminate]. simpl in Hc.
    apply (IHr _ _ Hstr) in H4. simpl in H4.
    apply render_Some in Hc as [_ ->]. simpl.
    rewrite H4, H2. rewrite !str_app_assoc. reflexivity.
Qed.

(** ** Search compiler: the text compiled *)

(** C6: for a tree whose operator nodes all have [string_term] set,
    whose leaves the walk knows and whose rendering fits the buffer, the
    loop of [db_search_files] ends, within [iterations t] iterations,
    with the fully parenthesized infix rendering of the tree as search
    text. *)
Theorem compiled_text_is_infix (h : heap) (t : stree) :
  repr false h None t -> NoDup (addrs t) ->
  all_string_term t = true -> known_leaves t = true ->
  text_len t <= MAX_NAME_TERM_LEN ->
  exists p,
    (forall fuel, (iterations t <= fuel)%nat ->
       walk fuel h (Some (root t)) params.zero = WDone (mark t h) p) /\
    params.name_term p = infix t /\
    params.name_len p = text_len t.
Proof.
  intros Hrepr Hnd Hst Hk Hfit.
  destruct (compile_fits _ _ _ None params.zero Hrepr Hk) as [p Hc]; [exact Hfit|].
  exists p. split; [|split].
  - intros fuel Hfuel.
    pose proof (walk_subtree t h None params.zero (fuel - iterations t) Hrepr Hnd)
      as Hw.
    rewrite Hc in Hw. replace (iterations t + (fuel - iterations t))%nat with fuel
      in Hw by lia.
    rewrite Hw. apply walk_null.
  - apply (compile_infix _ _ _ Hst) in Hc. exact Hc.
  - apply compile_len in Hc as [Hlen _]. exact Hlen.
Qed.

Lemma compiled_text_is_infix_witness :
  infix example_tree = "((A AND B) OR C)"%string /\
  exists p,
    (forall fuel, (iterations example_tree <= fuel)%nat ->
       walk fuel example_heap (Some (root example_tree)) params.zero =
       WDone (mark example_tree example_heap) p) /\
    params.name_term p = infix example_tree /\
    params.name_len p = text_len example_tree.
Proof.
  split; [reflexivity|].
  apply (compiled_text_is_infix example_heap example_tree).
  - simpl. repeat split; try reflexivity; lia.
  - compute_done.
  - reflexivity.
  - reflexivity.
  - vm_compute. discriminate.
Defined.

(** ** Search compiler: the bound on the text *)

Section Bound.
Context `{E : Env}.

(** C4, as the code has it: when the rendering of the tree is longer
    than [MAX_NAME_TERM_LEN], [db_search_files] returns 0, the output
    buffer and [*count] are as they were, and no statement is run. *)
Theorem long_text_fails (h : heap) (t : stree) (fuel : nat)
    (out : list search_file.t) (n : Z) (db : DB) :
  repr false h None t -> NoDup (addrs t) ->
  text_len t > MAX_NAME_TERM_LEN ->
  (iterations t <= fuel)%nat ->
  exists h', db_search_files fuel h (Some (root t)) out n db =
             Some (mkOutcome 0 h' out n).
Proof.
  intros Hrepr Hnd Hlong Hfuel.
  pose proof (walk_subtree t h None params.zero (fuel - iterations t) Hrepr Hnd)
    as Hw.
  rewrite compile_too_long in Hw by (simpl; unfold MAX_NAME_TERM_LEN in *; lia).
  replace (iterations t + (fuel - iterations t))%nat with fuel in Hw by lia.
  destruct Hw as [h' Hw]. exists h'. unfold db_search_files. rewrite Hw. reflexivity.
Qed.

End Bound.

Lemma long_text_fails_witness :
  exists h',
    db_search_files (E := example_env) 1 (leaf_heap (long_term ++ "a"))
      (Some (root (leaf_tree (long_term ++ "a")))) [] 10 example_db =
    Some (mkOutcome 0 h' [] 10).
Proof.
  apply (long_text_fails (E := example_env)).
  - simpl. repeat split; try reflexivity. vm_compute. discriminate.
  - compute_done.
  - vm_compute. reflexivity.
  - simpl. lia.
Defined.

(** C4 for a text that only reaches the capacity: a search text of
    exactly [MAX_NAME_TERM_LEN] characters is within the buffer, and
    the search succeeds, delivers a row, and has rendered all 1024
    characters. *)
Lemma exact_capacity_accepted :
  text_len (leaf_tree long_term) = MAX_NAME_TERM_LEN /\
  (ret <$> db_search_files (E := example_env) 1 (leaf_heap long_term)
             (Some (root (leaf_tree long_term))) [] 10 example_db) = Some 1 /\
  ((fun o => length (buf o)) <$>
     db_search_files (E := example_env) 1 (leaf_heap long_term)
       (Some (root (leaf_tree long_term))) [] 10 example_db) = Some 1%nat /\
  infix (leaf_tree long_term) = long_term.
Proof. vm_compute. repeat split; reflexivity. Qed.

(** ** Search compiler: a tree walked twice *)

(** More fuel does not change how a walk ends. *)
Lemma walk_fuel_mono fuel : forall h snode p fuel',
  walk fuel h snode p <> WFuel -> (fuel <= fuel')%nat ->
  walk fuel' h snode p = walk fuel h snode p.
Proof.
  induction fuel as [|fuel IH]; intros h snode p fuel' Hend Hle.
  - destruct snode as [a|]; [simpl in Hend; congruence|].
    rewrite !walk_null. reflexivity.
  - destruct snode as [a|]; [|rewrite !walk_null; reflexivity].
    destruct fuel' as [|fuel']; [lia|].
    simpl in Hend |- *.
    destruct (h !! a) as [n|]; [|reflexivity].
    repeat match goal with
           | |- context [if ?b then _ else _] => destruct b
           | |- context [match ?x with Some _ => _ | None => _ end] => destruct x
           | |- context [match ?x with (_, _) => _ end] => destruct x
           end;
      try reflexivity; apply IH; solve [assumption | lia].
Qed.

(** A walk that ends at the null pointer has compiled the tree. *)
Lemma walk_done_compile h t fuel h' p :
  repr false h None t -> NoDup (addrs t) ->
  walk fuel h (Some (root t)) params.zero = WDone h' p ->
  compile t params.zero = Some p /\ h' = mark t h.
Proof.
  intros Hrepr Hnd Hw.
  assert (Hmax : walk (iterations t + (fuel - iterations t)) h (Some (root t))
                   params.zero = WDone h' p).
  { rewrite <- Hw. apply walk_fuel_mono; [rewrite Hw; discriminate | lia]. }
  pose proof (walk_subtree t h None params.zero (fuel - iterations t) Hrepr Hnd)
    as Hsub.
  destruct (compile t params.zero) as [p'|].
  - rewrite Hsub, walk_null in Hmax. injection Hmax as <- <-. auto.
  - destruct Hsub as [h'' Hsub]. rewrite Hsub in Hmax. discriminate.
Qed.

(** The operator nodes of a walked tree have both flags set. *)
Lemma repr_opers_flags h t : forall par a,
  repr true h par t -> a ∈ opers t ->
  exists n, h !! a = Some n /\ is_oper (search_node.type n) = true /\
    search_node.left_visited n = true /\ search_node.right_visited n = true.
Proof.
  induction t as [b m|b m l IHl r IHr]; intros par a Hrepr Ha; simpl in Ha.
  - inversion Ha.
  - destruct Hrepr as (Hn & Hop & _ & _ & _ & Hl & Hr).
    apply elem_of_cons in Ha as [->|Ha].
    + exists (with_flags true true m). auto.
    + apply elem_of_app in Ha as [Ha|Ha]; eauto.
Qed.

(** What has been compiled extends the text there was. *)
Lemma compile_extends t : forall p p',
  compile t p = Some p' ->
  exists s, params.name_term p' = (params.name_term p ++ s)%string.
Proof.
  assert (Hrend : forall n s p p', render n s p = Some p' ->
            params.name_term p' = (params.name_term p ++ s)%string).
  { intros n s p p' H. apply render_Some in H as [_ ->]. reflexivity. }
  assert (Hopt : forall (b : bool) n s p p',
            (if b then render n s p else Some p) = Some p' ->
            exists s', params.name_term p' = (params.name_term p ++ s')%string).
  { intros [] n s p p' H.
    - eauto.
    - injection H as <-. exists ""%string. symmetry. apply str_app_nil_r. }
  induction t as [a n|a n l IHl r IHr]; intros p p' Hc.
  - apply visit_leaf_text in Hc as [Hc _]. eauto.
  - simpl in Hc.
    destruct (if search_node.string_term n then render 1 "(" p else Some p)
      as [p1|] eqn:H1; [|discriminate]. simpl in Hc.
    destruct (compile l p1) as [p2|] eqn:H2; [|discriminate]. simpl in Hc.
    destruct (if search_node.string_term n then _ else Some p2)
      as [p3|] eqn:H3; [|discriminate]. simpl in Hc.
    destruct (compile r p3) as [p4|] eqn:H4; [|discriminate]. simpl in Hc.
    apply Hopt in H1 as [s1 E1]. apply IHl in H2 as [s2 E2].
    apply IHr in H4 as [s4 E4]. apply Hopt in Hc as [s5 E5].
    assert (E3 : exists s3, params.name_term p3 = (params.name_term p2 ++ s3)%string).
    { destruct (search_node.string_term n).
      - destruct (oper_text (search_node.type n)) as [[len oper]|]; [|discriminate].
        eauto.
      - injection H3 as <-. exists ""%string. symmetry. apply str_app_nil_r. }
    destruct E3 as [s3 E3].
    exists (s1 ++ s2 ++ s3 ++ s4 ++ s5)%string.
    rewrite E5, E4, E3, E2, E1, !str_app_assoc. reflexivity.
Qed.

(** C10, as the code has it: a completed walk leaves both flags of
    every operator node set, and nothing clears them.  A second walk
    from an operator root then takes one iteration, changes nothing in
    the store, passes no leaf, and renders ")" when the root has
    [string_term] set and nothing otherwise; with [string_term] set this
    differs from the text of the first walk. *)
Theorem second_walk_degenerate (h : heap) (t : stree) (fuel : nat)
    (h1 : heap) (p1 : params.t) :
  repr false h None t -> NoDup (addrs t) ->
  walk fuel h (Some (root t)) params.zero = WDone h1 p1 ->
  (forall a, a ∈ opers t ->
     exists n, h1 !! a = Some n /\
       search_node.left_visited n = true /\ search_node.right_visited n = true) /\
  (forall a n l r, t = Oper a n l r ->
     let p2 := if search_node.string_term n
               then params.append 1 ")" params.zero else params.zero in
     (forall fuel', (1 <= fuel')%nat ->
        walk fuel' h1 (Some (root t)) params.zero = WDone h1 p2) /\
     (search_node.string_term n = true ->
      params.name_term p2 <> params.name_term p1)).
Proof.
  intros Hrepr Hnd Hw.
  destruct (walk_done_compile _ _ _ _ _ Hrepr Hnd Hw) as [Hc ->].
  pose proof (repr_mark _ _ _ Hrepr Hnd) as Hdone.
  split.
  - intros a Ha. destruct (repr_opers_flags _ _ _ _ Hdone Ha) as (n & Hn & _ & Hf).
    eauto.
  - intros a n l r -> p2. split.
    + intros [|fuel'] Hfuel; [lia|].
      destruct Hdone as (Hn & Hop & Hpar & _).
      simpl root. rewrite (walk_third _ _ _ _ _ Hn Hop eq_refl eq_refl).
      change (search_node.string_term (with_flags true true n))
        with (search_node.string_term n).
      change (search_node.parent (with_flags true true n))
        with (search_node.parent n).
      rewrite Hpar. unfold p2. destruct (search_node.string_term n).
      * rewrite render_fits by (vm_compute; discriminate). apply walk_null.
      * apply walk_null.
    + intros Hst. unfold p2. rewrite Hst. simpl in Hc. rewrite Hst in Hc.
      rewrite render_fits in Hc by (vm_compute; discriminate). simpl in Hc.
      destruct (compile l (params.append 1 "(" params.zero)) as [p'|] eqn:Hl;
        [|discriminate]. simpl in Hc.
      apply compile_extends in Hl as [s2 E2].
      destruct (oper_text (search_node.type n)) as [[len oper]|]; [|discriminate].
      destruct (render len oper p') as [p3|] eqn:H3; [|discriminate]. simpl in Hc.
      apply render_Some in H3 as [_ ->].
      destruct (compile r (params.append len oper p')) as [p4|] eqn:H4;
        [|discriminate]. simpl in Hc.
      apply compile_extends in H4 as [s4 E4].
      apply render_Some in Hc as [_ ->].
      simpl. rewrite E4. simpl. rewrite E2. simpl.
      intros Habs. discriminate Habs.
Qed.

Lemma second_walk_degenerate_witness :
  walk 9 example_heap (Some (root example_tree)) params.zero =
  WDone (mark example_tree example_heap)
    (params.mk "((A AND B) OR C)" 16 0 0 0 0 0 0 None None None) /\
  walk 1 (mark example_tree example_heap) (Some (root example_tree)) params.zero =
  WDone (mark example_tree example_heap) (params.append 1 ")" params.zero).
Proof.
  assert (Hrepr : repr false example_heap None example_tree).
  { simpl. repeat split; try reflexivity; lia. }
  assert (Hnd : NoDup (addrs example_tree)) by compute_done.
  assert (Hw : walk 9 example_heap (Some (root example_tree)) params.zero =
               WDone (mark example_tree example_heap)
                 (params.mk "((A AND B) OR C)" 16 0 0 0 0 0 0 None None None)).
  { vm_compute. reflexivity. }
  split; [exact Hw|].
  pose proof (second_walk_degenerate example_heap example_tree 9 _ _ Hrepr Hnd Hw)
    as (_ & H3).
  destruct (H3 0%nat (oper_node ST_OR None 1%nat 4%nat)
              (Oper 1%nat (oper_node ST_AND (Some 0%nat) 2%nat 3%nat)
                 (Leaf 2%nat (string_node (Some 1%nat) "A"))
                 (Leaf 3%nat (string_node (Some 1%nat) "B")))
              (Leaf 4%nat (string_node (Some 0%nat) "C")) eq_refl) as [Hw2 _].
  exact (Hw2 1%nat (le_n 1)).
Defined.

(** C10 without the restriction to [string_term]: for a query of
    filters only the operator root has [string_term] clear; the walk
    sets its flags, and the second walk ends at the root as the first
    sentence says, but its search text is the empty text the first walk
    gave (what it loses are the two filters). *)
Lemma filters_walked_twice_same_text :
  exists h1 p1 p2,
    repr false size_range_heap None size_range_tree /\
    walk 5 size_range_heap (Some (root size_range_tree)) params.zero = WDone h1 p1 /\
    walk 5 h1 (Some (root size_range_tree)) params.zero = WDone h1 p2 /\
    params.name_term p2 = params.name_term p1 /\
    (params.minsize p1, params.maxsize p1) = (5, 10) /\
    (params.minsize p2, params.maxsize p2) = (0, 0).
Proof.
  exists (mark size_range_tree size_range_heap),
    (params.mk "" 0 5 10 0 0 0 0 None None None), params.zero.
  split.
  - simpl. repeat split; try reflexivity; lia.
  - vm_compute. repeat split; reflexivity.
Qed.

(** Nor is a query of one string term compiled differently the second
    time: there is no flag to find set, and the term is rendered
    again. *)
Lemma leaf_walked_twice_same_text :
  exists h1 p1 p2,
    walk 1 (leaf_heap "a") (Some (root (leaf_tree "a"))) params.zero = WDone h1 p1 /\
    walk 1 h1 (Some (root (leaf_tree "a"))) params.zero = WDone h1 p2 /\
    params.name_term p2 = params.name_term p1 /\
    params.name_term p2 = "a"%string.
Proof.
  exists (leaf_heap "a"), (params.mk "a" 1 0 0 0 0 0 0 None None None),
    (params.mk "a" 1 0 0 0 0 0 0 None None None).
  vm_compute. repeat split; reflexivity.
Qed.

(** ** Search compiler: numeric filters of value 0 *)

Lemma render_slot ty n s p p' :
  render n s p = Some p' -> slot ty p' = slot ty p.
Proof.
  intros H. apply render_Some in H as [_ ->]. destruct ty; reflexivity.
Qed.

Lemma visit_leaf_slot ty a n p p' :
  search_node.type n <> ty -> visit_leaf a n p = Some p' -> slot ty p' = slot ty p.
Proof.
  unfold visit_leaf. intros Hne.
  destruct (search_node.type n) eqn:Hty; try discriminate;
    try (intros [= <-]; destruct ty; try reflexivity; congruence).
  apply render_slot.
Qed.



(** *** The leaves decide the filters *)




Lemma settle_untext q x : untext (settle q x) = settle q x.
Proof. reflexivity. Qed.










(** *** The search text of a query with leaves omitted *)




Section ZeroFilters.
Context `{E : Env}.




End ZeroFilters.



(** The search text is not that of the query with the filter omitted
    where an operator had rendered its parentheses and keyword around
    the filter. *)
Lemma omitted_filter_changes_search_text :
  without ST_MINSIZE filtered_tree = Some (Leaf 1%nat (string_node None "song")) /\
  walk 5 filtered_heap (Some (root filtered_tree)) params.zero =
    WDone (mark filtered_tree filtered_heap)
      (params.mk "(song AND )" 11 0 0 0 0 0 0 None None None) /\
  walk 1 song_heap (root <$> without ST_MINSIZE filtered_tree) params.zero =
    WDone song_heap (params.mk "song" 4 0 0 0 0 0 0 None None None).
Proof. repeat split; vm_compute; reflexivity. Qed.

(** ** Search executor: the result limit *)

Lemma to_int32_low n : 0 <= n < 2 ^ 31 -> to_int32 n = n.
Proof.
  intros Hn. unfold to_int32, to_signed.
  rewrite Z.mod_small by lia.
  destruct (Z.ltb_spec n (2 ^ (32 - 1))); [reflexivity|]. simpl in *. lia.
Qed.

Lemma to_int32_high n : 2 ^ 31 <= n < 2 ^ 32 -> to_int32 n < 0.
Proof.
  intros Hn. unfold to_int32, to_signed.
  rewrite Z.mod_small by lia.
  destruct (Z.ltb_spec n (2 ^ (32 - 1))); simpl in *; lia.
Qed.

(** The rows under [LIMIT (int) n], as far as the loop takes them. *)
Lemma limit_rows {R} (rows : list R) (n : Z) :
  0 <= n < 2 ^ 32 ->
  Nat.min (length (sql_limit (to_int32 n) rows)) (Z.to_nat n) =
    Z.to_nat (Z.min n (Z.of_nat (length rows))) /\
  forall k, (k <= Z.to_nat (Z.min n (Z.of_nat (length rows))))%nat ->
    firstn k (sql_limit (to_int32 n) rows) = firstn k rows.
Proof.
  intros Hn. unfold sql_limit. destruct (Z.lt_ge_cases n (2 ^ 31)) as [Hlow|Hhigh].
  - rewrite to_int32_low by lia.
    destruct (Z.ltb_spec n 0); [lia|].
    rewrite length_take. split; [lia|]. intros k Hk.
    rewrite take_take. f_equal. lia.
  - pose proof (to_int32_high n ltac:(lia)) as Hneg.
    destruct (Z.ltb_spec (to_int32 n) 0); [|lia]. split; [lia | reflexivity].
Qed.

(** Under [LIMIT (int) n] the fetch loop, when no step fails, delivers
    the first [min n (length rows)] rows. *)
Lemma fetch_limit {R O} (emit : R -> O) (rows : list R) (n : Z) (out : list O) :
  0 <= n < 2 ^ 32 ->
  fetch emit (sql_limit (to_int32 n) rows) None 0 n out =
  (Z.min n (Z.of_nat (length rows)),
   out ++ map emit (firstn (Z.to_nat (Z.min n (Z.of_nat (length rows)))) rows),
   if (length (sql_limit (to_int32 n) rows) <=? Z.to_nat n)%nat
   then SQLITE_DONE else SQLITE_ROW).
Proof.
  intros Hn. rewrite fetch_spec, Z.sub_0_r, Z.add_0_l.
  destruct (limit_rows rows n Hn) as [-> Hk]. rewrite Hk by lia.
  f_equal. f_equal. lia.
Qed.

(** A step that fails after [k] rows is met when [k] is at most
    [min n (length rows)]; [k] rows have been written by then. *)
Lemma fetch_limit_fault {R O} (emit : R -> O) (rows : list R) (k : nat) (n : Z)
    (out : list O) :
  0 <= n < 2 ^ 32 ->
  fetch emit (sql_limit (to_int32 n) rows) (Some k) 0 n out =
  if Z.of_nat k <=? Z.min n (Z.of_nat (length rows))
  then (Z.of_nat k, out ++ map emit (firstn k rows), SQLITE_ERROR)
  else fetch emit (sql_limit (to_int32 n) rows) None 0 n out.
Proof.
  intros Hn. rewrite fetch_fault, Z.sub_0_r, Z.add_0_l.
  destruct (limit_rows rows n Hn) as [-> Hk].
  destruct (Z.leb_spec (Z.of_nat k) (Z.min n (Z.of_nat (length rows)))) as [Hle|Hgt].
  - rewrite (proj2 (Nat.leb_le _ _)) by lia. rewrite Hk by lia. reflexivity.
  - rewrite (proj2 (Nat.leb_gt _ _)) by lia. reflexivity.
Qed.

(** Whichever step fails, if any: when the check after the loop passes,
    the first [min n (length rows)] rows have been written. *)
Lemma fetch_limit_ok {R O} (emit : R -> O) (rows : list R) (fault : option nat)
    (n : Z) (out : list O) i out' err :
  0 <= n < 2 ^ 32 ->
  fetch emit (sql_limit (to_int32 n) rows) fault 0 n out = (i, out', err) ->
  (i =? n) || is_done err = true ->
  i = Z.min n (Z.of_nat (length rows)) /\
  out' = out ++ map emit (firstn (Z.to_nat (Z.min n (Z.of_nat (length rows)))) rows).
Proof.
  intros Hn Hf Hok. destruct fault as [k|].
  - rewrite fetch_limit_fault in Hf by exact Hn.
    destruct (Z.leb_spec (Z.of_nat k) (Z.min n (Z.of_nat (length rows)))) as [Hle|Hgt].
    + injection Hf as <- <- <-. rewrite orb_false_r in Hok.
      apply Z.eqb_eq in Hok. split; [lia|].
      replace (Z.to_nat (Z.min n (Z.of_nat (length rows)))) with k by lia.
      reflexivity.
    + rewrite fetch_limit in Hf by exact Hn. injection Hf as <- <- _. auto.
  - rewrite fetch_limit in Hf by exact Hn. injection Hf as <- <- _. auto.
Qed.

(** When no step fails the check after the loop passes. *)
Lemma fetch_limit_done {R} (rows : list R) (n : Z) :
  0 <= n < 2 ^ 32 ->
  (Z.min n (Z.of_nat (length rows)) =? n) ||
  is_done (if (length (sql_limit (to_int32 n) rows) <=? Z.to_nat n)%nat
           then SQLITE_DONE else SQLITE_ROW) = true.
Proof.
  intros Hn. destruct (limit_rows rows n Hn) as [Hmin _].
  destruct (Z.eqb_spec (Z.min n (Z.of_nat (length rows))) n) as [Heq|Hne];
    [reflexivity|].
  destruct (Nat.leb_spec (length (sql_limit (to_int32 n) rows)) (Z.to_nat n));
    [reflexivity | lia].
Qed.

(** ** Search executor: the order of the rows *)

Global Instance docid_le_trans : Transitive docid_le.
Proof. unfold docid_le. intros x y z. lia. Qed.

Global Instance docid_le_total : Total docid_le.
Proof. unfold docid_le. intros x y. lia. Qed.

Lemma docs_sorted db : StronglySorted docid_le (docs db).
Proof. unfold docs. apply StronglySorted_merge_sort; apply _. Qed.

Lemma docs_NoDup db : NoDup (docs db).*1.
Proof. unfold docs. rewrite merge_sort_Permutation. apply NoDup_fst_map_to_list. Qed.

Section RowOrder.
Context `{E : Env}.

(** The rows of the join come by ascending [fid]. *)
Lemma matching_ascending db term fs :
  StronglySorted Z.lt (map fst (matching db term fs)).
Proof.
  unfold matching.
  set (g := fun '(docid, nm) => if fts_match term nm then _ else _).
  assert (Hg : forall d nm x, x ∈ map fst (g (d, nm)) -> x = d).
  { intros d nm x. unfold g.
    destruct (fts_match term nm); [|intros H; inversion H].
    destruct (files db !! d); [|intros H; inversion H].
    destruct (forallb _ fs); [|intros H; inversion H].
    simpl. intros H. apply list_elem_of_singleton in H. exact H. }
  assert (Hone : forall d nm, map fst (g (d, nm)) = [d] \/ map fst (g (d, nm)) = []).
  { intros d nm. unfold g.
    destruct (fts_match term nm); [|auto].
    destruct (files db !! d); [|auto].
    destruct (forallb _ fs); auto. }
  pose proof (docs_sorted db) as Hs. pose proof (docs_NoDup db) as Hnd.
  induction (docs db) as [|[d nm] l IH]; [constructor|].
  change (flat_map g ((d, nm) :: l)) with (g (d, nm) ++ flat_map g l).
  apply StronglySorted_inv in Hs as [Hs Hall].
  rewrite fmap_cons in Hnd. apply NoDup_cons in Hnd as [Hni Hnd].
  rewrite map_app.
  assert (Hrest : Forall (Z.lt d) (map fst (flat_map g l))).
  { apply Forall_forall. intros x Hx.
    assert (Hxl : exists nm', (x, nm') ∈ l).
    { clear -Hg Hx. induction l as [|[d' nm'] l IHl]; simpl in Hx; [inversion Hx|].
      rewrite map_app in Hx. apply elem_of_app in Hx as [Hx|Hx].
      - apply Hg in Hx as ->. exists nm'. apply elem_of_cons. auto.
      - destruct (IHl Hx) as [nm2 H2]. exists nm2. apply elem_of_cons. auto. }
    destruct Hxl as [nm' Hxl].
    rewrite Forall_forall in Hall. pose proof (Hall _ Hxl) as Hle.
    unfold docid_le in Hle. simpl in Hle.
    assert (x <> d).
    { intros ->. apply Hni. apply list_elem_of_fmap. exists (d, nm'). auto. }
    lia. }
  destruct (Hone d nm) as [-> | ->]; simpl.
  - constructor; [apply IH; assumption | exact Hrest].
  - apply IH; assumption.
Qed.

End RowOrder.

Section ResultLimit.
Context `{E : Env}.

(** C5: a call of [db_search_files] that returns 1 for a requested
    maximum [n] (within 32 bits, as the spec's [result_limit]) has
    appended to the output the first [min n m] rows of the [m] rows that
    match the compiled query, which come by ascending [fid], and
    [*count] is [min n m]; this whether or not a [sqlite3_step] failed
    after the loop had its rows. *)
Theorem result_limit (fuel : nat) (h : heap) (snode : option addr)
    (out : list search_file.t) (n : Z) (db : DB) (o : search_outcome) :
  0 <= n < 2 ^ 32 ->
  db_search_files fuel h snode out n db = Some o ->
  ret o = 1 ->
  exists p fs,
    walk fuel h snode params.zero = WDone (tree o) p /\
    filters (tree o) p = Some fs /\
    let rows := matching db (bound_term p) fs in
    let m := Z.of_nat (length rows) in
    count o = Z.min n m /\
    buf o = out ++ map (to_search_file db) (firstn (Z.to_nat (Z.min n m)) rows) /\
    StronglySorted Z.lt (map fst rows).
Proof.
  intros Hn Hs Hret. unfold db_search_files in Hs.
  destruct (walk fuel h snode params.zero) as [h' p|h'| |]; try discriminate.
  2: { injection Hs as <-. simpl in Hret. discriminate. }
  destruct (filters h' p) as [fs|] eqn:Hfs; [|discriminate].
  destruct (sqlite_prepare_ok _ db); simpl in Hs;
    [|injection Hs as <-; simpl in Hret; discriminate].
  exists p, fs.
  destruct (fetch _ _ _ 0 n out) as [[i out'] err] eqn:Hf.
  destruct ((i =? n) || is_done err) eqn:Hok; injection Hs as <-; simpl in Hret;
    [|discriminate].
  destruct (fetch_limit_ok _ _ _ _ _ _ _ _ Hn Hf Hok) as [-> ->].
  simpl. repeat split; try assumption; try reflexivity.
  apply matching_ascending.
Qed.

End ResultLimit.

Lemma result_limit_witness :
  count limited_outcome = 2 /\
  map search_file.name (buf limited_outcome) = [Some "song two"; Some "song three"] /\
  exists p fs,
    walk 1 (leaf_heap "song") (Some 0%nat) params.zero = WDone (tree limited_outcome) p /\
    filters (E := example_env) (tree limited_outcome) p = Some fs /\
    let rows := matching (E := example_env) library_db (bound_term p) fs in
    let m := Z.of_nat (length rows) in
    count limited_outcome = Z.min 2 m /\
    buf limited_outcome =
    [] ++ map (to_search_file (E := example_env) library_db)
            (firstn (Z.to_nat (Z.min 2 m)) rows) /\
    StronglySorted Z.lt (map fst rows).
Proof.
  split; [reflexivity|]. split; [reflexivity|].
  apply (result_limit (E := example_env) 1 (leaf_heap "song") (Some 0%nat) [] 2
           library_db limited_outcome).
  - lia.
  - vm_compute. reflexivity.
  - reflexivity.
Defined.

(** A maximum of more than 32 bits, which a [size_t] can hold, is cut
    to its low 32 bits by [sqlite3_bind_int]: asked for [2^32 + 1] of
    three matching files, the call returns 1 with one row. *)
Lemma limit_beyond_32_bits :
  ret <$> db_search_files (E := example_env) 1 (leaf_heap "song") (Some 0%nat) []
            (2 ^ 32 + 1) library_db = Some 1 /\
  count <$> db_search_files (E := example_env) 1 (leaf_heap "song") (Some 0%nat) []
              (2 ^ 32 + 1) library_db = Some 1.
Proof. split; vm_compute; reflexivity. Qed.

(** * Further properties

    ** Identity codec *)

Lemma sdbm_round_mul (hash : Z) (c : Byte.byte) :
  sdbm_round hash c = (byte_val c + 65599 * hash) mod 2 ^ 64.
Proof.
  unfold sdbm_round, to_uint64. rewrite !Z.shiftl_mul_pow2 by lia.
  f_equal. lia.
Qed.

Lemma sdbm_fold (l : list Byte.byte) : forall a b,
  a = b mod 2 ^ 64 ->
  fold_left sdbm_round l a =
  fold_left (fun acc c => byte_val c + 65599 * acc) l b mod 2 ^ 64.
Proof.
  induction l as [|c l IH]; intros a b Hab; simpl; [exact Hab|].
  apply IH. rewrite sdbm_round_mul, Hab.
  rewrite Z.add_mod, Z.mul_mod, Z.mod_mod by lia.
  rewrite <- Z.mul_mod, <- Z.add_mod by lia. reflexivity.
Qed.

(** X1: the file id is the value of the sdbm polynomial over the first
    16 bytes of the hash, reduced modulo 2^64; so it is a 64-bit value
    and bytes after the 16th do not count. *)
Theorem MAKE_FID_polynomial (x : list Byte.byte) :
  MAKE_FID x = sdbm_poly (firstn 16 x) mod 2 ^ 64 /\
  0 <= MAKE_FID x < 2 ^ 64 /\
  (forall y, firstn 16 y = firstn 16 x -> MAKE_FID y = MAKE_FID x).
Proof.
  assert (H : forall z, MAKE_FID z = sdbm_poly (firstn 16 z) mod 2 ^ 64).
  { intros z. unfold MAKE_FID, sdbm, sdbm_poly. apply sdbm_fold. reflexivity. }
  split; [apply H|]. split.
  - rewrite H. apply Z.mod_pos_bound. lia.
  - intros y Hy. rewrite !H, Hy. reflexivity.
Qed.

Lemma to_uint64_to_int64 (x : Z) : to_uint64 (to_int64 x) = to_uint64 x.
Proof.
  unfold to_uint64, to_int64, to_signed.
  destruct (x mod 2 ^ 64 <? 2 ^ (64 - 1)).
  - apply Z.mod_mod. lia.
  - rewrite <- (Z.mod_add _ 1) by lia.
    replace (x mod 2 ^ 64 - 2 ^ 64 + 1 * 2 ^ 64) with (x mod 2 ^ 64) by lia.
    apply Z.mod_mod. lia.
Qed.

Lemma MAKE_SID_range (c : client) : 0 <= MAKE_SID c < 2 ^ 64.
Proof.
  unfold MAKE_SID.
  set (a := to_uint64 _). set (b := to_uint64 (port c)).
  assert (Ha : 0 <= a < 2 ^ 64) by (apply Z.mod_pos_bound; lia).
  assert (Hb : 0 <= b < 2 ^ 64) by (apply Z.mod_pos_bound; lia).
  split; [apply Z.lor_nonneg; lia|].
  destruct (Z.eq_dec (Z.lor a b) 0) as [->|Hne]; [lia|].
  assert (0 <= Z.lor a b) by (apply Z.lor_nonneg; lia).
  apply Z.log2_lt_cancel. rewrite Z.log2_pow2 by lia.
  rewrite Z.log2_lor by lia. apply Z.max_lub_lt.
  - destruct (Z.eq_dec a 0) as [->|]; [simpl; lia|]. apply Z.log2_lt_pow2; lia.
  - destruct (Z.eq_dec b 0) as [->|]; [simpl; lia|]. apply Z.log2_lt_pow2; lia.
Qed.

Lemma MAKE_SID_low (c : client) :
  client_ok c -> MAKE_SID c mod 2 ^ 16 = port c.
Proof.
  intros Hc. pose proof Hc as [Hid Hport].
  rewrite <- Z.land_ones by lia.
  apply Z.bits_inj'. intros i Hi. rewrite Z.land_spec.
  destruct (Z.lt_ge_cases i 16) as [Hlt|Hge].
  - rewrite Z.ones_spec_low by lia. rewrite andb_true_r.
    apply MAKE_SID_testbit; [exact Hc | lia].
  - rewrite Z.ones_spec_high by lia. rewrite andb_false_r.
    symmetry. apply (testbit_above _ 16); lia.
Qed.

Lemma stored_sid_unpack (c : client) :
  client_ok c ->
  unpack_sid (to_int64 (MAKE_SID c)) = file_source.mk (id c) (port c).
Proof.
  intros Hc. unfold unpack_sid.
  rewrite to_uint64_to_int64, (to_uint64_small _ (MAKE_SID_range c)).
  unfold GET_SID_ID, GET_SID_PORT, to_uint32, to_uint16.
  rewrite MAKE_SID_high, MAKE_SID_low by exact Hc.
  rewrite Z.mod_small by (destruct Hc; lia). reflexivity.
Qed.

(** X2: a source id survives its storage as a signed 64-bit column:
    read back and unpacked it gives the peer's id and port, and two
    peers that differ have different stored ids. *)
Theorem stored_sid_identifies_peer (c1 c2 : client) :
  client_ok c1 -> client_ok c2 ->
  unpack_sid (to_int64 (MAKE_SID c1)) = file_source.mk (id c1) (port c1) /\
  (to_int64 (MAKE_SID c1) = to_int64 (MAKE_SID c2) -> c1 = c2).
Proof.
  intros H1 H2. split; [apply stored_sid_unpack; exact H1|].
  intros Heq. pose proof (stored_sid_unpack _ H1) as E1.
  pose proof (stored_sid_unpack _ H2) as E2.
  rewrite Heq, E2 in E1. injection E1 as Hid Hport.
  destruct c1 as [i1 p1], c2 as [i2 p2]. simpl in Hid, Hport. subst. reflexivity.
Qed.

Lemma stored_sid_identifies_peer_witness :
  unpack_sid (to_int64 (MAKE_SID peer_a)) = file_source.mk (id peer_a) (port peer_a) /\
  (to_int64 (MAKE_SID peer_a) = to_int64 (MAKE_SID peer_b) -> peer_a = peer_b).
Proof.
  apply stored_sid_identifies_peer; unfold client_ok; simpl; lia.
Defined.

(** ** Catalog store: reading the sources of a file *)

Section GetSources.
Context `{E : Env}.

(** X3: [db_get_sources] with a [uint8_t] maximum [n], the file having
    [k] sources.  When the reset or a bind fails it returns 0 and writes
    nothing.  When no step fails, or only one the loop does not get to,
    it returns 1, writes the first [min n k] sources, unpacked, in
    storage order, and sets [*count] to [min n k].  When the step after
    [j] rows fails and the loop gets to it, [j] entries have been
    written and [*count] is left as it was; the call returns 0, or 1 if
    [j] is the maximum asked for. *)
Theorem db_get_sources_spec (hash : list Byte.byte) (n : Z) (db : DB) :
  0 <= n < 2 ^ 8 ->
  let sids := sids_of (to_int64 (MAKE_FID hash)) (sources db) in
  let k := Z.of_nat (length sids) in
  let all := (1, map unpack_sid (firstn (Z.to_nat (Z.min n k)) sids), Z.min n k) in
  db_get_sources hash n db =
  if sqlite_ok GET_SRC db then
    match sqlite_step_fault query_get_src db with
    | Some j =>
        if Z.of_nat j <=? Z.min n k
        then (if Z.of_nat j =? n then 1 else 0, map unpack_sid (firstn j sids), n)
        else all
    | None => all
    end
  else (0, [], n).
Proof.
  intros Hn sids k all. unfold db_get_sources.
  destruct (sqlite_ok GET_SRC db); [|reflexivity]. simpl.
  fold (sources_of (to_int64 (MAKE_FID hash)) (sources db)).
  fold (sids_of (to_int64 (MAKE_FID hash)) (sources db)). fold sids.
  change (fun sid => file_source.mk (GET_SID_ID (to_uint64 sid))
                       (GET_SID_PORT (to_uint64 sid))) with unpack_sid.
  assert (Hall : (let '(i, out, err) := fetch unpack_sid (sql_limit (to_int32 n) sids)
                                          None 0 n [] in
                  if (i =? n) || is_done err then (1, out, i) else (0, out, n)) = all).
  { rewrite fetch_limit by lia. cbn beta iota.
    rewrite fetch_limit_done by lia. reflexivity. }
  destruct (sqlite_step_fault query_get_src db) as [j|]; [|exact Hall].
  rewrite fetch_limit_fault by lia. fold k.
  destruct (Z.of_nat j <=? Z.min n k); [|exact Hall].
  rewrite orb_false_r. simpl.
  destruct (Z.eqb_spec (Z.of_nat j) n) as [->|Hne]; reflexivity.
Qed.

End GetSources.

Lemma db_get_sources_spec_witness :
  db_get_sources (E := example_env) example_hash 10 example_db =
  (1, [file_source.mk (id peer_a) (port peer_a);
       file_source.mk (id peer_b) (port peer_b)], 2) /\
  db_get_sources (E := faulty_env) example_hash 10 example_db =
  (0, [file_source.mk (id peer_a) (port peer_a)], 10) /\
  db_get_sources (E := faulty_env) example_hash 1 example_db =
  (1, [file_source.mk (id peer_a) (port peer_a)], 1).
Proof.
  rewrite (db_get_sources_spec (E := example_env) example_hash 10 example_db)
    by lia.
  rewrite (db_get_sources_spec (E := faulty_env) example_hash 10 example_db)
    by lia.
  rewrite (db_get_sources_spec (E := faulty_env) example_hash 1 example_db)
    by lia.
  vm_compute. repeat split; reflexivity.
Defined.

(** ** Catalog store: what a statement leaves alone *)

Lemma update_files_other k set db k' :
  k' <> k ->
  files (snd (update_files k set db)) !! k' = files db !! k' /\
  fnames (snd (update_files k set db)) !! k' = fnames db !! k'.
Proof.
  intros Hne.
  unfold update_files, files_au, files_fts1, files_fts2, delete_files, files_fts3,
    set_files, set_fnames.
  destruct (files db !! k) as [old|]; [|auto]. simpl.
  destruct (renamed old (set old)); simpl;
    destruct (file_row.srcavail (set old) =? 0); simpl;
    rewrite ?lookup_insert_eq; simpl;
    rewrite ?lookup_delete_ne, ?lookup_insert_ne, ?lookup_delete_ne by congruence;
    auto.
Qed.

Lemma remove_src_kept sid rows : forall db,
  snd (remove_src sid rows db) = filter (fun s => source_row.sid s ≠ sid) rows.
Proof.
  induction rows as [|r rows IH]; intros db; simpl; [reflexivity|].
  rewrite filter_cons. destruct (Z.eqb_spec (source_row.sid r) sid) as [Heq|Hne].
  - rewrite decide_False by tauto. apply IH.
  - rewrite decide_True by exact Hne. specialize (IH db).
    destruct (remove_src sid rows db) as [db1 kept]. simpl in *. congruence.
Qed.

Lemma remove_src_other sid rows k : forall db,
  (forall r, r ∈ rows -> source_row.sid r = sid -> source_row.fid r <> k) ->
  files (fst (remove_src sid rows db)) !! k = files db !! k /\
  fnames (fst (remove_src sid rows db)) !! k = fnames db !! k.
Proof.
  induction rows as [|r rows IH]; intros db Hrows; simpl; [auto|].
  assert (Hrest : forall r', r' ∈ rows -> source_row.sid r' = sid ->
            source_row.fid r' <> k).
  { intros r' Hr'. apply Hrows. apply elem_of_cons. auto. }
  destruct (Z.eqb_spec (source_row.sid r) sid) as [Heq|Hne].
  - destruct (IH (sources_bd r db) Hrest) as [-> ->].
    apply update_files_other. intros ->.
    apply (Hrows r); [apply elem_of_cons; auto | exact Heq | reflexivity].
  - specialize (IH db Hrest).
    destruct (remove_src sid rows db) as [db1 kept]. exact IH.
Qed.

Lemma remove_src_none sid rows : forall db,
  (forall r, r ∈ rows -> source_row.sid r <> sid) ->
  remove_src sid rows db = (db, rows).
Proof.
  induction rows as [|r rows IH]; intros db Hrows; simpl; [reflexivity|].
  destruct (Z.eqb_spec (source_row.sid r) sid) as [Heq|Hne].
  - exfalso. apply (Hrows r); [apply elem_of_cons; auto | exact Heq].
  - rewrite IH; [reflexivity|]. intros r' Hr'. apply Hrows.
    apply elem_of_cons. auto.
Qed.

Lemma filter_other_sid (a b : Z) (rows : list source_row.t) :
  a <> b ->
  filter (fun s => source_row.sid s = a) (filter (fun s => source_row.sid s ≠ b) rows) =
  filter (fun s => source_row.sid s = a) rows.
Proof.
  intros Hab. induction rows as [|r rows IH]; [reflexivity|].
  rewrite !(filter_cons _ r).
  destruct (decide (source_row.sid r ≠ b)) as [Hk|Hk].
  - rewrite filter_cons.
    destruct (decide (source_row.sid r = a)); [f_equal|]; exact IH.
  - rewrite decide_False; [exact IH|]. intros Heq. apply Hk. congruence.
Qed.

Lemma stored_sid_inj (c1 c2 : client) :
  client_ok c1 -> client_ok c2 ->
  to_int64 (MAKE_SID c1) = to_int64 (MAKE_SID c2) -> c1 = c2.
Proof.
  intros H1 H2 Heq. pose proof (stored_sid_unpack _ H1) as E1.
  pose proof (stored_sid_unpack _ H2) as E2.
  rewrite Heq, E2 in E1. injection E1 as Hid Hport.
  destruct c1, c2. simpl in *. congruence.
Qed.

(** ** Statements that fail part-way *)

(** A statement that has all its writes leaves what the statement
    leaves. *)
Lemma update_files_w_done k set b db b' db' :
  update_files_w k set b db = (Some b', db') ->
  db' = snd (update_files k set db).
Proof.
  unfold update_files_w, update_files, w_read, files_au, files_fts1, files_fts2,
    delete_files_w, delete_files, w_read.
  destruct (files db !! k) as [old|]; [|intros [= _ <-]; reflexivity].
  cbn zeta. unfold w_seq, w_when, write, w_skip.
  destruct (renamed old (set old)), (file_row.srcavail (set old) =? 0);
    destruct b as [|[|[|[|[|b]]]]]; simpl; rewrite ?lookup_insert_eq; simpl;
    intros [= _ <-] || discriminate; reflexivity.
Qed.

Lemma update_files_w_enough k set b db :
  (5 <= b)%nat -> exists b', fst (update_files_w k set b db) = Some b'.
Proof.
  intros Hb.
  unfold update_files_w, w_read, delete_files_w, w_read, files_fts1, files_fts2.
  destruct (files db !! k) as [old|]; [|simpl; eauto].
  cbn zeta. unfold w_seq, w_when, write, w_skip.
  destruct b as [|[|[|[|[|b]]]]]; try lia.
  destruct (renamed old (set old)), (file_row.srcavail (set old) =? 0);
    simpl; rewrite ?lookup_insert_eq; simpl; eauto.
Qed.

Lemma update_files_set_sources k set l db :
  update_files k set (set_sources l db) =
  (fst (update_files k set db), set_sources l (snd (update_files k set db))).
Proof.
  unfold update_files, files_au, files_fts1, files_fts2, delete_files, files_fts3.
  simpl. destruct (files db !! k) as [old|]; [|reflexivity]. simpl.
  destruct (renamed old (set old)), (file_row.srcavail (set old) =? 0); simpl;
    rewrite ?lookup_insert_eq; reflexivity.
Qed.

Lemma share_ins_w_done fid hash name ext size type mlength mbitrate mcodec b db b' db' :
  share_ins_w fid hash name ext size type mlength mbitrate mcodec b db = (Some b', db') ->
  db' = share_ins fid hash name ext size type mlength mbitrate mcodec db.
Proof.
  unfold share_ins_w, share_ins, w_seq, write.
  destruct b as [|[|b]]; simpl; intros [= _ <-] || discriminate. reflexivity.
Qed.

Lemma share_src_w_done fid sid complete rating b db b' db' :
  share_src_w fid sid complete rating b db = (Some b', db') ->
  db' = share_src fid sid complete rating db.
Proof.
  unfold share_src_w, share_src, sources_ai_w, sources_ai, w_seq, write.
  destruct b as [|b]; [discriminate|]. simpl.
  destruct (update_files_w _ _ b _) as [[b1|] db1] eqn:Hu; [|discriminate].
  intros [= _ <-]. exact (update_files_w_done _ _ _ _ _ _ Hu).
Qed.

Lemma remove_src_w_done sid rest : forall kept b db b' db',
  remove_src_w sid kept rest b db = (Some b', db') ->
  sources db = kept ++ rest ->
  db' = set_sources (kept ++ snd (remove_src sid rest db)) (fst (remove_src sid rest db)).
Proof.
  induction rest as [|r rest IH]; intros kept b db b' db' Hw Hsrc; simpl in Hw |- *.
  - injection Hw as _ <-. rewrite <- Hsrc. destruct db; reflexivity.
  - destruct (source_row.sid r =? sid).
    + unfold w_seq in Hw. unfold sources_bd_w in Hw.
      destruct (update_files_w _ _ b db) as [[b1|] db1] eqn:Hu; [|discriminate].
      apply update_files_w_done in Hu.
      unfold write in Hw. destruct b1 as [|b1]; [discriminate|].
      apply IH in Hw; [|reflexivity].
      rewrite Hw. subst db1. unfold sources_bd.
      set (d := snd (update_files _ _ db)).
      clear. revert d. generalize (kept ++ rest). intros l d.
      assert (H : forall rows l d,
                remove_src sid rows (set_sources l d) =
                (set_sources l (fst (remove_src sid rows d)), snd (remove_src sid rows d))).
      { clear. induction rows as [|x rows IHr]; intros l d; simpl; [reflexivity|].
        destruct (source_row.sid x =? sid).
        - unfold sources_bd. rewrite update_files_set_sources. simpl. apply IHr.
        - rewrite IHr. destruct (remove_src sid rows d). reflexivity. }
      rewrite H. reflexivity.
    + apply IH in Hw; [|rewrite Hsrc, <- app_assoc; reflexivity].
      rewrite Hw. destruct (remove_src sid rest db) as [d kept']. simpl.
      rewrite <- app_assoc. reflexivity.
Qed.

(** A [DELETE] that finds no row of the peer writes nothing. *)
Lemma remove_src_w_none sid rest : forall kept b db,
  (forall s, s ∈ rest -> source_row.sid s <> sid) ->
  remove_src_w sid kept rest b db = (Some b, db).
Proof.
  induction rest as [|r rest IH]; intros kept b db Hrows; simpl; [reflexivity|].
  destruct (Z.eqb_spec (source_row.sid r) sid) as [Heq|Hne].
  - exfalso. apply (Hrows r); [apply elem_of_cons; auto | exact Heq].
  - apply IH. intros s Hs. apply Hrows. apply elem_of_cons. auto.
Qed.

Section RemoveProperties.
Context `{E : Env}.

(** X4: removing the sources of a peer that has none changes nothing in
    the catalog; the call returns 1 unless the engine reports an
    error. *)
Theorem db_remove_source_absent_peer (clnt : client) (db : DB) :
  (forall s, s ∈ sources db -> source_row.sid s <> to_int64 (MAKE_SID clnt)) ->
  db_remove_source clnt db = (if sqlite_ok REMOVE_SRC db then 1 else 0, db).
Proof.
  intros Hnone. unfold db_remove_source, exec.
  destruct (sqlite_ok REMOVE_SRC db).
  - rewrite remove_src_none by exact Hnone. simpl. destruct db. reflexivity.
  - unfold partial, w_read. rewrite remove_src_w_none by exact Hnone. reflexivity.
Qed.

(** X5: a successful [db_remove_source] drops exactly the source rows of
    the peer and keeps all others in their order; the rows of any other
    peer are all still there, and the file rows and index entries of
    files the peer did not offer are as before. *)
Theorem db_remove_source_exact (clnt other : client) (db db' : DB) :
  client_ok clnt -> client_ok other -> other <> clnt ->
  db_remove_source clnt db = (1, db') ->
  sources db' =
    filter (fun s => source_row.sid s ≠ to_int64 (MAKE_SID clnt)) (sources db) /\
  filter (fun s => source_row.sid s = to_int64 (MAKE_SID other)) (sources db') =
    filter (fun s => source_row.sid s = to_int64 (MAKE_SID other)) (sources db) /\
  (forall fid,
     (forall s, s ∈ sources db -> source_row.sid s = to_int64 (MAKE_SID clnt) ->
                source_row.fid s <> fid) ->
     files db' !! fid = files db !! fid /\ fnames db' !! fid = fnames db !! fid).
Proof.
  intros Hc Ho Hne. unfold db_remove_source, exec.
  destruct (sqlite_ok REMOVE_SRC db); [|discriminate].
  pose proof (remove_src_kept (to_int64 (MAKE_SID clnt)) (sources db) db) as Hkept.
  pose proof (fun k => remove_src_other (to_int64 (MAKE_SID clnt)) (sources db) k db)
    as Hother.
  destruct (remove_src _ (sources db) db) as [db1 kept]. simpl in *.
  intros [= <-]. simpl. subst kept.
  assert (Hsid : to_int64 (MAKE_SID other) <> to_int64 (MAKE_SID clnt)).
  { intros Heq. apply Hne. apply stored_sid_inj; assumption. }
  split; [reflexivity|]. split.
  - apply filter_other_sid. exact Hsid.
  - intros fid Hfid. apply (Hother fid). exact Hfid.
Qed.

End RemoveProperties.

Lemma db_remove_source_absent_peer_witness :
  db_remove_source (E := example_env) peer_b single_db = (1, single_db).
Proof.
  apply (db_remove_source_absent_peer (E := example_env) peer_b single_db).
  intros s Hs. apply list_elem_of_singleton in Hs as ->. vm_compute. discriminate.
Defined.

Lemma db_remove_source_exact_witness :
  sources after_remove_db =
    filter (fun s => source_row.sid s ≠ to_int64 (MAKE_SID peer_a)) (sources example_db) /\
  filter (fun s => source_row.sid s = to_int64 (MAKE_SID peer_b)) (sources after_remove_db) =
    filter (fun s => source_row.sid s = to_int64 (MAKE_SID peer_b)) (sources example_db).
Proof.
  destruct (db_remove_source_exact (E := example_env) peer_a peer_b example_db
              after_remove_db) as (H1 & H2 & _).
  - unfold client_ok. simpl. lia.
  - unfold client_ok. simpl. lia.
  - intros H. discriminate H.
  - vm_compute. reflexivity.
  - split; [exact H1 | exact H2].
Defined.

(** ** Catalog store: the index follows the files *)

Lemma update_files_synced k set db :
  index_synced db -> index_synced (snd (update_files k set db)).
Proof.
  intros Hs k'. destruct (decide (k' = k)) as [->|Hne].
  - specialize (Hs k).
    unfold update_files, files_au, files_fts1, files_fts2, delete_files, files_fts3,
      set_files, set_fnames, renamed.
    destruct (files db !! k) as [old|] eqn:Hold; [|simpl; rewrite Hold; exact Hs].
    simpl in Hs |- *.
    destruct (String.eqb_spec (file_row.name (set old)) (file_row.name old))
      as [Hname|Hname]; simpl;
      destruct (file_row.srcavail (set old) =? 0); simpl;
      rewrite ?lookup_insert_eq; simpl;
      rewrite ?lookup_delete_eq, ?lookup_insert_eq; simpl; congruence.
  - destruct (update_files_other k set db k' Hne) as [-> ->]. apply Hs.
Qed.

Lemma remove_src_synced sid rows : forall db,
  index_synced db -> index_synced (fst (remove_src sid rows db)).
Proof.
  induction rows as [|r rows IH]; intros db Hs; simpl; [exact Hs|].
  destruct (source_row.sid r =? sid).
  - apply IH. apply update_files_synced. exact Hs.
  - specialize (IH db Hs). destruct (remove_src sid rows db). exact IH.
Qed.

Section IndexProperties.
Context `{E : Env}.

Lemma share_file_synced f owner db :
  index_synced db ->
  match fst (share_file f owner db) with
  | Some _ => index_synced (snd (share_file f owner db))
  | None => True
  end.
Proof.
  intros Hs. unfold share_file, sql_bind, exec, sql_ret.
  destruct (sqlite_ok SHARE_UPD db); [|exact I].
  match goal with |- context [share_upd ?n ?e ?s ?t ?l ?b ?c ?k db] =>
    pose proof (update_files_synced k
      (fun f0 => file_row.mk (file_row.hash f0) (default EmptyString n) e s t
         (file_row.srcavail f0) (file_row.srccomplete f0) (file_row.rating f0)
         (file_row.rated_count f0) l b c) db Hs) as Hu;
    change (index_synced (snd (share_upd n e s t l b c k db))) in Hu;
    destruct (share_upd n e s t l b c k db) as [changes db1]
  end.
  simpl in Hu.
  assert (Hsrc : forall db2 r, index_synced db2 ->
            index_synced (sources_ai r (set_sources (sources db2 ++ [r]) db2))).
  { intros db2 r H2. unfold sources_ai. apply update_files_synced. exact H2. }
  destruct (changes =? 0).
  - destruct (sqlite_ok SHARE_INS db1); [|exact I].
    match goal with |- context [share_ins ?k ?h ?n ?e ?s ?t ?l ?b ?c db1] =>
      assert (Hi : index_synced (share_ins k h n e s t l b c db1));
      [|set (db2 := share_ins k h n e s t l b c db1) in *]
    end.
    { intros k'. unfold share_ins, files_fts4, set_files, set_fnames. simpl.
      match goal with |- <[?k := _]> _ !! _ = _ =>
        destruct (decide (k' = k)) as [->|Hne]
      end.
      - rewrite !lookup_insert_eq. reflexivity.
      - rewrite !lookup_insert_ne by congruence. apply Hu. }
    destruct (sqlite_ok SHARE_SRC db2); [|exact I].
    simpl. unfold share_src. apply Hsrc. exact Hi.
  - destruct (sqlite_ok SHARE_SRC db1); [|exact I].
    simpl. unfold share_src. apply Hsrc. exact Hu.
Qed.

Lemma share_files_loop_synced files owner : forall db db',
  index_synced db -> share_files_loop files owner db = (Some tt, db') ->
  index_synced db'.
Proof.
  induction files as [|f rest IH]; intros db db' Hs Hrun; simpl in Hrun.
  - injection Hrun as <-. exact Hs.
  - destruct (pub_file.name_len f =? 0); [eauto|].
    unfold sql_bind in Hrun. pose proof (share_file_synced f owner db Hs) as H1.
    destruct (share_file f owner db) as [[[]|] db1]; simpl in H1; [|discriminate].
    eauto.
Qed.

Lemma do_call_synced c db db' :
  index_synced db -> do_call c db = (1, db') -> index_synced db'.
Proof.
  intros Hs. destruct c as [files owner|clnt]; simpl.
  - unfold db_share_files.
    destruct (share_files_loop files owner db) as [[[]|] db1] eqn:Hrun; simpl;
      [|discriminate].
    intros [= <-]. eapply share_files_loop_synced; eauto.
  - unfold db_remove_source, exec.
    destruct (sqlite_ok REMOVE_SRC db); simpl; [|discriminate].
    pose proof (remove_src_synced (to_int64 (MAKE_SID clnt)) (sources db) db Hs) as H1.
    destruct (remove_src _ (sources db) db) as [db1 kept]. simpl in *.
    intros [= <-]. intros k. apply H1.
Qed.

(** X6: after any sequence of successful [db_share_files] and
    [db_remove_source] calls the full-text index holds exactly the
    stored files, each under its name as it is now. *)
Theorem index_follows_files (cs : list call) (db : DB) :
  run_calls cs db_create_state = Some db ->
  forall fid, fnames db !! fid = file_row.name <$> files db !! fid.
Proof.
  assert (H : forall db0 db1, index_synced db0 -> run_calls cs db0 = Some db1 ->
            index_synced db1).
  { induction cs as [|c cs IH]; intros db0 db1 Hs Hr; simpl in Hr.
    - injection Hr as <-. exact Hs.
    - destruct (do_call c db0) as [r db2] eqn:Hcall.
      destruct (Z.eqb_spec r 1) as [->|]; [|discriminate].
      apply (IH db2); [|exact Hr]. eapply do_call_synced; eauto. }
  intros Hrun. apply (H db_create_state db); [|exact Hrun].
  intros fid. simpl. rewrite !lookup_empty. reflexivity.
Qed.

(** X7: after any sequence of successful calls every source row belongs
    to a stored file, and every stored file has a source row. *)
Theorem sources_and_files_agree (cs : list call) (db : DB) :
  run_calls cs db_create_state = Some db ->
  (forall s, s ∈ sources db -> is_Some (files db !! source_row.fid s)) /\
  (forall fid f, files db !! fid = Some f ->
     exists s, s ∈ sources db /\ source_row.fid s = fid).
Proof.
  intros Hrun.
  destruct (run_calls_consistent _ _ _ db_create_consistent Hrun)
    as [Ha _ _ Hl Ho _].
  split.
  - intros s Hs. apply Ho. exact Hs.
  - intros fid f Hf. pose proof (Hl _ _ Hf ltac:(congruence)) as Hnz.
    rewrite (Ha _ _ Hf) in Hnz. unfold count_sources, sources_of in Hnz.
    destruct (filter (fun s => source_row.fid s = fid) (sources db)) as [|s l] eqn:Hfl;
      [simpl in Hnz; lia|].
    assert (Hs : s ∈ filter (fun s => source_row.fid s = fid) (sources db)).
    { rewrite Hfl. apply elem_of_cons. auto. }
    apply list_elem_of_filter in Hs as [Hfid Hin]. eauto.
Qed.

(** X8: a batch is processed as its parts in sequence: [db_share_files]
    on [l1 ++ l2] does what it does on [l1] and then, if that returned
    1, what it does on [l2]; if the first part fails, the call returns 0
    and the database is as the failing part left it, earlier entries
    written. *)
Theorem db_share_files_app (l1 l2 : list pub_file.t) (owner : client) (db : DB) :
  db_share_files (l1 ++ l2) owner db =
  (if fst (db_share_files l1 owner db) =? 1
   then db_share_files l2 owner (snd (db_share_files l1 owner db))
   else (0, snd (db_share_files l1 owner db))).
Proof.
  unfold db_share_files.
  assert (H : share_files_loop (l1 ++ l2) owner db =
              match share_files_loop l1 owner db with
              | (Some _, db1) => share_files_loop l2 owner db1
              | (None, db1) => (None, db1)
              end).
  { revert db. induction l1 as [|f l1 IH]; intros db; simpl; [reflexivity|].
    destruct (pub_file.name_len f =? 0); [apply IH|].
    unfold sql_bind. destruct (share_file f owner db) as [[[]|] db1]; [apply IH|].
    reflexivity. }
  rewrite H. destruct (share_files_loop l1 owner db) as [[[]|] db1]; reflexivity.
Qed.

End IndexProperties.

(** A call that fails can leave a file that the index does not have:
    the row of [SHARE_INS] stays when the statement fails before its
    trigger has run. *)
Lemma failed_insert_leaves_file_unindexed :
  fst (db_share_files (E := broken_insert_env) [song 5 true] peer_a db_create_state) = 0 /\
  is_Some (files (snd (db_share_files (E := broken_insert_env) [song 5 true] peer_a
                         db_create_state)) !! example_fid) /\
  fnames (snd (db_share_files (E := broken_insert_env) [song 5 true] peer_a
                 db_create_state)) !! example_fid = None.
Proof.
  split; [reflexivity|]. split; [|vm_compute; reflexivity].
  vm_compute. eexists. reflexivity.
Qed.

Lemma index_follows_files_witness :
  fnames example_db !! example_fid = file_row.name <$> files example_db !! example_fid.
Proof.
  apply (index_follows_files (E := example_env) example_calls example_db).
  vm_compute. reflexivity.
Defined.

Lemma sources_and_files_agree_witness :
  (forall s, s ∈ sources example_db -> is_Some (files example_db !! source_row.fid s)) /\
  (forall fid f, files example_db !! fid = Some f ->
     exists s, s ∈ sources example_db /\ source_row.fid s = fid).
Proof.
  apply (sources_and_files_agree (E := example_env) example_calls example_db).
  vm_compute. reflexivity.
Defined.

(** ** Catalog store: what an announcement writes *)

Lemma update_files_row k set db old :
  files db !! k = Some old ->
  file_row.srcavail (set old) <> 0 ->
  fst (update_files k set db) = 1 /\
  files (snd (update_files k set db)) !! k = Some (set old).
Proof.
  intros Hold Hnz.
  unfold update_files, files_au, files_fts1, files_fts2, set_files, set_fnames.
  rewrite Hold. simpl. rewrite (proj2 (Z.eqb_neq _ _)) by exact Hnz.
  destruct (renamed old (set old)); simpl; rewrite lookup_insert_eq; auto.
Qed.

Section ShareProperties.
Context `{E : Env}.

(** What a successful announcement of one file leaves, from a
    consistent catalog. *)
Lemma share_file_effect f owner db db' :
  consistent db ->
  share_file f owner db = (Some tt, db') ->
  let fid := to_int64 (MAKE_FID (pub_file.hash f)) in
  sources db' = sources db ++ [announced_source f owner] /\
  (forall k, k <> fid -> files db' !! k = files db !! k) /\
  exists row,
    files db' !! fid = Some row /\
    file_row.name row = announced_name f /\
    file_row.size row = to_int64 (pub_file.size f) /\
    file_row.srcavail row = count_sources fid (sources db) + 1 /\
    file_row.hash row =
      match files db !! fid with
      | Some old => file_row.hash old
      | None => firstn 16 (pub_file.hash f)
      end.
Proof.
  intros Hinv Hrun fid. pose proof Hinv as [Ha _ _ Hl Ho _].
  unfold share_file, sql_bind, exec, sql_ret in Hrun. fold fid in Hrun.
  destruct (sqlite_ok SHARE_UPD db); [|discriminate].
  unfold share_upd in Hrun.
  pose proof (count_sources_nonneg fid (sources db)) as Hnn.
  destruct (files db !! fid) as [old|] eqn:Hold.
  - match type of Hrun with context [update_files fid ?g db] =>
      destruct (update_files_row fid g db old Hold) as [Hch Hrow];
      [simpl; apply (Hl _ _ Hold); congruence|];
      pose proof (fun k Hk => proj1 (update_files_other fid g db k Hk)) as Hoth;
      pose proof (update_files_sources fid g db) as Hsrc;
      destruct (update_files fid g db) as [changes db1]
    end.
    simpl in Hch, Hrow, Hoth, Hsrc. subst changes. simpl in Hrun.
    destruct (sqlite_ok SHARE_SRC db1); [|discriminate].
    injection Hrun as <-. unfold share_src, sources_ai.
    match goal with |- context [update_files ?k0 ?g ?d] =>
      destruct (update_files_row k0 g d _ Hrow) as [_ Hrow2];
      [simpl; rewrite (Ha _ _ Hold); lia|];
      pose proof (fun k Hk => proj1 (update_files_other k0 g d k Hk)) as Hoth2;
      pose proof (update_files_sources k0 g d) as Hsrc2
    end.
    split; [|split].
    + rewrite Hsrc2. simpl. rewrite Hsrc. reflexivity.
    + intros k Hk. rewrite Hoth2 by exact Hk. simpl. apply Hoth. exact Hk.
    + eexists. split; [exact Hrow2|]. simpl. rewrite (Ha _ _ Hold). auto.
  - rewrite update_files_none in Hrun by exact Hold. simpl in Hrun.
    destruct (sqlite_ok SHARE_INS db); [|discriminate].
    match type of Hrun with context [share_ins ?k ?h ?n ?e ?s ?t ?l ?b ?c db] =>
      set (db2 := share_ins k h n e s t l b c db) in *
    end.
    destruct (sqlite_ok SHARE_SRC db2); [|discriminate].
    injection Hrun as <-. unfold share_src, sources_ai.
    assert (Hrow : files (set_sources (sources db2 ++ [announced_source f owner]) db2)
                     !! fid =
                   Some (file_row.mk (firstn 16 (pub_file.hash f)) (announced_name f)
                           (sqlite3_bind_text
                              ((fun off => str_drop off (pub_file.name f)) <$>
                                 file_extension (pub_file.name f) (pub_file.name_len f))
                              match file_extension (pub_file.name f) (pub_file.name_len f)
                              with
                              | Some off => to_int32 (pub_file.name_len f - Z.of_nat off)
                              | None => 0
                              end)
                           (to_int64 (pub_file.size f)) (to_int32 (pub_file.type f))
                           0 0 0 0
                           (to_int32 (pub_file.media_length f))
                           (to_int32 (pub_file.media_bitrate f))
                           (sqlite3_bind_text (Some (pub_file.media_codec f))
                              (pub_file.media_codec_len f)))).
    { simpl. apply lookup_insert_eq. }
    match goal with |- context [update_files ?k0 ?g ?d] =>
      destruct (update_files_row k0 g d _ Hrow) as [_ Hrow2];
      [simpl; lia|];
      pose proof (fun k Hk => proj1 (update_files_other k0 g d k Hk)) as Hoth2;
      pose proof (update_files_sources k0 g d) as Hsrc2
    end.
    destruct (no_sources_zero fid (sources db)) as (Z1 & _ & _).
    { intros s Hs Heq. destruct (Ho s Hs) as [[g0 Hg] _]. congruence. }
    split; [|split].
    + rewrite Hsrc2. reflexivity.
    + intros k Hk. rewrite Hoth2 by exact Hk. simpl.
      apply lookup_insert_ne. congruence.
    + eexists. split; [exact Hrow2|]. simpl. rewrite Z1. auto.
Qed.

Lemma db_share_files_single f owner db db' :
  pub_file.name_len f <> 0 ->
  db_share_files [f] owner db = (1, db') ->
  share_file f owner db = (Some tt, db').
Proof.
  intros Hlen. unfold db_share_files. simpl.
  rewrite (proj2 (Z.eqb_neq _ _)) by exact Hlen. unfold sql_bind, sql_ret.
  destruct (share_file f owner db) as [[[]|] db1]; simpl; [|discriminate].
  intros [= <-]. reflexivity.
Qed.

(** X9: a successful announcement of one named file, after any
    successful calls, appends one source row for the peer and keeps all
    others; the file row has the announced name and size and a
    [srcavail] one higher than the number of its sources before, and
    keeps the hash it was first stored with; no other file row
    changes. *)
Theorem announcement_upserts (cs : list call) (db db' : DB) (f : pub_file.t)
    (owner : client) :
  run_calls cs db_create_state = Some db ->
  pub_file.name_len f <> 0 ->
  db_share_files [f] owner db = (1, db') ->
  let fid := to_int64 (MAKE_FID (pub_file.hash f)) in
  sources db' = sources db ++ [announced_source f owner] /\
  (forall k, k <> fid -> files db' !! k = files db !! k) /\
  exists row,
    files db' !! fid = Some row /\
    file_row.name row = announced_name f /\
    file_row.size row = to_int64 (pub_file.size f) /\
    file_row.srcavail row = count_sources fid (sources db) + 1 /\
    file_row.hash row =
      match files db !! fid with
      | Some old => file_row.hash old
      | None => firstn 16 (pub_file.hash f)
      end.
Proof.
  intros Hrun Hlen Hshare.
  apply share_file_effect.
  - exact (run_calls_consistent _ _ _ db_create_consistent Hrun).
  - apply db_share_files_single; assumption.
Qed.

End ShareProperties.

Lemma announcement_upserts_witness :
  sources example_db = sources single_db ++ [announced_source (song 0 false) peer_b] /\
  exists row,
    files example_db !! example_fid = Some row /\
    file_row.srcavail row = count_sources example_fid (sources single_db) + 1.
Proof.
  destruct (announcement_upserts (E := example_env) single_call single_db example_db
              (song 0 false) peer_b) as (H1 & _ & row & H3 & _ & _ & H4 & _).
  - vm_compute. reflexivity.
  - simpl. lia.
  - vm_compute. reflexivity.
  - split; [exact H1|]. exists row. split; [exact H3 | exact H4].
Defined.

(** ** Catalog store: an announcement read back *)

Section RoundTrip.
Context `{E : Env}.

Lemma db_get_sources_ok (hash : list Byte.byte) (n : Z) (db : DB) :
  0 <= n < 2 ^ 8 -> sqlite_ok GET_SRC db = true ->
  sqlite_step_fault query_get_src db = None ->
  db_get_sources hash n db =
  (1,
   map unpack_sid
     (firstn (Z.to_nat (Z.min n (Z.of_nat (length
        (sids_of (to_int64 (MAKE_FID hash)) (sources db))))))
        (sids_of (to_int64 (MAKE_FID hash)) (sources db))),
   Z.min n (Z.of_nat (length (sids_of (to_int64 (MAKE_FID hash)) (sources db))))).
Proof.
  intros Hn Hok Hstep. unfold db_get_sources. rewrite Hok, Hstep. simpl.
  fold (sources_of (to_int64 (MAKE_FID hash)) (sources db)).
  fold (sids_of (to_int64 (MAKE_FID hash)) (sources db)).
  set (sids := sids_of _ _).
  change (fun sid => file_source.mk (GET_SID_ID (to_uint64 sid))
                       (GET_SID_PORT (to_uint64 sid))) with unpack_sid.
  rewrite fetch_limit by lia. cbn beta iota.
  rewrite fetch_limit_done by lia. reflexivity.
Qed.

(** X10: a peer that has announced a named file is returned by
    [db_get_sources] for the hash of that file, as the last entry, when
    the engine reports no error, neither before the loop nor at a step,
    and the maximum asked for exceeds the number of sources the file had
    before; the count written back is that number plus one. *)
Theorem announced_peer_is_returned (cs : list call) (db db' : DB) (f : pub_file.t)
    (owner : client) (n : Z) :
  run_calls cs db_create_state = Some db ->
  pub_file.name_len f <> 0 -> client_ok owner ->
  db_share_files [f] owner db = (1, db') ->
  sqlite_ok GET_SRC db' = true ->
  sqlite_step_fault query_get_src db' = None ->
  count_sources (to_int64 (MAKE_FID (pub_file.hash f))) (sources db) < n < 2 ^ 8 ->
  exists out,
    db_get_sources (pub_file.hash f) n db' =
      (1, out, count_sources (to_int64 (MAKE_FID (pub_file.hash f))) (sources db) + 1) /\
    last out = Some (file_source.mk (id owner) (port owner)).
Proof.
  intros Hrun Hlen Hc Hshare Hok Hstep Hn.
  pose proof (count_sources_nonneg (to_int64 (MAKE_FID (pub_file.hash f))) (sources db))
    as Hnn.
  destruct (share_file_effect f owner db db'
              (run_calls_consistent _ _ _ db_create_consistent Hrun)
              (db_share_files_single _ _ _ _ Hlen Hshare)) as (Hsrc & _).
  rewrite db_get_sources_ok by (try exact Hok; try exact Hstep; lia).
  assert (Hsids : sids_of (to_int64 (MAKE_FID (pub_file.hash f))) (sources db') =
                  sids_of (to_int64 (MAKE_FID (pub_file.hash f))) (sources db) ++
                  [to_int64 (MAKE_SID owner)]).
  { unfold sids_of. rewrite Hsrc, sources_of_app, map_app. f_equal.
    unfold announced_source. rewrite sources_of_cons. simpl.
    rewrite decide_True by reflexivity. reflexivity. }
  assert (Hlen' : Z.of_nat (length (sids_of (to_int64 (MAKE_FID (pub_file.hash f)))
                                      (sources db))) =
                  count_sources (to_int64 (MAKE_FID (pub_file.hash f))) (sources db)).
  { unfold sids_of, count_sources. rewrite length_map. reflexivity. }
  rewrite Hsids, length_app. simpl length.
  rewrite Z.min_r by lia.
  eexists. split.
  - f_equal. lia.
  - rewrite firstn_all2 by (rewrite length_app; simpl; lia).
    rewrite map_app. simpl. rewrite last_snoc.
    rewrite stored_sid_unpack by exact Hc. reflexivity.
Qed.

End RoundTrip.

Lemma announced_peer_is_returned_witness :
  exists out,
    db_get_sources (E := example_env) (pub_file.hash (song 0 false)) 10 example_db =
      (1, out,
       count_sources (to_int64 (MAKE_FID (pub_file.hash (song 0 false))))
         (sources single_db) + 1) /\
    last out = Some (file_source.mk (id peer_b) (port peer_b)).
Proof.
  apply (announced_peer_is_returned (E := example_env) single_call single_db example_db
           (song 0 false) peer_b 10).
  - vm_compute. reflexivity.
  - simpl. lia.
  - unfold client_ok. simpl. lia.
  - vm_compute. reflexivity.
  - reflexivity.
  - reflexivity.
  - vm_compute. split; reflexivity.
Defined.

(** ** Catalog store: [rated_count] when every source has a rating *)

Lemma rated_inv_ext db db' rows :
  files db' = files db -> rated_inv db rows -> rated_inv db' rows.
Proof. intros Hf [Hr Hs]. split; rewrite ?Hf; assumption. Qed.

Lemma sources_bd_rated db pre r rest :
  catalog_inv None db (pre ++ r :: rest) ->
  rated_inv db (pre ++ r :: rest) ->
  rated_inv (sources_bd r db) (pre ++ rest).
Proof.
  intros [Ha _ _ _ Ho _] [Hr Hs].
  assert (Hin : forall s, s ∈ pre ++ rest -> s ∈ pre ++ r :: rest).
  { intros s Hs'. rewrite elem_of_app, elem_of_cons.
    apply elem_of_app in Hs'. tauto. }
  assert (Hrin : r ∈ pre ++ r :: rest).
  { rewrite elem_of_app, elem_of_cons. auto. }
  destruct (Ho r Hrin) as [[f Hf] _].
  pose proof (Hs r Hrin) as Hrate.
  unfold sources_bd. erewrite update_files_same_name by (try exact Hf; reflexivity).
  simpl.
  assert (Hcount : forall fid,
            count_sources fid (pre ++ r :: rest) =
            count_sources fid (pre ++ rest) +
            (if decide (source_row.fid r = fid) then 1 else 0)).
  { intros fid. rewrite count_sources_middle. reflexivity. }
  rewrite (proj2 (Z.eqb_neq _ _) Hrate). simpl.
  split; [|auto].
  destruct (file_row.srcavail f - 1 =? 0); simpl.
  - intros fid f0 H0. apply lookup_delete_Some in H0 as [Hne H0].
    rewrite (Hr _ _ H0), Hcount. rewrite decide_False by congruence. lia.
  - intros fid f0 H0. apply lookup_insert_Some in H0 as [[<- <-]|[Hne H0]].
    + simpl. rewrite (Hr _ _ Hf), Hcount. rewrite decide_True by reflexivity. lia.
    + rewrite (Hr _ _ H0), Hcount. rewrite decide_False by congruence. lia.
Qed.

Lemma sources_ai_rated db rows r :
  catalog_inv (Some (source_row.fid r)) db rows ->
  is_Some (files db !! source_row.fid r) ->
  source_row.rating r <> 0 ->
  rated_inv db rows ->
  rated_inv (sources_ai r db) (rows ++ [r]).
Proof.
  intros [Ha _ _ _ _ _] [f Hf] Hrate [Hr Hs].
  pose proof (count_sources_nonneg (source_row.fid r) rows) as Hnn.
  pose proof (Ha _ _ Hf) as Haf.
  unfold sources_ai. erewrite update_files_same_name by (try exact Hf; reflexivity).
  simpl. rewrite (proj2 (Z.eqb_neq _ _) Hrate). simpl.
  destruct (Z.eqb_spec (file_row.srcavail f + 1) 0) as [Hz|_]; [lia|].
  assert (Hcount : forall fid,
            count_sources fid (rows ++ [r]) =
            count_sources fid rows +
            (if decide (source_row.fid r = fid) then 1 else 0)).
  { intros fid. rewrite count_sources_middle, app_nil_r. reflexivity. }
  split; simpl.
  - intros fid f0 H0. apply lookup_insert_Some in H0 as [[<- <-]|[Hne H0]].
    + simpl. rewrite (Hr _ _ Hf), Hcount. rewrite decide_True by reflexivity. lia.
    + rewrite (Hr _ _ H0), Hcount. rewrite decide_False by congruence. lia.
  - intros s Hin. apply elem_of_app in Hin as [Hin|Hin]; [auto|].
    apply list_elem_of_singleton in Hin as ->. exact Hrate.
Qed.

Lemma remove_src_rated sid rows : forall pre db,
  catalog_inv None db (pre ++ rows) ->
  rated_inv db (pre ++ rows) ->
  rated_inv (fst (remove_src sid rows db)) (pre ++ snd (remove_src sid rows db)).
Proof.
  induction rows as [|r rows IH]; intros pre db Hinv Hrated; simpl; [exact Hrated|].
  destruct (source_row.sid r =? sid).
  - apply IH.
    + apply sources_bd_inv. exact Hinv.
    + apply sources_bd_rated; assumption.
  - specialize (IH (pre ++ [r]) db). rewrite <- !app_assoc in IH. simpl in IH.
    specialize (IH Hinv Hrated).
    destruct (remove_src sid rows db) as [db1 kept]. simpl in *. exact IH.
Qed.

Section RatedProperties.
Context `{E : Env}.

Lemma share_file_rated f owner db db' :
  to_int32 (pub_file.rating f) <> 0 ->
  consistent db -> rated_inv db (sources db) ->
  share_file f owner db = (Some tt, db') ->
  rated_inv db' (sources db').
Proof.
  intros Hrate Hinv Hrated. unfold share_file, sql_bind, exec.
  destruct (sqlite_ok SHARE_UPD db); [|discriminate].
  assert (Hc01 : forall b : bool, (if b then 1 else 0) = 0 \/ (if b then 1 else 0) = 1)
    by (intros []; auto).
  assert (Hsrc_step : forall fid sid c db2,
            catalog_inv (Some fid) db2 (sources db2) ->
            is_Some (files db2 !! fid) -> rated_inv db2 (sources db2) ->
            rated_inv (share_src fid sid c (to_int32 (pub_file.rating f)) db2)
              (sources (share_src fid sid c (to_int32 (pub_file.rating f)) db2))).
  { intros fid sid c db2 Hi Hsome Hr2. unfold share_src.
    rewrite sources_ai_sources. simpl.
    apply sources_ai_rated; simpl; try assumption.
    - eapply catalog_inv_ext; [| |exact Hi]; reflexivity.
    - eapply rated_inv_ext; [|exact Hr2]. reflexivity. }
  match goal with |- context [share_upd ?n ?e ?s ?t ?l ?b ?c ?k db] =>
    pose proof (share_upd_inv n e s t l b c k db _ Hinv) as (Hu & Hsrc & Hzero & Hnz);
    assert (Hur : rated_inv (snd (share_upd n e s t l b c k db)) (sources db));
    [|destruct (share_upd n e s t l b c k db) as [changes db1]]
  end.
  { destruct Hrated as [Hr Hs]. split; [|exact Hs].
    intros fid f0 H0. unfold share_upd, update_files, files_au, files_fts1, files_fts2
      in H0.
    destruct (files db !! _) as [old|] eqn:Hold; [|eauto].
    simpl in H0.
    pose proof Hinv as [_ _ _ Hl _ _].
    rewrite (proj2 (Z.eqb_neq _ _)) in H0 by (apply (Hl _ _ Hold); congruence).
    assert (H1 : <[to_int64 (MAKE_FID (pub_file.hash f)) :=
                   file_row.mk (file_row.hash old)
                     (default EmptyString
                        (sqlite3_bind_text (Some (pub_file.name f)) (pub_file.name_len f)))
                     (sqlite3_bind_text
                        ((fun off => str_drop off (pub_file.name f)) <$>
                           file_extension (pub_file.name f) (pub_file.name_len f))
                        match file_extension (pub_file.name f) (pub_file.name_len f) with
                        | Some off => to_int32 (pub_file.name_len f - Z.of_nat off)
                        | None => 0
                        end)
                     (to_int64 (pub_file.size f)) (to_int32 (pub_file.type f))
                     (file_row.srcavail old) (file_row.srccomplete old)
                     (file_row.rating old) (file_row.rated_count old)
                     (to_int32 (pub_file.media_length f))
                     (to_int32 (pub_file.media_bitrate f))
                     (sqlite3_bind_text (Some (pub_file.media_codec f))
                        (pub_file.media_codec_len f))]> (files db) !! fid = Some f0).
    { destruct (renamed _ _); exact H0. }
    apply lookup_insert_Some in H1 as [[<- <-]|[Hne H1]]; simpl; eauto. }
  simpl in Hu, Hsrc, Hzero, Hnz, Hur. rewrite <- Hsrc in Hu, Hur.
  destruct (Z.eqb_spec changes 0) as [Hch|Hch].
  - destruct (sqlite_ok SHARE_INS db1); [|discriminate].
    match goal with |- context [share_ins ?k ?h ?n ?e ?s ?t ?l ?b ?c db1] =>
      pose proof (share_ins_inv k h n e s t l b c db1 _ Hu (Hzero Hch))
        as (Hi & Hsome & Hsrc2);
      assert (Hir : rated_inv (share_ins k h n e s t l b c db1) (sources db1));
      [|set (db2 := share_ins k h n e s t l b c db1) in *]
    end.
    { destruct Hur as [Hr Hs]. split; [|exact Hs].
      intros fid f0 H0. unfold share_ins, files_fts4, set_files, set_fnames in H0.
      simpl in H0. apply lookup_insert_Some in H0 as [[<- <-]|[Hne H0]]; [|eauto].
      simpl. destruct Hu as [_ _ _ _ Ho _].
      destruct (no_sources_zero (to_int64 (MAKE_FID (pub_file.hash f))) (sources db1))
        as (Z1 & _ & _); [|congruence].
      intros s Hs' Heq. destruct (Ho s Hs') as [[g Hg] _].
      rewrite Heq, (Hzero Hch) in Hg. discriminate. }
    destruct (sqlite_ok SHARE_SRC db2); [|discriminate].
    intros [= <-]. apply Hsrc_step; rewrite ?Hsrc2; assumption.
  - unfold sql_ret. destruct (sqlite_ok SHARE_SRC db1); [|discriminate].
    intros [= <-]. apply Hsrc_step; [|exact (Hnz Hch)|exact Hur].
    apply catalog_inv_pending. exact Hu.
Qed.

Lemma share_files_loop_rated files owner : forall db db',
  Forall (fun f => pub_file.name_len f <> 0 -> to_int32 (pub_file.rating f) <> 0) files ->
  consistent db -> rated_inv db (sources db) ->
  share_files_loop files owner db = (Some tt, db') ->
  rated_inv db' (sources db').
Proof.
  induction files as [|f rest IH]; intros db db' Hall Hinv Hrated Hrun; simpl in Hrun.
  - injection Hrun as <-. exact Hrated.
  - apply Forall_cons in Hall as [Hf Hall].
    destruct (Z.eqb_spec (pub_file.name_len f) 0) as [Hz|Hnz]; [eauto|].
    unfold sql_bind in Hrun.
    destruct (share_file f owner db) as [[[]|] db1] eqn:Hone; [|discriminate].
    apply (IH db1); [exact Hall| | |exact Hrun].
    + eapply share_file_consistent; eauto.
    + eapply share_file_rated; eauto.
Qed.

Lemma do_call_rated c db db' :
  all_rated c -> consistent db -> rated_inv db (sources db) ->
  do_call c db = (1, db') -> rated_inv db' (sources db').
Proof.
  destruct c as [files owner|clnt]; simpl; intros Hall Hinv Hrated.
  - unfold db_share_files.
    destruct (share_files_loop files owner db) as [[[]|] db1] eqn:Hrun; simpl;
      [|discriminate].
    intros [= <-]. eapply share_files_loop_rated; eauto.
  - unfold db_remove_source, exec.
    destruct (sqlite_ok REMOVE_SRC db); simpl; [|discriminate].
    pose proof (remove_src_rated (to_int64 (MAKE_SID clnt)) (sources db) [] db
                  Hinv Hrated) as H1.
    destruct (remove_src _ (sources db) db) as [db1 kept]. simpl in *.
    intros [= <-]. simpl. eapply rated_inv_ext; [|exact H1]. reflexivity.
Qed.

Lemma count_rated_all fid (rows : list source_row.t) :
  (forall s, s ∈ rows -> source_row.rating s <> 0) ->
  count_rated fid rows = count_sources fid rows.
Proof.
  intros Hall. unfold count_rated, count_sources. f_equal. f_equal.
  assert (H : forall l : list source_row.t,
            (forall s, s ∈ l -> source_row.rating s <> 0) ->
            filter (fun s => source_row.rating s ≠ 0) l = l).
  { induction l as [|x l IH]; intros Hl; [reflexivity|].
    rewrite filter_cons, decide_True by (apply Hl; apply elem_of_cons; auto).
    f_equal. apply IH. intros s Hs. apply Hl. apply elem_of_cons. auto. }
  apply H. intros s Hs. apply Hall. unfold sources_of in Hs.
  apply list_elem_of_filter in Hs. tauto.
Qed.

(** X11: as long as no announcement comes without a rating, the
    [rated_count] of every file row is the number of its source rows
    with a non-zero rating, which then is [srcavail]. *)
Theorem rated_count_without_zero_ratings (cs : list call) (db : DB) :
  Forall all_rated cs ->
  run_calls cs db_create_state = Some db ->
  forall fid f, files db !! fid = Some f ->
    file_row.rated_count f = count_rated fid (sources db) /\
    file_row.rated_count f = file_row.srcavail f.
Proof.
  intros Hall.
  assert (H : forall db0 db1,
            consistent db0 -> rated_inv db0 (sources db0) ->
            run_calls cs db0 = Some db1 ->
            consistent db1 /\ rated_inv db1 (sources db1)).
  { induction Hall as [|c cs Hc _ IH]; intros db0 db1 Hinv Hrated Hr; simpl in Hr.
    - injection Hr as <-. auto.
    - destruct (do_call c db0) as [r db2] eqn:Hcall.
      destruct (Z.eqb_spec r 1) as [->|]; [|discriminate].
      apply (IH db2); [| |exact Hr].
      + eapply do_call_consistent; eauto.
      + eapply do_call_rated; eauto. }
  intros Hrun.
  destruct (H db_create_state db db_create_consistent) as [Hinv [Hr Hs]];
    [|exact Hrun|].
  { split; simpl.
    - intros fid f Hf. rewrite lookup_empty in Hf. discriminate.
    - intros s Hin. inversion Hin. }
  intros fid f Hf. destruct Hinv as [Ha _ _ _ _ _].
  rewrite (count_rated_all _ _ Hs), (Hr _ _ Hf), (Ha _ _ Hf). auto.
Qed.

End RatedProperties.

Lemma rated_count_without_zero_ratings_witness :
  file_row.rated_count rated_row = count_rated example_fid (sources rated_db) /\
  file_row.rated_count rated_row = file_row.srcavail rated_row.
Proof.
  apply (rated_count_without_zero_ratings (E := example_env) rated_calls rated_db).
  - repeat constructor; intros _; vm_compute; discriminate.
  - vm_compute. reflexivity.
  - vm_compute. reflexivity.
Defined.

(** ** Search compiler: what the walk does to the store *)

Lemma flags_set_refl n : flags_set n n.
Proof. split; [destruct n; reflexivity | auto]. Qed.

Lemma flags_set_trans n1 n2 n3 :
  flags_set n1 n2 -> flags_set n2 n3 -> flags_set n1 n3.
Proof.
  intros (E1 & L1 & R1) (E2 & L2 & R2). split; [|auto].
  rewrite E2 at 1. rewrite E1. reflexivity.
Qed.

Lemma store_marked_refl h : store_marked h h.
Proof.
  intros a. destruct (h !! a) as [n|] eqn:Hn; [|reflexivity].
  exists n. split; [reflexivity | apply flags_set_refl].
Qed.

Lemma store_marked_trans h1 h2 h3 :
  store_marked h1 h2 -> store_marked h2 h3 -> store_marked h1 h3.
Proof.
  intros H12 H23 a. specialize (H12 a). specialize (H23 a).
  destruct (h1 !! a) as [n1|].
  - destruct H12 as (n2 & Hn2 & F12). rewrite Hn2 in H23.
    destruct H23 as (n3 & Hn3 & F23). exists n3.
    split; [exact Hn3 | eapply flags_set_trans; eauto].
  - rewrite H12 in H23. exact H23.
Qed.

Lemma store_marked_insert h a n n' :
  h !! a = Some n -> flags_set n n' -> store_marked h (<[a := n']> h).
Proof.
  intros Hn Hf b. destruct (decide (b = a)) as [->|Hne].
  - rewrite Hn, lookup_insert_eq. eauto.
  - rewrite lookup_insert_ne by congruence.
    destruct (h !! b) as [m|]; [|reflexivity].
    exists m. split; [reflexivity | apply flags_set_refl].
Qed.

Lemma walk_marks fuel : forall h snode p,
  match walk fuel h snode p with
  | WDone h' _ | WFailed h' => store_marked h h'
  | _ => True
  end.
Proof.
  induction fuel as [|fuel IH]; intros h snode p.
  - destruct snode; simpl; [exact I | apply store_marked_refl].
  - destruct snode as [a|]; [|simpl; apply store_marked_refl].
    simpl. destruct (h !! a) as [n|] eqn:Hn; [|exact I].
    assert (Hstep : forall h2 s2 p2, store_marked h h2 ->
              match walk fuel h2 s2 p2 with
              | WDone h' _ | WFailed h' => store_marked h h'
              | _ => True
              end).
    { intros h2 s2 p2 H2. specialize (IH h2 s2 p2).
      destruct (walk fuel h2 s2 p2); try exact I;
        eapply store_marked_trans; eauto. }
    assert (Hl : store_marked h (<[a := search_node.set_left_visited n]> h)).
    { apply (store_marked_insert _ _ n); [exact Hn|]. split; [reflexivity|]. auto. }
    assert (Hr : store_marked h (<[a := search_node.set_right_visited n]> h)).
    { apply (store_marked_insert _ _ n); [exact Hn|]. split; [reflexivity|]. auto. }
    destruct (is_oper (search_node.type n)).
    + destruct (search_node.left_visited n); simpl.
      * destruct (search_node.right_visited n); simpl.
        -- destruct (if search_node.string_term n then _ else _);
             [apply Hstep | ]; apply store_marked_refl.
        -- destruct (if search_node.string_term n then _ else _);
             [apply Hstep; exact Hr | apply store_marked_refl].
      * destruct (if search_node.string_term n then _ else _);
          [apply Hstep; exact Hl | apply store_marked_refl].
    + destruct (visit_leaf a n p); [apply Hstep | ]; apply store_marked_refl.
Qed.

(** X12: however the loop of [db_search_files] ends, it has added no
    node to the store and removed none, and has changed nothing in a
    node but its two visit flags, which it only ever sets. *)
Theorem walk_only_sets_flags (fuel : nat) (h h' : heap) (snode : option addr)
    (p : params.t) :
  walk fuel h snode p = WFailed h' \/ (exists p', walk fuel h snode p = WDone h' p') ->
  forall a,
    (h' !! a = None <-> h !! a = None) /\
    forall n, h !! a = Some n ->
      exists n', h' !! a = Some n' /\
        n' = with_flags (search_node.left_visited n') (search_node.right_visited n') n /\
        (search_node.left_visited n = true -> search_node.left_visited n' = true) /\
        (search_node.right_visited n = true -> search_node.right_visited n' = true).
Proof.
  intros Hw a. pose proof (walk_marks fuel h snode p) as Hm.
  assert (Hmark : store_marked h h').
  { destruct Hw as [Hw|[p' Hw]]; rewrite Hw in Hm; exact Hm. }
  specialize (Hmark a). destruct (h !! a) as [n|].
  - destruct Hmark as (n' & Hn' & Hf). split.
    + rewrite Hn'. split; discriminate.
    + intros m [= <-]. exists n'. split; [exact Hn' | exact Hf].
  - split; [tauto | discriminate].
Qed.

Lemma walk_only_sets_flags_witness :
  mark example_tree example_heap !! 7%nat = None <-> example_heap !! 7%nat = None.
Proof.
  apply (walk_only_sets_flags 9 example_heap (mark example_tree example_heap)
           (Some (root example_tree)) params.zero).
  right. exists (params.mk "((A AND B) OR C)" 16 0 0 0 0 0 0 None None None).
  vm_compute. reflexivity.
Defined.

(** ** Search compiler: invariants of the loop *)

Lemma str_length_app (s1 s2 : string) :
  String.length (s1 ++ s2) = (String.length s1 + String.length s2)%nat.
Proof.
  induction s1 as [|c s1 IH]; [reflexivity|].
  change (String c s1 ++ s2)%string with (String c (s1 ++ s2)).
  simpl. rewrite IH. reflexivity.
Qed.

Lemma strncat_src_length (s : string) : forall n,
  (String.length (strncat_src s n) <= n)%nat.
Proof.
  induction s as [|c s IH]; intros [|n]; simpl; try lia.
  destruct (Ascii.eqb c NUL); simpl; [lia|]. specialize (IH n). lia.
Qed.

(** An invariant of store and parameters that setting a flag, appending
    a text no longer than the length counted for it, and visiting a leaf
    preserve holds when the loop is left. *)
Lemma walk_invariant (I : heap -> params.t -> Prop) :
  (forall h a n n' p, h !! a = Some n -> flags_set n n' -> I h p ->
     I (<[a := n']> h) p) ->
  (forall h len s p p', I h p -> render len s p = Some p' ->
     Z.of_nat (String.length s) <= len -> I h p') ->
  (forall h a n p p', h !! a = Some n -> I h p -> visit_leaf a n p = Some p' ->
     I h p') ->
  forall fuel h snode p h' p',
    I h p -> walk fuel h snode p = WDone h' p' -> I h' p'.
Proof.
  intros Hflag Hrender Hleaf.
  assert (Hopt : forall (b : bool) h len s p p', I h p ->
            (if b then render len s p else Some p) = Some p' ->
            Z.of_nat (String.length s) <= len -> I h p').
  { intros [] h len s p p' Hi Hr Hlen; [eauto|]. injection Hr as <-. exact Hi. }
  induction fuel as [|fuel IH]; intros h snode p h' p' Hi Hw.
  - destruct snode; simpl in Hw; [discriminate|]. injection Hw as <- <-. exact Hi.
  - destruct snode as [a|]; [|simpl in Hw; injection Hw as <- <-; exact Hi].
    simpl in Hw. destruct (h !! a) as [n|] eqn:Hn; [|discriminate].
    destruct (is_oper (search_node.type n)).
    + destruct (search_node.left_visited n); simpl in Hw.
      * destruct (search_node.right_visited n); simpl in Hw.
        -- destruct (if search_node.string_term n then _ else _) as [p1|] eqn:H1;
             [|discriminate].
           eapply IH; [|exact Hw]. eapply Hopt; [exact Hi | exact H1 | simpl; lia].
        -- destruct (if search_node.string_term n then _ else _) as [p1|] eqn:H1;
             [|discriminate].
           eapply IH; [|exact Hw].
           apply (Hflag _ _ n); [exact Hn | split; [reflexivity | auto] |].
           destruct (search_node.string_term n); [|injection H1 as <-; exact Hi].
           destruct (oper_text (search_node.type n)) as [[len oper]|] eqn:Hop;
             [|discriminate].
           apply oper_text_keyword in Hop as [-> ->].
           eapply Hrender; [exact Hi | exact H1 | lia].
      * destruct (if search_node.string_term n then _ else _) as [p1|] eqn:H1;
          [|discriminate].
        eapply IH; [|exact Hw].
        apply (Hflag _ _ n); [exact Hn | split; [reflexivity | auto] |].
        eapply Hopt; [exact Hi | exact H1 | simpl; lia].
    + destruct (visit_leaf a n p) as [p1|] eqn:H1; [|discriminate].
      eapply IH; [|exact Hw]. eapply Hleaf; eauto.
Qed.

Lemma render_text_fits len s p p' :
  text_fits p -> render len s p = Some p' -> Z.of_nat (String.length s) <= len ->
  text_fits p'.
Proof.
  intros [Hl Hm] Hr Hs. apply render_Some in Hr as [Hle ->].
  unfold text_fits. simpl. rewrite str_length_app. lia.
Qed.

Lemma visit_leaf_text_fits a n p p' :
  0 <= search_node.str_len n -> text_fits p -> visit_leaf a n p = Some p' ->
  text_fits p'.
Proof.
  unfold visit_leaf. intros Hlen Hp.
  destruct (search_node.type n); try discriminate;
    try (intros [= <-]; exact Hp).
  intros Hr. eapply render_text_fits; [exact Hp | exact Hr |].
  pose proof (strncat_src_length (search_node.str_val n)
                (Z.to_nat (search_node.str_len n))). lia.
Qed.

Lemma visit_leaf_ptrs h a n p p' :
  h !! a = Some n -> ptrs_in h p -> visit_leaf a n p = Some p' -> ptrs_in h p'.
Proof.
  unfold visit_leaf. intros Hn Hp Hv o b Ho Hb.
  destruct (search_node.type n); try discriminate.
  all: try (apply render_Some in Hv as [_ ->]; simpl in Ho; eapply Hp; eauto; fail).
  all: injection Hv as <-; simpl in Ho; rewrite !elem_of_cons in Ho.
  all: destruct Ho as [->|[->|[->|Ho]]]; [ | | |inversion Ho].
  all: try (injection Hb as <-; rewrite Hn; eauto; fail).
  all: eapply Hp; [|exact Hb]; rewrite !elem_of_cons; tauto.
Qed.

Lemma ptrs_in_insert h a n n' p :
  h !! a = Some n -> ptrs_in h p -> ptrs_in (<[a := n']> h) p.
Proof.
  intros Hn Hp o b Ho Hb. apply lookup_insert_is_Some'.
  right. eapply Hp; eauto.
Qed.

Lemma filters_defined `{E : Env} h p : ptrs_in h p -> is_Some (filters h p).
Proof.
  intros Hp. unfold filters.
  assert (He : forall a, params.ext_node p = Some a -> is_Some (h !! a)).
  { intros a Ha. apply (Hp (params.ext_node p)); [rewrite !elem_of_cons; tauto|exact Ha]. }
  assert (Hc : forall a, params.codec_node p = Some a -> is_Some (h !! a)).
  { intros a Ha. apply (Hp (params.codec_node p)); [rewrite !elem_of_cons; tauto|exact Ha]. }
  assert (Ht : forall a, params.type_node p = Some a -> is_Some (h !! a)).
  { intros a Ha. apply (Hp (params.type_node p)); [rewrite !elem_of_cons; tauto|exact Ha]. }
  destruct (params.ext_node p) as [a1|].
  - destruct (He a1 eq_refl) as [n1 ->].
    destruct (params.codec_node p) as [a2|].
    + destruct (Hc a2 eq_refl) as [n2 ->].
      destruct (params.type_node p) as [a3|]; [|eauto].
      destruct (Ht a3 eq_refl) as [n3 ->]. eauto.
    + destruct (params.type_node p) as [a3|]; [|eauto].
      destruct (Ht a3 eq_refl) as [n3 ->]. eauto.
  - destruct (params.codec_node p) as [a2|].
    + destruct (Hc a2 eq_refl) as [n2 ->].
      destruct (params.type_node p) as [a3|]; [|eauto].
      destruct (Ht a3 eq_refl) as [n3 ->]. eauto.
    + destruct (params.type_node p) as [a3|]; [|eauto].
      destruct (Ht a3 eq_refl) as [n3 ->]. eauto.
Qed.

(** What holds of store and parameters whenever the loop is left with
    [snode] null. *)
Lemma walk_done_state fuel h snode p h' p' :
  lengths_ok h -> text_fits p -> ptrs_in h p ->
  walk fuel h snode p = WDone h' p' ->
  lengths_ok h' /\ text_fits p' /\ ptrs_in h' p'.
Proof.
  intros Hl Ht Hp Hw.
  apply (walk_invariant
           (fun h p => lengths_ok h /\ text_fits p /\ ptrs_in h p))
    with (fuel := fuel) (h := h) (snode := snode) (p := p); [| | |auto|exact Hw].
  - intros h0 a n n' p0 Hn [Hf _] (H1 & H2 & H3). split; [|split].
    + apply map_Forall_insert_2; [|exact H1]. rewrite Hf. simpl.
      exact (map_Forall_lookup_1 _ _ _ _ H1 Hn).
    + exact H2.
    + eapply ptrs_in_insert; eauto.
  - intros h0 len s p0 p1 (H1 & H2 & H3) Hr Hs. split; [exact H1|]. split.
    + eapply render_text_fits; eauto.
    + apply render_Some in Hr as [_ ->]. exact H3.
  - intros h0 a n p0 p1 Hn (H1 & H2 & H3) Hv. split; [exact H1|]. split.
    + eapply visit_leaf_text_fits; [|exact H2|exact Hv].
      exact (map_Forall_lookup_1 _ _ _ _ H1 Hn).
    + eapply visit_leaf_ptrs; eauto.
Qed.

Lemma zero_state h : text_fits params.zero /\ ptrs_in h params.zero.
Proof.
  split.
  - unfold text_fits, MAX_NAME_TERM_LEN. simpl. lia.
  - intros o a Ho Hoa. simpl in Ho. rewrite !elem_of_cons in Ho.
    destruct Ho as [->|[->|[->|Ho]]]; try discriminate. inversion Ho.
Qed.

(** X13: in a store whose nodes have string lengths that are not
    negative, whatever its shape, a walk that reaches the end leaves a
    search text that has at most the characters counted for it, and the
    count is at most [MAX_NAME_TERM_LEN]: text and terminator are within
    the buffer. *)
Theorem search_text_within_buffer (fuel : nat) (h h' : heap) (snode : option addr)
    (p : params.t) :
  lengths_ok h ->
  walk fuel h snode params.zero = WDone h' p ->
  Z.of_nat (String.length (params.name_term p)) <= params.name_len p /\
  params.name_len p <= MAX_NAME_TERM_LEN /\
  Z.of_nat (String.length (params.name_term p)) + 1 <= sizeof_name_term.
Proof.
  intros Hl Hw. destruct (zero_state h) as [Hz Hp].
  destruct (walk_done_state _ _ _ _ _ _ Hl Hz Hp Hw) as (_ & [H1 H2] & _).
  unfold sizeof_name_term. lia.
Qed.

Lemma search_text_within_buffer_witness :
  Z.of_nat (String.length "((A AND B) OR C)") <= 16 /\
  16 <= MAX_NAME_TERM_LEN /\
  Z.of_nat (String.length "((A AND B) OR C)") + 1 <= sizeof_name_term.
Proof.
  apply (search_text_within_buffer 9 example_heap (mark example_tree example_heap)
           (Some (root example_tree))
           (params.mk "((A AND B) OR C)" 16 0 0 0 0 0 0 None None None)).
  - unfold lengths_ok, example_heap.
    repeat (apply map_Forall_insert_2; [simpl; lia|]). apply map_Forall_empty.
  - vm_compute. reflexivity.
Defined.

(** ** Search: when it answers, and what it returns *)

Lemma walk_done_ptrs fuel h snode p h' p' :
  ptrs_in h p -> walk fuel h snode p = WDone h' p' -> ptrs_in h' p'.
Proof.
  intros Hp Hw.
  apply (walk_invariant ptrs_in)
    with (fuel := fuel) (h := h) (snode := snode) (p := p); [| | |exact Hp|exact Hw].
  - intros h0 a n n' p0 Hn _ H. eapply ptrs_in_insert; eauto.
  - intros h0 len s p0 p1 H Hr _. apply render_Some in Hr as [_ ->]. exact H.
  - intros h0 a n p0 p1 Hn H Hv. eapply visit_leaf_ptrs; eauto.
Qed.

(** The walk of a tree ends within [iterations] turns of the loop. *)
Lemma walk_tree_ends h t fuel :
  repr false h None t -> NoDup (addrs t) -> (iterations t <= fuel)%nat ->
  match compile t params.zero with
  | Some p => walk fuel h (Some (root t)) params.zero = WDone (mark t h) p
  | None => exists h', walk fuel h (Some (root t)) params.zero = WFailed h'
  end.
Proof.
  intros Hrepr Hnd Hfuel.
  pose proof (walk_subtree t h None params.zero (fuel - iterations t) Hrepr Hnd)
    as Hw.
  replace (iterations t + (fuel - iterations t))%nat with fuel in Hw by lia.
  destruct (compile t params.zero); [|exact Hw]. rewrite Hw. apply walk_null.
Qed.

Lemma iterations_count t :
  iterations t = (length (addrs t) + 2 * length (opers t))%nat.
Proof.
  induction t as [a n|a n l IHl r IHr]; simpl; [reflexivity|].
  rewrite !length_app, IHl, IHr. lia.
Qed.

Section ReturnCode.
Context `{E : Env}.

(** When the check after the fetch loop passes: when no step fails
    before the loop has its [n] rows or the engine has reported the end
    of the rows. *)
Lemma search_fetch_code (db : DB) (rows : list (Z * file_row.t))
    (fault : option nat) (out : list search_file.t) (n : Z) :
  0 <= n < 2 ^ 32 ->
  exists i out' err,
    fetch (to_search_file db) (sql_limit (to_int32 n) rows) fault 0 n out =
      (i, out', err) /\
    ((i =? n) || is_done err = true <->
     match fault with
     | None => True
     | Some j => n <= Z.of_nat j \/ Z.of_nat (length rows) < Z.of_nat j
     end).
Proof.
  intros Hn.
  assert (Hnone : exists i out' err,
            fetch (to_search_file db) (sql_limit (to_int32 n) rows) None 0 n out =
              (i, out', err) /\ (i =? n) || is_done err = true).
  { rewrite fetch_limit by exact Hn. eexists _, _, _. split; [reflexivity|].
    apply fetch_limit_done. exact Hn. }
  destruct fault as [j|].
  - rewrite fetch_limit_fault by exact Hn.
    destruct (Z.leb_spec (Z.of_nat j) (Z.min n (Z.of_nat (length rows)))) as [Hle|Hgt].
    + eexists _, _, _. split; [reflexivity|]. rewrite orb_false_r, Z.eqb_eq. lia.
    + destruct Hnone as (i & out' & err & -> & Hok).
      eexists _, _, _. split; [reflexivity|]. rewrite Hok. split; [lia | reflexivity].
  - destruct Hnone as (i & out' & err & -> & Hok).
    eexists _, _, _. split; [reflexivity|]. rewrite Hok. tauto.
Qed.

(** X14: on a tree of nodes, given [3 * operators + leaves] turns of
    the loop, [db_search_files] answers for every limit of 32 bits.  It
    returns 1 exactly when the tree compiles, the statement can be
    prepared, and no [sqlite3_step] fails before the loop has its [n]
    rows or the engine has reported the end of the rows; a search text
    the engine rejects fails the first step, so that only a search for
    0 rows passes.  When it returns 0, [*count] is as it was, and so is
    the output unless a step failed. *)
Theorem search_return_code (h : heap) (t : stree) (fuel : nat)
    (out : list search_file.t) (n : Z) (db : DB) :
  repr false h None t -> NoDup (addrs t) ->
  (length (addrs t) + 2 * length (opers t) <= fuel)%nat ->
  0 <= n < 2 ^ 32 ->
  exists o,
    db_search_files fuel h (Some (root t)) out n db = Some o /\
    (ret o = 0 \/ ret o = 1) /\
    (ret o = 0 -> count o = n) /\
    ((forall p fs, compile t params.zero = Some p -> filters (mark t h) p = Some fs ->
        sqlite_prepare_ok (query_text fs) db = false) ->
     buf o = out) /\
    (ret o = 1 <->
     exists p fs,
       compile t params.zero = Some p /\ filters (mark t h) p = Some fs /\
       sqlite_prepare_ok (query_text fs) db = true /\
       match search_fault (bound_term p) fs db with
       | None => True
       | Some j =>
           n <= Z.of_nat j \/
           Z.of_nat (length (matching db (bound_term p) fs)) < Z.of_nat j
       end).
Proof.
  intros Hrepr Hnd Hfuel Hn. rewrite <- iterations_count in Hfuel.
  pose proof (walk_tree_ends h t fuel Hrepr Hnd Hfuel) as Hw.
  unfold db_search_files.
  destruct (compile t params.zero) as [p|] eqn:Hc.
  2: { destruct Hw as [h' ->]. eexists. split; [reflexivity|]. simpl.
       split; [auto|]. split; [auto|]. split; [auto|]. split; [discriminate|].
       intros (p & fs & Hp & _). discriminate. }
  rewrite Hw.
  destruct (filters_defined (mark t h) p) as [fs Hfs].
  { eapply walk_done_ptrs; [|exact Hw]. apply zero_state. }
  rewrite Hfs.
  destruct (sqlite_prepare_ok (query_text fs) db) eqn:Hprep; simpl.
  2: { eexists. split; [reflexivity|]. simpl.
       split; [auto|]. split; [auto|]. split; [auto|]. split; [discriminate|].
       intros (p0 & fs0 & [= <-] & Hfs0 & Hp0 & _).
       rewrite Hfs in Hfs0. injection Hfs0 as <-. congruence. }
  destruct (search_fetch_code db (matching db (bound_term p) fs)
              (search_fault (bound_term p) fs db) out n Hn)
    as (i & out' & err & -> & Hcode).
  destruct ((i =? n) || is_done err) eqn:Hok.
  - eexists. split; [reflexivity|]. simpl.
    split; [auto|]. split; [discriminate|]. split.
    + intros Hno. specialize (Hno p fs eq_refl Hfs). congruence.
    + split; [|reflexivity]. intros _. exists p, fs.
      repeat split; try assumption. apply Hcode. reflexivity.
  - eexists. split; [reflexivity|]. simpl.
    split; [auto|]. split; [auto|]. split.
    + intros Hno. specialize (Hno p fs eq_refl Hfs). congruence.
    + split; [discriminate|].
      intros (p0 & fs0 & [= <-] & Hfs0 & _ & Hin).
      rewrite Hfs in Hfs0. injection Hfs0 as <-.
      apply Hcode in Hin. discriminate.
Qed.

(** A tree with a node of a type the [switch] does not know does not
    compile. *)
Lemma compile_unknown t : forall p, known_leaves t = false -> compile t p = None.
Proof.
  induction t as [a n|a n l IHl r IHr]; intros p Hk; simpl in Hk |- *.
  - unfold visit_leaf. destruct (search_node.type n); try discriminate; reflexivity.
  - destruct (if search_node.string_term n then render 1 "(" p else Some p)
      as [p1|]; [|reflexivity]. simpl.
    apply andb_false_iff in Hk as [Hk|Hk].
    + rewrite (IHl p1 Hk). reflexivity.
    + destruct (compile l p1) as [p2|]; [|reflexivity]. simpl.
      destruct (if search_node.string_term n then _ else Some p2) as [p3|];
        [|reflexivity].
      simpl. rewrite (IHr p3 Hk). reflexivity.
Qed.

(** X15: a query with a node that is no operator and of none of the
    ten types the [switch] handles is refused: [db_search_files] returns
    0 without touching the output or [*count], and the tree keeps its
    nodes, changed by visit flags only. *)
Theorem unknown_node_refused (h : heap) (t : stree) (fuel : nat)
    (out : list search_file.t) (n : Z) (db : DB) :
  repr false h None t -> NoDup (addrs t) ->
  known_leaves t = false ->
  (iterations t <= fuel)%nat ->
  exists h',
    db_search_files fuel h (Some (root t)) out n db = Some (mkOutcome 0 h' out n) /\
    forall a, (h' !! a = None <-> h !! a = None) /\
      forall m, h !! a = Some m ->
        exists m', h' !! a = Some m' /\
          m' = with_flags (search_node.left_visited m') (search_node.right_visited m') m.
Proof.
  intros Hrepr Hnd Hk Hfuel.
  pose proof (walk_tree_ends h t fuel Hrepr Hnd Hfuel) as Hw.
  rewrite compile_unknown in Hw by exact Hk. destruct Hw as [h' Hw].
  exists h'. split; [unfold db_search_files; rewrite Hw; reflexivity|].
  pose proof (walk_marks fuel h (Some (root t)) params.zero) as Hm.
  rewrite Hw in Hm. intros a. specialize (Hm a).
  destruct (h !! a) as [m|].
  - destruct Hm as (m' & Hm' & Hf & _). split.
    + rewrite Hm'. split; discriminate.
    + intros m0 [= <-]. eauto.
  - split; [tauto | discriminate].
Qed.

End ReturnCode.

Lemma search_return_code_witness :
  exists o,
    db_search_files (E := example_env) 9 example_heap (Some (root example_tree))
      [] 5 example_db = Some o /\
    (ret o = 0 \/ ret o = 1).
Proof.
  destruct (search_return_code (E := example_env) example_heap example_tree 9 [] 5
              example_db) as (o & Ho & Hr & _).
  - simpl. repeat split; try reflexivity; lia.
  - compute_done.
  - simpl. lia.
  - lia.
  - exists o. split; [exact Ho | exact Hr].
Defined.

Lemma unknown_node_refused_witness :
  exists h',
    db_search_files (E := example_env) 5 unknown_heap (Some (root unknown_tree))
      [] 5 example_db = Some (mkOutcome 0 h' [] 5).
Proof.
  destruct (unknown_node_refused (E := example_env) unknown_heap unknown_tree 5 [] 5
              example_db) as (h' & Hh & _).
  - simpl. repeat split; try reflexivity; lia.
  - compute_done.
  - reflexivity.
  - simpl. lia.
  - exists h'. exact Hh.
Defined.

(** ** Search compiler: numeric filters given more than once *)

Lemma visit_leaf_set a n p p' :
  is_numeric (search_node.type n) = true -> visit_leaf a n p = Some p' ->
  slot (search_node.type n) p' = to_uint64 (search_node.int_val n).
Proof.
  unfold visit_leaf. intros Hnum.
  destruct (search_node.type n); try discriminate; intros [= <-]; reflexivity.
Qed.

Lemma compile_last_value ty t : forall p p',
  is_numeric ty = true -> compile t p = Some p' ->
  slot ty p' = default (slot ty p) (last_value ty t).
Proof.
  assert (Hopt : forall (b : bool) len s q q',
            (if b then render len s q else Some q) = Some q' ->
            slot ty q' = slot ty q).
  { intros [] len s q q' H; [eapply render_slot; eauto | congruence]. }
  induction t as [a n|a n l IHl r IHr]; intros p p' Hnum Hc; simpl in Hc |- *.
  - destruct (decide (search_node.type n = ty)) as [<-|Hne]; simpl.
    + eapply visit_leaf_set; eauto.
    + eapply visit_leaf_slot; eauto.
  - destruct (if search_node.string_term n then render 1 "(" p else Some p)
      as [p1|] eqn:H1; [|discriminate]. simpl in Hc.
    destruct (compile l p1) as [p2|] eqn:H2; [|discriminate]. simpl in Hc.
    destruct (if search_node.string_term n then _ else Some p2) as [p3|] eqn:H3;
      [|discriminate]. simpl in Hc.
    destruct (compile r p3) as [p4|] eqn:H4; [|discriminate]. simpl in Hc.
    apply Hopt in H1, Hc. apply (IHl _ _ Hnum) in H2. apply (IHr _ _ Hnum) in H4.
    assert (E3 : slot ty p3 = slot ty p2).
    { destruct (search_node.string_term n); [|congruence].
      destruct (oper_text (search_node.type n)) as [[len oper]|]; [|discriminate].
      eapply render_slot; eauto. }
    rewrite Hc, H4, E3, H2, H1.
    destruct (last_value ty r); reflexivity.
Qed.

Lemma elem_of_when_iff (c : clause) (v : sqlval) (b : bool) c' v' :
  (c, v) ∈ when b c' v' <-> b = true /\ c = c' /\ v = v'.
Proof.
  unfold when. destruct b.
  - rewrite list_elem_of_singleton. split; [intros [= -> ->]; auto|].
    intros (_ & -> & ->). reflexivity.
  - split; [intros H; inversion H | intros [H _]; discriminate].
Qed.

Section LastFilter.
Context `{E : Env}.

(** The clause of a numeric filter is in the query exactly when its
    slot is not 0, and is bound to the slot. *)
Lemma filters_slot h p fs ty c v :
  filters h p = Some fs -> clause_of ty = Some c ->
  ((c, v) ∈ fs <-> slot ty p <> 0 /\ v = VInt (to_int64 (slot ty p))).
Proof.
  unfold filters. intros Hfs Hc.
  repeat match type of Hfs with
         | context [match ?x with Some _ => _ | None => _ end] =>
             destruct x; try discriminate
         end.
  all: injection Hfs as <-.
  all: repeat (rewrite elem_of_app || rewrite elem_of_cons || rewrite elem_of_nil).
  all: rewrite !elem_of_when_iff.
  all: unfold nonzero; rewrite ?negb_true_iff, ?Z.eqb_neq.
  all: destruct ty; try discriminate; injection Hc as <-; simpl slot.
  all: split; [intros H|intros [H ->]].
  all: repeat match goal with
              | H : _ \/ _ |- _ => destruct H as [H|H]
              | H : _ /\ _ |- _ => destruct H as [? H]
              | H : False |- _ => destruct H
              end; try congruence.
  all: try (split; congruence).
  all: tauto.
Qed.

(** X16: when a numeric filter occurs more than once in a query, the
    leaf the walk passes last decides: its value is the one the query
    is given, and with value 0 it removes the filter an earlier leaf
    had set. *)
Theorem last_filter_wins (h : heap) (t : stree) (ty : search_node_type)
    (fuel : nat) (h' : heap) (p : params.t) :
  repr false h None t -> NoDup (addrs t) ->
  is_numeric ty = true ->
  walk fuel h (Some (root t)) params.zero = WDone h' p ->
  slot ty p = default 0 (last_value ty t) /\
  forall fs c v, filters h' p = Some fs -> clause_of ty = Some c ->
    ((c, v) ∈ fs <->
     default 0 (last_value ty t) <> 0 /\
     v = VInt (to_int64 (default 0 (last_value ty t)))).
Proof.
  intros Hrepr Hnd Hnum Hw.
  destruct (walk_done_compile _ _ _ _ _ Hrepr Hnd Hw) as [Hc _].
  pose proof (compile_last_value ty t _ _ Hnum Hc) as Hs.
  replace (slot ty params.zero) with 0 in Hs by (destruct ty; reflexivity).
  split; [exact Hs|]. intros fs c v Hfs Hcl. rewrite <- Hs.
  eapply filters_slot; eauto.
Qed.

End LastFilter.

Lemma last_filter_wins_witness :
  slot ST_MINSIZE (params.mk "" 0 7 0 0 0 0 0 None None None) =
  default 0 (last_value ST_MINSIZE twice_tree).
Proof.
  destruct (last_filter_wins (E := example_env) twice_heap twice_tree ST_MINSIZE 5
              (mark twice_tree twice_heap)
              (params.mk "" 0 7 0 0 0 0 0 None None None)) as [Hs _].
  - simpl. repeat split; try reflexivity; lia.
  - compute_done.
  - reflexivity.
  - vm_compute. reflexivity.
  - exact Hs.
Defined.

(** ** Search executor: the rows returned *)

Lemma NoDup_fst_firstn {A B} (k : nat) (l : list (A * B)) :
  NoDup (map fst l) -> NoDup (map fst (firstn k l)).
Proof.
  rewrite <- firstn_map. intros H.
  eapply sublist_NoDup; [exact H|]. apply sublist_take.
Qed.

Lemma NoDup_fst_sql_limit {A B} (n : Z) (l : list (A * B)) :
  NoDup (map fst l) -> NoDup (map fst (sql_limit n l)).
Proof.
  unfold sql_limit. destruct (n <? 0); [auto|]. apply NoDup_fst_firstn.
Qed.

Section SearchResults.
Context `{E : Env}.

(** A row of the join: a stored file, indexed under a name that matches
    the search text, that satisfies every filter. *)
Lemma matching_spec db term fs k f :
  (k, f) ∈ matching db term fs <->
  files db !! k = Some f /\
  exists nm, fnames db !! k = Some nm /\ fts_match term nm = true /\
    forallb (clause_holds f) fs = true.
Proof.
  unfold matching. rewrite list_elem_of_In, in_flat_map. split.
  - intros ([docid nm] & Hdoc & Hrow).
    apply list_elem_of_In, elem_of_docs in Hdoc.
    destruct (fts_match term nm) eqn:Hm; [|inversion Hrow].
    destruct (files db !! docid) as [g|] eqn:Hg; [|inversion Hrow].
    destruct (forallb _ fs) eqn:Hall; [|inversion Hrow].
    destruct Hrow as [[= <- <-]|[]]. eauto 6.
  - intros (Hf & nm & Hnm & Hm & Hall). exists (k, nm). split.
    + apply list_elem_of_In, elem_of_docs. exact Hnm.
    + rewrite Hm, Hf, Hall. left. reflexivity.
Qed.

(** The join has one row per document at most. *)
Lemma matching_NoDup db term fs : NoDup (map fst (matching db term fs)).
Proof.
  unfold matching.
  set (g := fun '(docid, nm) => if fts_match term nm then _ else _).
  assert (Hg : forall d nm x, x ∈ map fst (g (d, nm)) -> x = d).
  { intros d nm x. unfold g.
    destruct (fts_match term nm); [|intros H; inversion H].
    destruct (files db !! d); [|intros H; inversion H].
    destruct (forallb _ fs); [|intros H; inversion H].
    simpl. intros H. apply list_elem_of_singleton in H. exact H. }
  assert (Hone : forall d nm, NoDup (map fst (g (d, nm)))).
  { intros d nm. unfold g.
    destruct (fts_match term nm); [|constructor].
    destruct (files db !! d); [|constructor].
    destruct (forallb _ fs); [|constructor].
    simpl. apply NoDup_singleton. }
  assert (Hnd : NoDup (docs db).*1).
  { unfold docs. rewrite merge_sort_Permutation. apply NoDup_fst_map_to_list. }
  induction (docs db) as [|[d nm] l IH]; simpl; [constructor|].
  rewrite fmap_cons in Hnd. apply NoDup_cons in Hnd as [Hni Hnd].
  rewrite map_app. apply NoDup_app. split; [apply Hone|]. split; [|auto].
  intros x Hx Hx'. apply Hg in Hx as ->. apply Hni.
  clear -Hg Hx'. induction l as [|[d' nm'] l IH]; simpl in Hx'; [inversion Hx'|].
  rewrite map_app in Hx'. apply elem_of_app in Hx' as [Hx'|Hx'].
  - apply Hg in Hx' as ->. rewrite fmap_cons. apply elem_of_cons. auto.
  - rewrite fmap_cons. apply elem_of_cons. auto.
Qed.

(** X17: whatever [db_search_files] returns, what it has appended to
    the output are rows of distinct stored files, each indexed under a
    name that matches the compiled search text and each satisfying every
    filter of the query. *)
Theorem search_results_sound (fuel : nat) (h : heap) (snode : option addr)
    (out : list search_file.t) (n : Z) (db : DB) (o : search_outcome) :
  db_search_files fuel h snode out n db = Some o ->
  exists rows,
    buf o = out ++ map (to_search_file db) rows /\
    NoDup (map fst rows) /\
    forall k f, (k, f) ∈ rows ->
      files db !! k = Some f /\
      exists p fs nm,
        walk fuel h snode params.zero = WDone (tree o) p /\
        filters (tree o) p = Some fs /\
        fnames db !! k = Some nm /\
        fts_match (bound_term p) nm = true /\
        forall cv, cv ∈ fs -> clause_holds f cv = true.
Proof.
  unfold db_search_files.
  assert (Hnil : forall o', buf o' = out ->
            exists rows, buf o' = out ++ map (to_search_file db) rows /\
              NoDup (map fst rows) /\
              forall k f, (k, f) ∈ rows ->
                files db !! k = Some f /\
                exists p fs nm,
                  walk fuel h snode params.zero = WDone (tree o') p /\
                  filters (tree o') p = Some fs /\
                  fnames db !! k = Some nm /\
                  fts_match (bound_term p) nm = true /\
                  forall cv, cv ∈ fs -> clause_holds f cv = true).
  { intros o' ->. exists []. split; [simpl; rewrite app_nil_r; reflexivity|].
    split; [constructor|]. intros k f Hrow. inversion Hrow. }
  destruct (walk fuel h snode params.zero) as [h' p|h'| |] eqn:Hw; try discriminate.
  2: { intros [= <-]. apply Hnil. reflexivity. }
  destruct (filters h' p) as [fs|] eqn:Hfs; [|discriminate].
  destruct (sqlite_prepare_ok _ db); simpl; [|intros [= <-]; apply Hnil; reflexivity].
  set (rows := sql_limit _ _).
  destruct (fetch_prefix (to_search_file db) rows
              (search_fault (bound_term p) fs db) 0 n out) as (j & err & -> & _).
  assert (Hrows : exists rows', buf (mkOutcome 0 h' (out ++ map (to_search_file db)
                     (firstn j rows)) 0) = out ++ map (to_search_file db) rows' /\
            NoDup (map fst rows') /\
            forall k f, (k, f) ∈ rows' ->
              files db !! k = Some f /\
              exists p0 fs0 nm,
                WDone h' p = WDone h' p0 /\ filters h' p0 = Some fs0 /\
                fnames db !! k = Some nm /\
                fts_match (bound_term p0) nm = true /\
                forall cv, cv ∈ fs0 -> clause_holds f cv = true).
  { exists (firstn j rows). split; [reflexivity|]. split.
    - apply NoDup_fst_firstn, NoDup_fst_sql_limit, matching_NoDup.
    - intros k f Hrow. apply elem_of_firstn, elem_of_sql_limit in Hrow.
      apply matching_spec in Hrow as (Hf & nm & Hnm & Hm & Hall).
      split; [exact Hf|]. exists p, fs, nm. repeat split; try assumption.
      intros cv Hcv. rewrite forallb_forall in Hall. apply Hall.
      apply list_elem_of_In. exact Hcv. }
  destruct (_ || _); intros [= <-]; exact Hrows.
Qed.

End SearchResults.

Lemma search_results_sound_witness :
  exists rows,
    buf example_outcome = [] ++ map (to_search_file (E := example_env) example_db) rows /\
    NoDup (map fst rows).
Proof.
  destruct (search_results_sound (E := example_env) 1 (leaf_heap "song")
              (Some 0%nat) [] 5 example_db example_outcome)
    as (rows & Hb & Hnd & _).
  - vm_compute. reflexivity.
  - exists rows. split; [exact Hb | exact Hnd].
Defined.

(** ** Search executor: the record of a result *)

Lemma cap_len_min cap x : cap_len cap x = Z.min cap x.
Proof. unfold cap_len. destruct (Z.gtb_spec x cap); lia. Qed.

Section ResultRecords.
Context `{E : Env}.

Lemma do_call_peer_rows c db db' :
  by_known_peer c -> consistent db -> peer_rows (sources db) ->
  do_call c db = (1, db') -> peer_rows (sources db').
Proof.
  destruct c as [fs owner|clnt]; simpl; intros Hok Hinv Hrows.
  - unfold db_share_files.
    destruct (share_files_loop fs owner db) as [[[]|] db1] eqn:Hrun; simpl;
      [|discriminate].
    intros [= <-]. revert db Hinv Hrows Hrun.
    induction fs as [|f rest IH]; intros db Hinv Hrows Hrun; simpl in Hrun.
    + injection Hrun as <-. exact Hrows.
    + destruct (pub_file.name_len f =? 0); [eauto|].
      unfold sql_bind in Hrun.
      destruct (share_file f owner db) as [[[]|] db2] eqn:Hone; [|discriminate].
      apply (IH db2); [| |exact Hrun].
      * eapply share_file_consistent; eauto.
      * destruct (share_file_effect f owner db db2 Hinv Hone) as (Hsrc & _).
        rewrite Hsrc. intros s Hs. apply elem_of_app in Hs as [Hs|Hs]; [auto|].
        apply list_elem_of_singleton in Hs as ->. exists owner. auto.
  - unfold db_remove_source, exec.
    destruct (sqlite_ok REMOVE_SRC db); simpl; [|discriminate].
    pose proof (remove_src_kept (to_int64 (MAKE_SID clnt)) (sources db) db) as Hk.
    destruct (remove_src _ (sources db) db) as [db1 kept]. simpl in Hk.
    intros [= <-]. simpl. rewrite Hk. intros s Hs.
    apply list_elem_of_filter in Hs as [_ Hs]. auto.
Qed.

(** X18: after successful calls made for peers with an id of 32 and a
    port of 16 bits, every record a search appends describes a stored
    file, with its hash and name, the name length capped at
    [MAX_FILENAME_LEN], and carries the id and port of a peer that has
    a source row for that file. *)
Theorem search_result_names_a_source (cs : list call) (db : DB) (fuel : nat)
    (h : heap) (snode : option addr) (out : list search_file.t) (n : Z)
    (o : search_outcome) :
  Forall by_known_peer cs ->
  run_calls cs db_create_state = Some db ->
  db_search_files fuel h snode out n db = Some o ->
  exists rows,
    buf o = out ++ map (to_search_file db) rows /\
    forall k f, (k, f) ∈ rows ->
      let sf := to_search_file db (k, f) in
      files db !! k = Some f /\
      search_file.hash sf = file_row.hash f /\
      search_file.name sf = Some (file_row.name f) /\
      search_file.name_len sf =
        Z.min MAX_FILENAME_LEN (Z.of_nat (String.length (file_row.name f))) /\
      exists c s,
        client_ok c /\ s ∈ sources db /\ source_row.fid s = k /\
        source_row.sid s = to_int64 (MAKE_SID c) /\
        search_file.client_id sf = id c /\ search_file.client_port sf = port c.
Proof.
  intros Hall Hrun Hs.
  assert (H : forall db0 db1,
            consistent db0 -> peer_rows (sources db0) ->
            run_calls cs db0 = Some db1 ->
            consistent db1 /\ peer_rows (sources db1)).
  { clear Hrun Hs. induction Hall as [|c cs Hc _ IH]; intros db0 db1 Hinv Hp Hr;
      simpl in Hr.
    - injection Hr as <-. auto.
    - destruct (do_call c db0) as [r db2] eqn:Hcall.
      destruct (Z.eqb_spec r 1) as [->|]; [|discriminate].
      apply (IH db2); [| |exact Hr].
      + eapply do_call_consistent; eauto.
      + eapply do_call_peer_rows; eauto. }
  destruct (H db_create_state db db_create_consistent) as [Hinv Hpeers];
    [intros s Hin; inversion Hin | exact Hrun |].
  destruct (db_search_files_buf _ _ _ _ _ _ _ Hs) as (rows & Hbuf & Hrows).
  exists rows. split; [exact Hbuf|]. intros k f Hrow sf.
  pose proof (Hrows _ Hrow) as Hf. simpl in Hf.
  split; [exact Hf|]. split; [reflexivity|]. split; [reflexivity|].
  split; [apply cap_len_min|].
  destruct Hinv as [Ha _ _ Hl _ _].
  pose proof (Hl _ _ Hf ltac:(congruence)) as Hnz. rewrite (Ha _ _ Hf) in Hnz.
  unfold count_sources, sources_of in Hnz.
  unfold sf, to_search_file, first_sid. simpl.
  destruct (filter (fun s => source_row.fid s = k) (sources db)) as [|s l] eqn:Hfl;
    [simpl in Hnz; lia|].
  assert (Hin : s ∈ filter (fun s => source_row.fid s = k) (sources db)).
  { rewrite Hfl. apply elem_of_cons. auto. }
  apply list_elem_of_filter in Hin as [Hfid Hin].
  destruct (Hpeers _ Hin) as (c & Hc & Hsid).
  exists c, s. split; [exact Hc|]. split; [exact Hin|]. split; [exact Hfid|].
  split; [exact Hsid|]. split.
  - rewrite Hsid. pose proof (stored_sid_unpack c Hc) as Hu.
    unfold unpack_sid in Hu. injection Hu as Hid _. exact Hid.
  - rewrite Hsid. pose proof (stored_sid_unpack c Hc) as Hu.
    unfold unpack_sid in Hu. injection Hu as _ Hport. exact Hport.
Qed.

End ResultRecords.

Lemma search_result_names_a_source_witness :
  exists rows,
    buf example_outcome = [] ++ map (to_search_file (E := example_env) example_db) rows.
Proof.
  destruct (search_result_names_a_source (E := example_env) example_calls example_db 1
              (leaf_heap "song") (Some 0%nat) [] 5 example_outcome)
    as (rows & Hb & _).
  - repeat constructor; vm_compute; intuition discriminate.
  - vm_compute. reflexivity.
  - vm_compute. reflexivity.
  - exists rows. exact Hb.
Defined.

(** ** Search executor: the text bound to the statement *)

Lemma substring_0_app (s t : string) : forall n,
  (String.length s <= n)%nat ->
  String.substring 0 n (s ++ t) =
  (s ++ String.substring 0 (n - String.length s) t)%string.
Proof.
  induction s as [|c s IH]; intros n Hn.
  - change (""%string ++ t)%string with t. simpl String.length.
    rewrite Nat.sub_0_r. reflexivity.
  - destruct n as [|n]; [simpl in Hn; lia|].
    change (String c s ++ t)%string with (String c (s ++ t)).
    simpl. rewrite IH by (simpl in Hn; lia).
    reflexivity.
Qed.

Lemma substring_0_nuls (k : nat) : forall n,
  (k <= n)%nat ->
  String.substring 0 k (string_of_list_ascii (repeat NUL n)) =
  string_of_list_ascii (repeat NUL k).
Proof.
  induction k as [|k IH]; intros n Hk.
  - destruct n; reflexivity.
  - destruct n as [|n]; [lia|]. simpl. rewrite IH by lia. reflexivity.
Qed.

(** X19: the text bound to the first [?] of the search statement is
    the compiled search text followed by [name_len + 1 - strlen] NUL
    bytes, at least one: the terminator of the buffer is bound with the
    text. *)
Theorem bound_text_ends_in_nul (fuel : nat) (h h' : heap) (snode : option addr)
    (p : params.t) :
  lengths_ok h ->
  walk fuel h snode params.zero = WDone h' p ->
  exists k : nat,
    Z.of_nat (String.length (params.name_term p)) + Z.of_nat (S k) =
      params.name_len p + 1 /\
    bound_term p =
      (params.name_term p ++ string_of_list_ascii (repeat NUL (S k)))%string /\
    Z.of_nat (String.length (bound_term p)) = params.name_len p + 1.
Proof.
  intros Hl Hw. destruct (zero_state h) as [Hz Hp].
  destruct (walk_done_state _ _ _ _ _ _ Hl Hz Hp Hw) as (_ & [H1 H2] & _).
  set (len := String.length (params.name_term p)) in *.
  exists (Z.to_nat (params.name_len p) - len)%nat.
  assert (Hb : bound_term p =
            (params.name_term p ++ string_of_list_ascii
               (repeat NUL (S (Z.to_nat (params.name_len p) - len))))%string).
  { unfold bound_term, buffer_bytes.
    rewrite substring_0_app by (fold len; lia). fold len.
    rewrite substring_0_nuls by lia. f_equal. f_equal. f_equal. lia. }
  split; [lia|]. split; [exact Hb|].
  rewrite Hb, str_length_app. fold len.
  assert (Hn : forall m, String.length (string_of_list_ascii (repeat NUL m)) = m).
  { induction m as [|m IH]; simpl; [reflexivity | rewrite IH; reflexivity]. }
  rewrite Hn. lia.
Qed.

Lemma bound_text_ends_in_nul_witness :
  exists k : nat,
    Z.of_nat (String.length "((A AND B) OR C)") + Z.of_nat (S k) = 16 + 1.
Proof.
  destruct (bound_text_ends_in_nul 9 example_heap (mark example_tree example_heap)
              (Some (root example_tree))
              (params.mk "((A AND B) OR C)" 16 0 0 0 0 0 0 None None None))
    as (k & Hk & _).
  - unfold lengths_ok, example_heap.
    repeat (apply map_Forall_insert_2; [simpl; lia|]). apply map_Forall_empty.
  - vm_compute. reflexivity.
  - exists k. exact Hk.
Defined.

(** ** Catalog store: the same announcement twice *)

Section Repeated.
Context `{E : Env}.

(** X20: source rows are not unique per peer and file: when a peer
    announces a file it has already announced, a second source row is
    stored for it and the file counts one more source. *)
Theorem repeated_announcement_counts_twice (cs : list call) (db db1 db2 : DB)
    (f : pub_file.t) (owner : client) :
  run_calls cs db_create_state = Some db ->
  pub_file.name_len f <> 0 ->
  db_share_files [f] owner db = (1, db1) ->
  db_share_files [f] owner db1 = (1, db2) ->
  let fid := to_int64 (MAKE_FID (pub_file.hash f)) in
  sources db2 =
    sources db ++ [announced_source f owner; announced_source f owner] /\
  exists row,
    files db2 !! fid = Some row /\
    file_row.srcavail row = count_sources fid (sources db) + 2 /\
    count_sources fid (sources db2) = count_sources fid (sources db) + 2.
Proof.
  intros Hrun Hlen H1 H2 fid.
  pose proof (run_calls_consistent _ _ _ db_create_consistent Hrun) as Hinv.
  apply db_share_files_single in H1; [|exact Hlen].
  apply db_share_files_single in H2; [|exact Hlen].
  pose proof (share_file_consistent _ _ _ _ Hinv H1) as Hinv1.
  destruct (share_file_effect _ _ _ _ Hinv H1) as (S1 & _).
  destruct (share_file_effect _ _ _ _ Hinv1 H2) as (S2 & _ & row & Hrow & _ & _ & Hav & _).
  fold fid in Hrow, Hav.
  assert (Hcount : forall rows,
            count_sources fid (rows ++ [announced_source f owner]) =
            count_sources fid rows + 1).
  { intros rows. unfold count_sources, sources_of.
    rewrite filter_app, length_app, filter_cons, decide_True by reflexivity.
    rewrite filter_nil. simpl. lia. }
  split.
  - rewrite S2, S1, <- app_assoc. reflexivity.
  - exists row. split; [exact Hrow|]. split.
    + rewrite Hav, S1, Hcount. lia.
    + rewrite S2, S1, !Hcount. lia.
Qed.

End Repeated.

Lemma repeated_announcement_counts_twice_witness :
  sources again_db =
  sources db_create_state ++
    [announced_source (song 5 true) peer_a; announced_source (song 5 true) peer_a].
Proof.
  destruct (repeated_announcement_counts_twice (E := example_env) [] db_create_state
              single_db again_db (song 5 true) peer_a) as (H1 & _).
  - reflexivity.
  - simpl. lia.
  - vm_compute. reflexivity.
  - vm_compute. reflexivity.
  - exact H1.
Defined.

(** ** Search executor: the text of the statement *)

Section QueryText.
Context `{E : Env}.

(** X21: whichever filters a query has, the text of the statement,
    put together by [strcat] without a check, fits the buffer [query]
    with its terminator, and has as many [?] as values are bound to
    it. *)
Theorem query_text_fits_and_binds (h : heap) (p : params.t)
    (fs : list (clause * sqlval)) (n : Z) :
  filters h p = Some fs ->
  Z.of_nat (String.length (query_text fs)) + 1 <= MAX_SEARCH_QUERY_LEN + 1 /\
  placeholders (query_text fs) = length (query_binds p fs n).
Proof.
  unfold filters. intros Hfs.
  repeat match type of Hfs with
         | context [match ?x with Some _ => _ | None => _ end] =>
             destruct x; try discriminate
         end.
  all: destruct (nonzero (params.minsize p)), (nonzero (params.maxsize p)),
         (nonzero (params.srcavail p)), (nonzero (params.srccomplete p)),
         (nonzero (params.minbitrate p)), (nonzero (params.minlength p)).
  all: injection Hfs as <-.
  all: split; [vm_compute; discriminate | vm_compute; reflexivity].
Qed.

End QueryText.

Lemma query_text_fits_and_binds_witness :
  placeholders (query_text [(F_minsize, VInt 7)]) =
  length (query_binds (params.mk "" 0 7 0 0 0 0 0 None None None)
            [(F_minsize, VInt 7)] 5).
Proof.
  apply (query_text_fits_and_binds (E := example_env) twice_heap
           (params.mk "" 0 7 0 0 0 0 0 None None None) [(F_minsize, VInt 7)] 5).
  vm_compute. reflexivity.
Defined.
